(** * gen_glad_doxygen: a shallow embedding and its properties

    The program reads a GLAD header, the Khronos registry (gl.xml) and the
    DocBook reference pages, and writes the header again with a Doxygen
    block above every alias macro.

    Conventions of the embedding.
    - A Python [str] is a [string]; a character is a code point below 256
      (Rocq's [ascii]), classified as Python classifies it (white space,
      line boundary, word character).
    - A [dict] is a [gmap], a [set] a [gset]; a list walked by index is a
      [list] with an explicit index.
    - An [xml.etree.ElementTree.Element] is the inductive [Element].
    - The file system is outside: a [RefPages] object carries the root
      element that [load] obtains for each function name, and a file is
      the string it holds. *)

From Stdlib Require Import ZArith Lia Ascii.
From stdpp Require Import base option list gmap strings fin_maps fin_sets relations.

#[local] Arguments String.append !_ _ / : simpl nomatch.

(** ** Python string primitives *)

Module Py.

Definition code (c : ascii) : N := N_of_ascii c.

Definition in_range (lo hi : N) (c : ascii) : bool :=
  (lo <=? code c)%N && (code c <=? hi)%N.

(** [str.isspace] on one code point: TAB..CR, FS..US, SPACE, NEL, NBSP.
    [str.split], [str.strip], [int] and the pattern class [\s] use it. *)
Definition is_space (c : ascii) : bool :=
  in_range 9 13 c || in_range 28 32 c
  || (code c =? 133)%N || (code c =? 160)%N.

(** The line boundaries of [str.splitlines]: LF, VT, FF, CR, FS, GS, RS
    and NEL. *)
Definition is_linebreak (c : ascii) : bool :=
  in_range 10 13 c || in_range 28 30 c || (code c =? 133)%N.

Definition is_digit (c : ascii) : bool := in_range 48 57 c.

(** The pattern class [[A-Za-z0-9_]]. *)
Definition is_ident (c : ascii) : bool :=
  in_range 65 90 c || in_range 97 122 c || is_digit c || (code c =? 95)%N.

(** The pattern class [\w] of a [str] pattern: [_] and every code point
    for which [str.isalnum] holds. *)
Definition is_word (c : ascii) : bool :=
  is_ident c
  || (code c =? 170)%N || (code c =? 178)%N || (code c =? 179)%N
  || (code c =? 181)%N || (code c =? 185)%N || (code c =? 186)%N
  || in_range 188 190 c
  || in_range 192 214 c || in_range 216 246 c || in_range 248 255 c.

Fixpoint lstrip (s : string) : string :=
  match s with
  | "" => ""
  | String c s' => if is_space c then lstrip s' else s
  end.

Fixpoint rstrip (s : string) : string :=
  match s with
  | "" => ""
  | String c s' =>
      match rstrip s' with
      | "" => if is_space c then "" else String c ""
      | r => String c r
      end
  end.

Definition strip (s : string) : string := rstrip (lstrip s).

(** [s.startswith(p)] *)
Fixpoint startswith (s p : string) {struct p} : bool :=
  match p, s with
  | "", _ => true
  | String a p', String b s' => if Ascii.eqb a b then startswith s' p' else false
  | String _ _, "" => false
  end.

(** [s.endswith(p)] *)
Fixpoint endswith (s p : string) : bool :=
  String.eqb s p ||
  match s with
  | "" => false
  | String _ s' => endswith s' p
  end.

(** [needle in hay] *)
Fixpoint contains (needle hay : string) : bool :=
  startswith hay needle ||
  match hay with
  | "" => false
  | String _ hay' => contains needle hay'
  end.

(** [s.split()]: the maximal runs of characters that are not white
    space. *)
Fixpoint split (s : string) : list string :=
  match s with
  | "" => []
  | String c s' =>
      if is_space c then split s'
      else match s' with
           | "" => [String c ""]
           | String c' _ =>
               if is_space c' then String c "" :: split s'
               else match split s' with
                    | w :: ws => String c w :: ws
                    | [] => [String c ""]
                    end
           end
  end.

(** [sep.join(xs)] *)
Definition join (sep : string) (xs : list string) : string :=
  String.concat sep xs.

(** [s.split(sep)] for a one-character separator. *)
Fixpoint split_on (sep : ascii) (s : string) : list string :=
  match s with
  | "" => [""]
  | String c s' =>
      if Ascii.eqb c sep then "" :: split_on sep s'
      else match split_on sep s' with
           | w :: ws => String c w :: ws
           | [] => [String c ""]
           end
  end.

(** [s.splitlines()]: CR LF is one boundary, and a boundary at the end
    of the text opens no further line. *)
Fixpoint splitlines (s : string) : list string :=
  match s with
  | "" => []
  | String c s' =>
      if is_linebreak c then
        "" :: match s' with
              | String c' s'' =>
                  if (code c =? 13)%N && (code c' =? 10)%N
                  then splitlines s'' else splitlines s'
              | "" => []
              end
      else match splitlines s' with
           | w :: ws => String c w :: ws
           | [] => [String c ""]
           end
  end.

(** [s.lower()] on code points below 256. *)
Definition lower_char (c : ascii) : ascii :=
  if in_range 65 90 c || (in_range 192 222 c && negb (code c =? 215)%N)
  then ascii_of_N (code c + 32) else c.

Fixpoint lower (s : string) : string :=
  match s with
  | "" => ""
  | String c s' => String (lower_char c) (lower s')
  end.

(** Every character of [s] satisfies [p]. *)
Fixpoint all_chars (p : ascii → bool) (s : string) : bool :=
  match s with
  | "" => true
  | String c s' => p c && all_chars p s'
  end.

(** Truth value of a string, and of an optional string ([None] and the
    empty string are false). *)
Definition truthy (s : string) : bool := negb (String.eqb s "").

Definition truthy_opt (o : option string) : bool :=
  match o with Some s => truthy s | None => false end.

(** [int(s)] in base ten: surrounding white space, one optional sign,
    digits with single underscores between them. [None] stands for
    [ValueError]. The white space that [int] strips is TAB..CR, SPACE,
    NEL and NBSP: the separators FS..US are not part of it. A text
    with more than 4300 digits is refused, as the interpreter does by
    default. *)
Definition is_int_space (c : ascii) : bool :=
  in_range 9 13 c || (code c =? 32)%N || (code c =? 133)%N || (code c =? 160)%N.

Fixpoint int_lstrip (s : string) : string :=
  match s with
  | "" => ""
  | String c s' => if is_int_space c then int_lstrip s' else s
  end.

Fixpoint int_rstrip (s : string) : string :=
  match s with
  | "" => ""
  | String c s' =>
      match int_rstrip s' with
      | "" => if is_int_space c then "" else String c ""
      | r => String c r
      end
  end.

Definition digit_val (c : ascii) : Z := Z.of_N (code c) - 48.

Fixpoint int_digits (acc : Z) (after_us : bool) (s : string) : option Z :=
  match s with
  | "" => if after_us then None else Some acc
  | String c s' =>
      if is_digit c then int_digits (10 * acc + digit_val c) false s'
      else if (code c =? 95)%N && negb after_us then int_digits acc true s'
      else None
  end.

(** The number of digits of [s]; underscores do not count. *)
Fixpoint count_digits (s : string) : N :=
  match s with
  | "" => 0%N
  | String c s' => ((if is_digit c then 1 else 0) + count_digits s')%N
  end.

(** [sys.int_info.default_max_str_digits]: [int] raises [ValueError] for
    a text with more digits than this, leading zeros included. *)
Definition max_str_digits : N := 4300%N.

Definition int_unsigned (s : string) : option Z :=
  if (max_str_digits <? count_digits s)%N then None
  else
    match s with
    | String c s' => if is_digit c then int_digits (digit_val c) false s' else None
    | "" => None
    end.

Definition int (s : string) : option Z :=
  match int_rstrip (int_lstrip s) with
  | String c r =>
      if (code c =? 43)%N then int_unsigned r
      else if (code c =? 45)%N then Z.opp <$> int_unsigned r
      else int_unsigned (String c r)
  | "" => None
  end.

(** [a < b] on tuples of integers. *)
Fixpoint tuple_lt (a b : list Z) : bool :=
  match a, b with
  | [], [] => false
  | [], _ :: _ => true
  | _ :: _, [] => false
  | x :: a', y :: b' =>
      if (x <? y)%Z then true
      else if (y <? x)%Z then false
      else tuple_lt a' b'
  end.

(** [s1 < s2] on strings (code point order), and [sorted] on a list of
    strings. *)
Fixpoint str_le (a b : string) : bool :=
  match a, b with
  | "", _ => true
  | String _ _, "" => false
  | String x a', String y b' =>
      if (code x <? code y)%N then true
      else if (code y <? code x)%N then false
      else str_le a' b'
  end.

Fixpoint insert_sorted (x : string) (l : list string) : list string :=
  match l with
  | [] => [x]
  | y :: l' => if str_le x y then x :: l else y :: insert_sorted x l'
  end.

Definition sorted (l : list string) : list string :=
  foldr insert_sorted [] l.

End Py.

(** ** The registry model *)

Record Param := mkParam {
  p_type : string;
  p_name : string;
  p_group : option string;
  p_len : option string
}.

Record Command := mkCommand {
  c_ret : string;
  c_params : list Param;
  c_alias : option string
}.

Record GLRegistry := mkRegistry {
  commands : gmap string Command;
  alias_of : gmap string string;
  introduced_version : gmap string string;
  extensions_for_cmd : gmap string (gset string)
}.

(** The loop of [resolve_alias]. [seen] is the Python set; it is kept as
    the list of the names added, newest first, so that the order of
    insertion stays visible. [fuel] bounds the number of iterations; the
    loop returns its final [(seen, cur)], or [None] when the fuel is
    exhausted. *)
Fixpoint resolve_loop (al : gmap string string) (fuel : nat)
    (seen : list string) (cur : string) : option (list string * string) :=
  match al !! cur with
  | Some nxt =>
      if bool_decide (cur ∈ seen) then Some (seen, cur)
      else match fuel with
           | O => None
           | S fuel' => resolve_loop al fuel' (cur :: seen) nxt
           end
  | None => Some (seen, cur)
  end.

Definition resolve_run (al : gmap string string) (name : string)
    : option (list string * string) :=
  resolve_loop al (size al) [] name.

Definition resolve_alias (reg : GLRegistry) (name : string) : string :=
  match resolve_run (alias_of reg) name with
  | Some (_, cur) => cur
  | None => name
  end.

(** One alias pointer. *)
Definition alias_step (al : gmap string string) (x y : string) : Prop :=
  al !! x = Some y.

(** The name added last to [seen] points at the current name. *)
Definition last_points (al : gmap string string) (seen : list string)
    (cur : string) : Prop :=
  match seen with
  | [] => True
  | last :: _ => al !! last = Some cur
  end.

(** ** Regular expressions of the program *)

Module Re.
Import Py.

Definition is_word_opt (o : option ascii) : bool :=
  match o with Some c => is_word c | None => false end.

(** [\b] between the characters [prev] and [next] ([None] at either end
    of the text). *)
Definition boundary (prev next : option ascii) : bool :=
  xorb (is_word_opt prev) (is_word_opt next).

(** The pattern [\b<name>\b] matches at the start of [s], the character
    before [s] being [prev]. *)
Definition word_here (name : string) (prev : option ascii) (s : string) : bool :=
  startswith s name
  && boundary prev (String.get 0 s)
  && boundary (String.get (String.length name - 1) name)
              (String.get (String.length name) s).

Fixpoint sub_word_loop (name : string) (prev : option ascii) (skip : nat)
    (s : string) : string :=
  match s with
  | "" => ""
  | String c s' =>
      match skip with
      | S k => sub_word_loop name (Some c) k s'
      | O =>
          if word_here name prev s
          then sub_word_loop name (Some c) (String.length name - 1) s'
          else String c (sub_word_loop name (Some c) 0 s')
      end
  end.

(** [re.sub(r"\b" + re.escape(name) + r"\b", "", s)]. With an empty
    [name] the pattern matches only empty strings and [s] is returned. *)
Definition sub_word (name s : string) : string :=
  match name with
  | "" => s
  | _ => sub_word_loop name None 0 s
  end.

Fixpoint remove_loop (old : string) (skip : nat) (s : string) : string :=
  match s with
  | "" => ""
  | String c s' =>
      match skip with
      | S k => remove_loop old k s'
      | O =>
          if startswith s old
          then remove_loop old (String.length old - 1) s'
          else String c (remove_loop old 0 s')
      end
  end.

(** [s.replace(old, "")] *)
Definition remove (old s : string) : string :=
  match old with
  | "" => s
  | _ => remove_loop old 0 s
  end.

(** Steps of the matcher for [DEFINE_RE]. Every repetition of the
    pattern is followed by a character outside its class (or by the end
    of the line), so the longest run is the only one that can match. *)
Fixpoint expect (lit s : string) : option string :=
  match lit, s with
  | "", _ => Some s
  | String a lit', String b s' =>
      if Ascii.eqb a b then expect lit' s' else None
  | String _ _, "" => None
  end.

Fixpoint span (p : ascii → bool) (s : string) : string * string :=
  match s with
  | "" => ("", "")
  | String c s' =>
      if p c then let '(a, b) := span p s' in (String c a, b)
      else ("", s)
  end.

(** [\s+] *)
Definition spaces1 (s : string) : option string :=
  match span is_space s with
  | ("", _) => None
  | (_, r) => Some r
  end.

(** [[A-Za-z0-9_]+] *)
Definition ident1 (s : string) : option (string * string) :=
  match span is_ident s with
  | ("", _) => None
  | (a, r) => Some (a, r)
  end.

(** [DEFINE_RE.match(line)]: the two groups of
    [^\s*#\s*define\s+(gl[A-Za-z0-9_]+)\s+(glad_gl[A-Za-z0-9_]+)\s*$]. *)
Definition DEFINE_RE_match (line : string) : option (string * string) :=
  s ← expect "#" (lstrip line);
  s ← expect "define" (lstrip s);
  s ← spaces1 s;
  s ← expect "gl" s;
  '(id1, s) ← ident1 s;
  s ← spaces1 s;
  s ← expect "glad_gl" s;
  '(id2, s) ← ident1 s;
  match lstrip s with
  | "" => Some ("gl" +:+ id1, "glad_gl" +:+ id2)
  | _ => None
  end.

End Re.

(** ** ElementTree *)

Module ET.

#[warnings="-register-all"]
Inductive Element : Type :=
  mkElement (tag : string) (attrib : list (string * string))
            (text : option string) (children : list Element)
            (tail : option string).

Definition tag (e : Element) : string :=
  match e with mkElement t _ _ _ _ => t end.
Definition attrib (e : Element) : list (string * string) :=
  match e with mkElement _ a _ _ _ => a end.
Definition text (e : Element) : option string :=
  match e with mkElement _ _ x _ _ => x end.
Definition children (e : Element) : list Element :=
  match e with mkElement _ _ _ cs _ => cs end.
Definition tail (e : Element) : option string :=
  match e with mkElement _ _ _ _ x => x end.

(** [e.get(key)] *)
Definition get (e : Element) (key : string) : option string :=
  snd <$> List.find (λ kv, String.eqb kv.1 key) (attrib e).

(** [e.findall("./t")] and [e.findall("t")]: the children with tag [t]. *)
Definition findall (e : Element) (t : string) : list Element :=
  List.filter (λ c, String.eqb (tag c) t) (children e).

(** The elements below [e], in document order. *)
Fixpoint descendants (e : Element) : list Element :=
  match e with
  | mkElement _ _ _ cs _ => flat_map (λ c, c :: descendants c) cs
  end.

(** [e.findall(".//t")] *)
Definition findall_deep (e : Element) (t : string) : list Element :=
  List.filter (λ c, String.eqb (tag c) t) (descendants e).

(** [e.find("t")] *)
Definition find (e : Element) (t : string) : option Element :=
  head (findall e t).

Definition text_of (o : option Element) : option string :=
  match o with
  | Some c => Some (default "" (text c))
  | None => None
  end.

(** [e.findtext("t")]: the text of the first match, [""] when that
    element has no text, [None] without a match. *)
Definition findtext (e : Element) (t : string) : option string :=
  text_of (find e t).

(** [e.findtext(".//t")] *)
Definition findtext_deep (e : Element) (t : string) : option string :=
  text_of (head (findall_deep e t)).

Definition text_or_empty (o : option string) : string := default "" o.

(** ["".join(e.itertext())] *)
Fixpoint flatten_text (e : Element) : string :=
  match e with
  | mkElement _ _ x cs _ =>
      text_or_empty x +:+
      String.concat ""
        (map (λ c, flatten_text c +:+ text_or_empty (tail c)) cs)
  end.

(** A tag in the DocBook name space, as the parser spells it. *)
Definition db (local : string) : string :=
  "{http://docbook.org/ns/docbook}" +:+ local.

Definition xml_id : string := "{http://www.w3.org/XML/1998/namespace}id".

End ET.

Import Py Re ET.

Definition norm_ws (s : string) : string := join " " (split s).

Definition make_refpage_url (folder_tag func : string) : string :=
  "https://registry.khronos.org/OpenGL-Refpages/" +:+ folder_tag
  +:+ "/html/" +:+ func +:+ ".xhtml".

(** [a or b] on optional strings. *)
Definition or_else (a b : option string) : option string :=
  if truthy_opt a then a else b.

(** The type text around an identifier:
    [norm_ws(re.sub(r"\b" + re.escape(name) + r"\b", "", text))]. *)
Definition type_text (name text : string) : string :=
  norm_ws (sub_word name text).

(** ** GLRegistry: loading *)

(** [_parse_commands]: the body of the loop over [./commands/command]. *)
Definition parse_param (p : Element) : option Param :=
  let pname := findtext p "name" in
  if truthy_opt pname then
    let pname := text_or_empty pname in
    Some (mkParam (type_text pname (norm_ws (flatten_text p))) pname
                  (get p "group") (get p "len"))
  else None.

Definition parse_command (st : gmap string Command * gmap string string)
    (cmd : Element) : gmap string Command * gmap string string :=
  match find cmd "proto" with
  | None => st
  | Some proto =>
      let name := findtext proto "name" in
      if truthy_opt name then
        let name := text_or_empty name in
        let ret_type := type_text name (norm_ws (flatten_text proto)) in
        let ret_type :=
          norm_ws (remove "GLAPIENTRY" (remove "APIENTRY" ret_type)) in
        let params := omap parse_param (findall cmd "param") in
        let alias := get cmd "alias" in
        let aliases :=
          if truthy_opt alias then <[name := text_or_empty alias]> st.2
          else st.2 in
        (<[name := mkCommand ret_type params alias]> st.1, aliases)
      else st
  end.

Definition _parse_commands (root : Element)
    : gmap string Command * gmap string string :=
  foldl parse_command (∅, ∅)
    (flat_map (λ cs, findall cs "command") (findall root "commands")).

(** [tuple(map(int, number.split(".")))]; [None] when an [int] raises. *)
Definition version_tuple (number : string) : option (list Z) :=
  mapM Py.int (split_on "." number).

(** The body of the innermost loop of [_parse_features]: command [nm] is
    required by a feature block numbered [number]. *)
Definition note_version (number : string) (iv : gmap string string)
    (nm : string) : gmap string string :=
  match iv !! nm with
  | None => <[nm := number]> iv
  | Some cur =>
      match version_tuple number, version_tuple cur with
      | Some a, Some b => if tuple_lt a b then <[nm := number]> iv else iv
      | _, _ => iv
      end
  end.

Definition parse_feature (iv : gmap string string) (feat : Element)
    : gmap string string :=
  if negb (bool_decide (get feat "api" = Some "gl")) then iv
  else
    let number := text_or_empty (or_else (get feat "number") (Some "")) in
    if negb (truthy number) then iv
    else
      foldl (λ iv req,
               foldl (λ iv c,
                        let nm := get c "name" in
                        if truthy_opt nm
                        then note_version number iv (text_or_empty nm)
                        else iv)
                     iv (findall req "command"))
            iv (findall feat "require").

Definition _parse_features (root : Element) : gmap string string :=
  foldl parse_feature ∅ (findall root "feature").

Definition parse_extension (ex : gmap string (gset string)) (ext : Element)
    : gmap string (gset string) :=
  let ext_name := get ext "name" in
  if truthy_opt ext_name then
    foldl (λ ex req,
             foldl (λ ex c,
                      let nm := get c "name" in
                      if truthy_opt nm then
                        let nm := text_or_empty nm in
                        <[nm := {[text_or_empty ext_name]} ∪ default ∅ (ex !! nm)]> ex
                      else ex)
                   ex (findall req "command"))
          ex (findall ext "require")
  else ex.

Definition _parse_extensions (root : Element) : gmap string (gset string) :=
  foldl parse_extension ∅
    (flat_map (λ es, findall es "extension") (findall root "extensions")).

(** [GLRegistry(xml_path)], [root] being the parsed document. *)
Definition load_registry (root : Element) : GLRegistry :=
  let cs := _parse_commands root in
  mkRegistry cs.1 cs.2 (_parse_features root) (_parse_extensions root).

(** ** GLRegistry: queries *)

Definition signature (reg : GLRegistry) (name : string)
    : option (string * list Param) :=
  match commands reg !! name with
  | Some info => Some (c_ret info, c_params info)
  | None => None
  end.

Definition signature_canonical (reg : GLRegistry) (name : string)
    : option (string * list Param * string) :=
  let canon := resolve_alias reg name in
  match signature reg canon with
  | Some (ret, params) => Some (ret, params, canon)
  | None => None
  end.

Definition version_or_exts (reg : GLRegistry) (name : string)
    : option string * list string :=
  let v := introduced_version reg !! name in
  let v := match v with
           | None => introduced_version reg !! resolve_alias reg name
           | Some _ => v
           end in
  let exts :=
    sorted (elements (default ∅ (extensions_for_cmd reg !! name)
                      ∪ default ∅ (extensions_for_cmd reg !! resolve_alias reg name))) in
  (v, exts).

(** ** RefPages *)

(** [documents] holds, for a function name, the root element that [load]
    returns: the file exists and the strict or the lenient parse succeeds.
    The cache of [load] memoises that result and is left out. *)
Record RefPages := mkRefPages {
  folder_tag : string;
  documents : gmap string Element
}.

Definition load (refs : RefPages) (func : string) : option Element :=
  documents refs !! func.

Definition brief (refs : RefPages) (func : string) : option string :=
  match load refs func with
  | None => None
  | Some root =>
      let txt := findtext_deep root (db "refpurpose") in
      let txt := if truthy_opt txt then txt else findtext_deep root "refpurpose" in
      if truthy_opt txt then Some (norm_ws (text_or_empty txt)) else None
  end.

Definition paramdef (p : Element) : option (string * string) :=
  let pname :=
    strip (text_or_empty (or_else (or_else (findtext p (db "parameter"))
                                            (findtext p "parameter"))
                                   (Some ""))) in
  if truthy pname then Some (type_text pname (norm_ws (flatten_text p)), pname)
  else None.

Fixpoint c_signature_loop (func : string) (protos : list Element)
    : option (string * list (string * string)) :=
  match protos with
  | [] => None
  | proto :: rest =>
      let fdef := match find proto (db "funcdef") with
                  | None => find proto "funcdef"
                  | o => o
                  end in
      match fdef with
      | None => c_signature_loop func rest
      | Some fdef =>
          let fname :=
            strip (text_or_empty (or_else (or_else (findtext fdef (db "function"))
                                                    (findtext fdef "function"))
                                           (Some ""))) in
          if negb (String.eqb fname func) then c_signature_loop func rest
          else
            let ret := type_text fname (norm_ws (flatten_text fdef)) in
            let params :=
              omap paramdef (findall proto (db "paramdef") ++ findall proto "paramdef") in
            Some (ret, params)
      end
  end.

Definition c_signature (refs : RefPages) (func : string)
    : option (string * list (string * string)) :=
  match load refs func with
  | None => None
  | Some root =>
      c_signature_loop func
        (findall_deep root (db "funcprototype") ++ findall_deep root "funcprototype")
  end.

(** The search for the parameters section in [param_descriptions]. *)
Definition is_param_section (node : Element) : bool :=
  let title :=
    lower (strip (text_or_empty (or_else (or_else (findtext node (db "title"))
                                                   (findtext node "title"))
                                          (Some "")))) in
  bool_decide (get node xml_id = Some "parameters") || String.eqb title "parameters".

Definition param_section (root : Element) : option Element :=
  List.find is_param_section
    (findall_deep root (db "refsect1") ++ findall_deep root "refsect1").

(** The names in the terms of one [varlistentry]. *)
Definition entry_terms (e : Element) : list string :=
  omap (λ t, let pname := or_else (findtext t (db "parameter"))
                                  (findtext t "parameter") in
             if truthy_opt pname then Some (strip (text_or_empty pname)) else None)
       (findall e (db "term") ++ findall e "term").

(** The description of one [varlistentry]. *)
Definition entry_desc (e : Element) : string :=
  let li := match find e (db "listitem") with
            | None => find e "listitem"
            | o => o
            end in
  match li with
  | Some li => norm_ws (flatten_text li)
  | None => ""
  end.

(** The body of the loop over the entries of a [variablelist]. *)
Definition add_entry (out : gmap string string) (e : Element)
    : gmap string string :=
  let terms := entry_terms e in
  match terms with
  | [] => out
  | _ =>
      let desc := entry_desc e in
      foldl (λ out nm, if truthy desc then <[nm := desc]> out else out) out terms
  end.

Definition variablelists (sect : Element) : list Element :=
  findall_deep sect (db "variablelist") ++ findall_deep sect "variablelist".

Definition entries (v : Element) : list Element :=
  findall v (db "varlistentry") ++ findall v "varlistentry".

Definition param_descriptions (refs : RefPages) (func : string)
    : gmap string string :=
  match load refs func with
  | None => ∅
  | Some root =>
      match param_section root with
      | None => ∅
      | Some sect =>
          foldl (λ out v, foldl add_entry out (entries v)) ∅ (variablelists sect)
      end
  end.

(** ** The docblock synthesizer *)

Definition LF : string := String "010"%char "".

Definition make_param_line_with_desc (pname ptype : string)
    (desc : option string) (trailer : string) : string :=
  if truthy_opt desc
  then " * \param " +:+ pname +:+ " (" +:+ ptype +:+ ") - "
       +:+ text_or_empty desc +:+ trailer
  else " * \param " +:+ pname +:+ " (" +:+ ptype +:+ ")" +:+ trailer.

Definition make_param_trailer_from_reg (reg_p : option Param) : string :=
  match reg_p with
  | None => ""
  | Some reg_p =>
      let extras :=
        (if truthy_opt (p_group reg_p)
         then ["group: " +:+ text_or_empty (p_group reg_p)] else [])
        ++ (if truthy_opt (p_len reg_p)
            then ["len: " +:+ text_or_empty (p_len reg_p)] else []) in
      match extras with
      | [] => ""
      | _ => "  [" +:+ join " | " extras +:+ "]"
      end
  end.

(** The loop over [params_list] with its set [seen_p]. *)
Fixpoint param_lines (reg_params_by_name : gmap string Param)
    (pdesc : gmap string string) (seen_p : gset string)
    (params_list : list (string * string)) : list string :=
  match params_list with
  | [] => []
  | (ptype, pname) :: rest =>
      if bool_decide (pname ∈ seen_p)
      then param_lines reg_params_by_name pdesc seen_p rest
      else
        let trailer := make_param_trailer_from_reg (reg_params_by_name !! pname) in
        make_param_line_with_desc pname ptype (pdesc !! pname) trailer
        :: param_lines reg_params_by_name pdesc ({[pname]} ∪ seen_p) rest
  end.

(** The signature that [build_doc] documents: the reference page of the
    literal name, else that of the canonical name, else the registry. *)
Definition doc_signature (reg : GLRegistry) (refs : RefPages) (gl_name : string)
    : option (string * list (string * string)) :=
  let canon := resolve_alias reg gl_name in
  let sig := c_signature refs gl_name in
  let sig := match sig with
             | None => if negb (String.eqb canon gl_name)
                       then c_signature refs canon else None
             | Some _ => sig
             end in
  let reg_sig := signature_canonical reg gl_name in
  match sig, reg_sig with
  | None, None => None
  | None, Some (ret, params, _) =>
      Some (ret, map (λ p, (p_type p, p_name p)) params)
  | Some s, _ => Some s
  end.

(** The list [lines] that [build_doc] joins. *)
Definition build_doc_lines (reg : GLRegistry) (refs : RefPages)
    (gl_name : string) : option (list string) :=
  let canon := resolve_alias reg gl_name in
  let brief_ := brief refs gl_name in
  let brief_ := match brief_ with
                | None => if negb (String.eqb canon gl_name)
                          then brief refs canon else None
                | Some _ => brief_
                end in
  let pdesc := param_descriptions refs gl_name in
  let pdesc := if bool_decide (pdesc = ∅) && negb (String.eqb canon gl_name)
               then param_descriptions refs canon else pdesc in
  let reg_params_by_name : gmap string Param :=
    match signature_canonical reg gl_name with
    | Some (_, params_r, _) =>
        foldl (λ m rp, <[p_name rp := rp]> m) ∅ params_r
    | None => ∅
    end in
  match doc_signature reg refs gl_name with
  | None => None
  | Some (ret, params_list) =>
      let version_exts := version_or_exts reg gl_name in
      let note_parts :=
        (if truthy_opt version_exts.1
         then ["Introduced in OpenGL " +:+ text_or_empty version_exts.1] else [])
        ++ (match version_exts.2 with
            | [] => []
            | exts => ["Introduced by extension(s): " +:+ join ", " exts]
            end) in
      Some
        (["/**"]
         ++ (if truthy_opt brief_ then
               if negb (endswith (text_or_empty brief_) ".")
               then [" * \brief " +:+ text_or_empty brief_ +:+ "."]
               else [" * \brief " +:+ text_or_empty brief_]
             else [])
         ++ param_lines reg_params_by_name pdesc ∅ params_list
         ++ (if truthy ret && negb (String.eqb (strip ret) "void")
             then [" * \return (" +:+ ret +:+ ")"] else [])
         ++ [" * \see " +:+ make_refpage_url (folder_tag refs) gl_name]
         ++ (match note_parts with
             | [] => []
             | _ => [" * \note " +:+ join " | " note_parts]
             end)
         ++ [" */"])
  end.

Definition build_doc (reg : GLRegistry) (refs : RefPages) (gl_name : string)
    : option string :=
  join LF <$> build_doc_lines reg refs gl_name.

(** ** The rewriter *)

(** [lines[j]]; the rewriter reads only below [len(lines)]. *)
Definition line_at (lines : list string) (j : nat) : string :=
  default "" (lines !! j).

Definition is_blank (l : string) : bool := String.eqb (strip l) "".

(** The test that lets the upward scan pass a line that is not blank. *)
Definition comment_body (l : string) : bool :=
  contains "*/" l || startswith (lstrip l) "*" || startswith (lstrip l) "/*".

(** [while j >= 0 and lines[j].strip() == "": j -= 1], entered with
    [j = n - 1]; [None] stands for [j < 0]. *)
Fixpoint skip_blank_up (lines : list string) (n : nat) : option nat :=
  match n with
  | O => None
  | S j => if is_blank (line_at lines j) then skip_blank_up lines j else Some j
  end.

(** [while k >= 0: ...], entered with [k = n - 1]. *)
Fixpoint scan_up (lines : list string) (n end_ : nat) : option (nat * nat) :=
  match n with
  | O => None
  | S k =>
      let l := line_at lines k in
      if contains "/**" l then Some (k, end_)
      else if is_blank l then scan_up lines k end_
      else if comment_body l then scan_up lines k end_
      else None
  end.

Definition find_docblock_above (lines : list string) (idx_define : nat)
    : option (nat * nat) :=
  match skip_blank_up lines idx_define with
  | None => None
  | Some j =>
      let l := line_at lines j in
      if negb (contains "*/" l) then
        if startswith (lstrip l) "/**" && contains "*/" l then Some (j, j)
        else None
      else scan_up lines (S j) j
  end.

(** [for t in range(a, b + 1): skip.add(t)] *)
Definition add_range (a b : nat) (skip : gset nat) : gset nat :=
  foldl (λ skip t, {[t]} ∪ skip) skip (seq a (b + 1 - a)).

(** The pre-scan, at index [i] with [rest] the lines from [i] on. *)
Fixpoint prescan_loop (src_lines : list string) (i : nat) (rest : list string)
    (skip : gset nat) : gset nat :=
  match rest with
  | [] => skip
  | line :: rest' =>
      let skip :=
        match DEFINE_RE_match line with
        | Some _ =>
            match find_docblock_above src_lines i with
            | Some (a, b) => add_range a b skip
            | None => skip
            end
        | None => skip
        end in
      prescan_loop src_lines (S i) rest' skip
  end.

Definition prescan (src_lines : list string) : gset nat :=
  prescan_loop src_lines 0 src_lines ∅.

(** What the main pass appends for a line that is not skipped. *)
Definition emit (reg : GLRegistry) (refs : RefPages) (line : string)
    : list string :=
  match DEFINE_RE_match line with
  | Some (gl_name, _) =>
      let doc := build_doc reg refs gl_name in
      (if truthy_opt doc then [text_or_empty doc] else []) ++ [line]
  | None => [line]
  end.

(** The main pass, at index [i] with [rest] the lines from [i] on. *)
Fixpoint main_loop (reg : GLRegistry) (refs : RefPages) (skip : gset nat)
    (i : nat) (rest : list string) : list string :=
  match rest with
  | [] => []
  | line :: rest' =>
      if bool_decide (i ∈ skip) then main_loop reg refs skip (S i) rest'
      else emit reg refs line ++ main_loop reg refs skip (S i) rest'
  end.

(** [out_lines] of [process] for the lines read. *)
Definition process_lines (reg : GLRegistry) (refs : RefPages)
    (src_lines : list string) : list string :=
  main_loop reg refs (prescan src_lines) 0 src_lines.

(** [process]: from the text of the input file to the text written. *)
Definition process (reg : GLRegistry) (refs : RefPages) (input : string)
    : string :=
  join LF (process_lines reg refs (splitlines input)) +:+ LF.

(** ** Predicates of the statements *)

(** [r] does not continue a run of [p]-characters. *)
Definition starts_outside (p : ascii → bool) (r : string) : Prop :=
  match r with
  | "" => True
  | String c _ => p c = false
  end.

(** The shape of a line that [DEFINE_RE] matches. *)
Definition macro_shape (ws0 ws1 ws2 id1 ws3 id2 ws4 : string) : string :=
  ws0 +:+ "#" +:+ ws1 +:+ "define" +:+ ws2 +:+ "gl" +:+ id1 +:+ ws3
  +:+ "glad_gl" +:+ id2 +:+ ws4.

(** The lines that the pre-scan leaves in place, in their order. *)
Definition surviving (skip : gset nat) (lines : list string) : list string :=
  (filter (λ il, il.1 ∉ skip) (imap (λ i l, (i, l)) lines)).*2.

(** A passable line of the upward scan: blank or comment-like, and
    without the opening marker. *)
Definition passable (l : string) : bool :=
  negb (contains "/**" l) && (is_blank l || comment_body l).

(** The block found above a macro line at [idx]: [b] is the nearest line
    above that is not blank and it holds the end marker; [a] is the
    nearest line at or above [b] with the opening marker, every line in
    between being passable. *)
Definition block_above (lines : list string) (idx a b : nat) : Prop :=
  a ≤ b ∧ b < idx ∧
  (∀ t, b < t → t < idx → is_blank (line_at lines t) = true) ∧
  is_blank (line_at lines b) = false ∧
  contains "*/" (line_at lines b) = true ∧
  contains "/**" (line_at lines a) = true ∧
  (∀ t, a < t → t ≤ b → passable (line_at lines t) = true).

(** The characters of a line that [DEFINE_RE] matches. *)
Definition macro_char (c : ascii) : bool :=
  is_space c || is_ident c || Ascii.eqb c "#".

Definition not_star (c : ascii) : bool := negb (Ascii.eqb c "*").

(** [number] once for a [require/command] entry that names [nm]. *)
Definition command_versions (number nm : string) (c : Element) : list string :=
  if truthy_opt (get c "name") && String.eqb (text_or_empty (get c "name")) nm
  then [number] else [].

(** Modelled from the spec: the version numbers under which the feature
    blocks of the registry, of whatever api, require the command [nm], in
    document order, one for each requirement. *)
Definition all_feature_versions_of (nm : string) (feat : Element) : list string :=
  let number := text_or_empty (or_else (get feat "number") (Some "")) in
  flat_map (λ req, flat_map (command_versions number nm) (findall req "command"))
           (findall feat "require").

Definition all_feature_versions (root : Element) (nm : string) : list string :=
  flat_map (all_feature_versions_of nm) (findall root "feature").

(** The feature blocks that [_parse_features] reads: those with the api
    "gl" and a number that is not empty. *)
Definition counted (feat : Element) : bool :=
  bool_decide (get feat "api" = Some "gl") && truthy_opt (get feat "number").

(** The version numbers under which the counted feature blocks require
    the command [nm], in document order, one for each requirement. *)
Definition feature_versions_of (nm : string) (feat : Element) : list string :=
  if bool_decide (get feat "api" = Some "gl") then
    let number := text_or_empty (or_else (get feat "number") (Some "")) in
    if truthy number then
      flat_map (λ req, flat_map (command_versions number nm) (findall req "command"))
               (findall feat "require")
    else []
  else [].

Definition feature_versions (root : Element) (nm : string) : list string :=
  flat_map (feature_versions_of nm) (findall root "feature").

(** The version kept for one command when a further block numbered
    [number] requires it. *)
Definition retain (cur : option string) (number : string) : option string :=
  match cur with
  | None => Some number
  | Some c =>
      match version_tuple number, version_tuple c with
      | Some a, Some b => if tuple_lt a b then Some number else cur
      | _, _ => cur
      end
  end.

(** [t] is at most every parsed version of [vs]. *)
Definition lowest_of (t : list Z) (vs : list string) : Prop :=
  ∀ w tw, w ∈ vs → version_tuple w = Some tw → tuple_lt tw t = false.

(** The lines of the block that the main pass puts before [l], and the
    lines that [l] contributes to the file written. *)
Definition block_lines (reg : GLRegistry) (refs : RefPages) (l : string)
    : list string :=
  match DEFINE_RE_match l with
  | Some (gl_name, _) => default [] (build_doc_lines reg refs gl_name)
  | None => []
  end.

Definition expand (reg : GLRegistry) (refs : RefPages) (l : string)
    : list string :=
  block_lines reg refs l ++ [l].

Definition no_linebreak (l : string) : bool :=
  all_chars (λ c, negb (is_linebreak c)) l.

(** A block that the next run finds again as it is: no line of it holds a
    line boundary, and only its first line holds the opening marker. *)
Definition clean_block (ls : list string) : bool :=
  forallb no_linebreak ls && forallb (λ l, negb (contains "/**" l)) (drop 1 ls).

(** Every macro line among [lines] gets a block, and a clean one. *)
Definition docs_clean (reg : GLRegistry) (refs : RefPages)
    (lines : list string) : bool :=
  forallb (λ l, match DEFINE_RE_match l with
                | Some (gl_name, _) =>
                    match build_doc_lines reg refs gl_name with
                    | Some ls => clean_block ls
                    | None => false
                    end
                | None => true
                end) lines.

(** The shape of a clean block as the upward scan reads it. *)
Definition block_ok (ds : list string) : Prop :=
  ∃ mid, ds = "/**" :: mid ++ [" */"] ∧
         Forall (λ l, passable l = true) (mid ++ [" */"]) ∧
         Forall (λ l, DEFINE_RE_match l = None) ds ∧
         Forall (λ l, no_linebreak l = true) ds.

(** A surviving line together with what stands above it. *)
Definition chunk_ok (reg : GLRegistry) (refs : RefPages) (l : string) : Prop :=
  no_linebreak l = true ∧
  ((DEFINE_RE_match l = None ∧ block_lines reg refs l = []) ∨
   (is_Some (DEFINE_RE_match l) ∧ block_ok (block_lines reg refs l))).

(** [sep] and the joined rest, when there is a rest. *)
Definition join_tail (sep : string) (xs : list string) : string :=
  match xs with
  | [] => ""
  | _ => sep +:+ join sep xs
  end.

(** ** Concrete inputs used by the examples *)

(** A registry that holds only alias pointers. *)
Definition alias_registry (al : gmap string string) : GLRegistry :=
  mkRegistry ∅ al ∅ ∅.

Definition two_cycle : gmap string string :=
  {[ "glA" := "glB"; "glB" := "glA" ]}.

Definition el (t : string) (a : list (string * string)) (x : option string)
    (cs : list Element) : Element :=
  mkElement t a x cs None.

(** A registry document: [void glFoo(GLint x)], required by the feature
    blocks 4.0, 3.3 and 10.0, and an alias glFooEXT of it. *)
Definition registry_xml : Element :=
  el "registry" [] None [
    el "commands" [] None [
      el "command" [] None [
        el "proto" [] (Some "void ") [el "name" [] (Some "glFoo") []];
        el "param" [] (Some "GLint ") [el "name" [] (Some "x") []] ];
      el "command" [("alias", "glFoo")] None [
        el "proto" [] (Some "void ") [el "name" [] (Some "glFooEXT") []] ] ];
    el "feature" [("api", "gl"); ("number", "4.0")] None [
      el "require" [] None [ el "command" [("name", "glFoo")] None [] ] ];
    el "feature" [("api", "gl"); ("number", "3.3")] None [
      el "require" [] None [ el "command" [("name", "glFoo")] None [] ] ];
    el "feature" [("api", "gl"); ("number", "10.0")] None [
      el "require" [] None [ el "command" [("name", "glFoo")] None [] ] ]
  ].

Definition registry0 : GLRegistry := load_registry registry_xml.

(** No reference pages at all. *)
Definition no_refs : RefPages := mkRefPages "gl4" ∅.

(** A reference page whose prototype of glBare gives no return type. *)
Definition bare_page : Element :=
  el "refentry" [] None [
    el "funcprototype" [] None [
      el "funcdef" [] None [ el "function" [] (Some "glBare") [] ] ] ].

Definition bare_refs : RefPages := mkRefPages "gl4" {[ "glBare" := bare_page ]}.

(** A header with an old block, a blank line, a macro line and a
    declaration. *)
Definition sample_lines : list string :=
  ["/** old */"; ""; "#define glFoo glad_glFoo"; "int x;"].

(** A reference page: the parameters section describes [first] and
    [count] in one entry, and [extra] holds one more entry. *)
Definition varlistentry (names : list string) (desc : string) : Element :=
  el "varlistentry" [] None
    (map (λ n, el "term" [] None [el "parameter" [] (Some n) []]) names
     ++ [el "listitem" [] None [el "para" [] (Some desc) []]]).






(** A registry in which glFoo is required by two feature blocks. *)
Definition two_blocks (first second : string) : Element :=
  el "registry" [] None [
    el "feature" [("api", "gl"); ("number", first)] None [
      el "require" [] None [ el "command" [("name", "glFoo")] None [] ] ];
    el "feature" [("api", "gl"); ("number", second)] None [
      el "require" [] None [ el "command" [("name", "glFoo")] None [] ] ]
  ].

(** A registry in which glFoo is required by a block of the api gles2
    numbered 1.0 and by a block of the api gl numbered 3.3. *)
Definition mixed_api_xml : Element :=
  el "registry" [] None [
    el "feature" [("api", "gles2"); ("number", "1.0")] None [
      el "require" [] None [ el "command" [("name", "glFoo")] None [] ] ];
    el "feature" [("api", "gl"); ("number", "3.3")] None [
      el "require" [] None [ el "command" [("name", "glFoo")] None [] ] ]
  ].

(** A text of [n] digits. *)
Fixpoint ones (n : nat) : string :=
  match n with
  | O => ""
  | S n' => String "1" (ones n')
  end.

(** An old block followed by a comment line without end marker, and a
    block whose body line carries no leading star. *)
Definition stray_lines : list string :=
  ["/** old */"; " * stray"; "#define glFoo glad_glFoo"].

Definition unstarred_lines : list string :=
  ["/**"; "   old text"; " */"; "#define glFoo glad_glFoo"].

(** Header texts: a declaration and a known macro; two stacked comments
    above a macro unknown to the registry and the reference pages. *)
Definition header_text : string :=
  "int x;" +:+ LF +:+ "#define glFoo glad_glFoo" +:+ LF.

Definition stacked_text : string :=
  "/** a */" +:+ LF +:+ "/** b */" +:+ LF +:+ "#define glBar glad_glBar" +:+ LF.

(** A registry whose feature block carries the number "/**". *)
Definition odd_registry : GLRegistry :=
  mkRegistry {[ "glFoo" := mkCommand "void" [] None ]} ∅
             {[ "glFoo" := "/**" ]} ∅.

(** The registry of the end-to-end example: [void glFoo(GLint x)],
    without alias, required by the feature block 4.0. *)
Definition example_registry_xml : Element :=
  el "registry" [] None [
    el "commands" [] None [
      el "command" [] None [
        el "proto" [] (Some "void ") [el "name" [] (Some "glFoo") []];
        el "param" [] (Some "GLint ") [el "name" [] (Some "x") []] ] ];
    el "feature" [("api", "gl"); ("number", "4.0")] None [
      el "require" [] None [ el "command" [("name", "glFoo")] None [] ] ]
  ].

(** A header with a comment, a macro line for the unknown name glBar, a
    declaration and a macro line for glFoo. *)
Definition mixed_text : string :=
  "/* c */" +:+ LF +:+ "int y;" +:+ LF +:+ "#define glBar glad_glBar" +:+ LF
  +:+ "int x;" +:+ LF +:+ "#define glFoo glad_glFoo" +:+ LF.

(** ** Further predicates *)

(** A word of [str.split]: not empty and free of white space. *)
Definition is_token (w : string) : Prop :=
  w ≠ "" ∧ all_chars (λ c, negb (is_space c)) w = true.

(** The only white space of [s] is the space character. *)
Definition only_spaces (s : string) : bool :=
  all_chars (λ c, negb (is_space c) || Ascii.eqb c " ") s.

(** [seen], newest first, is a run of alias pointers that ends at [cur]:
    each name points at the one added after it, the newest at [cur]. *)
Fixpoint alias_chain (al : gmap string string) (seen : list string)
    (cur : string) : Prop :=
  match seen with
  | [] => True
  | x :: seen' => al !! x = Some cur ∧ alias_chain al seen' x
  end.

(** [p], oldest first, is the run of alias pointers from [cur] to [t]. *)
Fixpoint alias_path (al : gmap string string) (cur : string)
    (p : list string) (t : string) : Prop :=
  match p with
  | [] => cur = t
  | x :: p' => x = cur ∧ ∃ nxt, al !! cur = Some nxt ∧ alias_path al nxt p' t
  end.

(** A chain of aliases glC -> glB -> glA that ends at a command, and a
    separate cycle glX -> glY -> glX. *)
Definition alias_table : gmap string string :=
  {[ "glC" := "glB"; "glB" := "glA"; "glX" := "glY"; "glY" := "glX" ]}.

Definition alias_table_registry : GLRegistry :=
  mkRegistry {[ "glA" := mkCommand "void" [] None ]} alias_table ∅ ∅.

(** Adjacent elements are in the order of [str_le]. *)
Fixpoint is_sorted (l : list string) : bool :=
  match l with
  | a :: (b :: _) as rest => str_le a b && is_sorted rest
  | _ => true
  end.

(** The extension names under which the registry requires the command
    [nm], in document order, one for each requirement. *)
Definition command_exts (ext_name nm : string) (c : Element) : list string :=
  if truthy_opt (get c "name") && String.eqb (text_or_empty (get c "name")) nm
  then [ext_name] else [].

Definition extension_names_of (nm : string) (ext : Element) : list string :=
  if truthy_opt (get ext "name") then
    flat_map (λ req, flat_map (command_exts (text_or_empty (get ext "name")) nm)
                              (findall req "command"))
             (findall ext "require")
  else [].

Definition extension_names (root : Element) (nm : string) : list string :=
  flat_map (extension_names_of nm)
    (flat_map (λ es, findall es "extension") (findall root "extensions")).

(** One more extension for a command. *)
Definition add_ext (cur : option (gset string)) (ext_name : string)
    : option (gset string) :=
  Some ({[ext_name]} ∪ default ∅ cur).

(** A registry document with two extensions; the second requires glFoo
    and its alias glFooEXT, the first only glFoo. *)
Definition extensions_xml : Element :=
  el "registry" [] None [
    el "commands" [] None [
      el "command" [] None [
        el "proto" [] (Some "void ") [el "name" [] (Some "glFoo") []] ];
      el "command" [("alias", "glFoo")] None [
        el "proto" [] (Some "void ") [el "name" [] (Some "glFooEXT") []] ] ];
    el "extensions" [] None [
      el "extension" [("name", "GL_EXT_foo")] None [
        el "require" [] None [ el "command" [("name", "glFoo")] None [] ] ];
      el "extension" [("name", "GL_ARB_foo")] None [
        el "require" [] None [ el "command" [("name", "glFooEXT")] None [];
                               el "command" [("name", "glFoo")] None [] ] ] ]
  ].

(** What loading guarantees of a stored parameter and a stored command:
    a name that is not empty, and type texts that [norm_ws] leaves as they
    are. *)
Definition param_ok (p : Param) : Prop :=
  p_name p ≠ "" ∧ norm_ws (p_type p) = p_type p.

Definition command_ok (name : string) (c : Command) : Prop :=
  name ≠ "" ∧ norm_ws (c_ret c) = c_ret c ∧ Forall param_ok (c_params c).

Definition commands_ok (st : gmap string Command * gmap string string) : Prop :=
  (∀ name c, st.1 !! name = Some c → command_ok name c) ∧
  (∀ name a, st.2 !! name = Some a → a ≠ "" ∧ is_Some (st.1 !! name)).

(** What [c_signature] guarantees of a parameter pair. *)
Definition paramdef_ok (p : string * string) : Prop :=
  p.2 ≠ "" ∧ strip p.2 = p.2 ∧ norm_ws p.1 = p.1.

(** A reference page with a prototype of glDraw, and a registry document
    in which a command is listed twice, first with an alias. *)
Definition draw_page : Element :=
  el "refentry" [] None [
    el "refnamediv" [] None [
      el "refpurpose" [] (Some "  render   primitives ") [] ];
    el "funcprototype" [] None [
      el "funcdef" [] (Some "void ") [ el "function" [] (Some "glDraw") [] ];
      el "paramdef" [] (Some "GLint ") [ el "parameter" [] (Some " first ") [] ];
      el "paramdef" [] (Some "void") [] ] ].

Definition draw_refs : RefPages := mkRefPages "gl4" {[ "glDraw" := draw_page ]}.

Definition twice_xml : Element :=
  el "registry" [] None [
    el "commands" [] None [
      el "command" [("alias", "glFoo")] None [
        el "proto" [] (Some "void ") [el "name" [] (Some "glBar") []] ];
      el "command" [] None [
        el "proto" [] (Some "GLint  ") [el "name" [] (Some "glBar") []];
        el "param" [("len", "n")] (Some "const  GLfloat *")
          [el "name" [] (Some "v") []] ] ]
  ].

(** What [param_descriptions] guarantees of an entry of its mapping. *)
Definition description_ok (nm d : string) : Prop :=
  d ≠ "" ∧ norm_ws d = d ∧ strip nm = nm.

(** The pairs of [ps] whose name occurs for the first time, in order. *)
Fixpoint first_occurrences (ps : list (string * string))
    : list (string * string) :=
  match ps with
  | [] => []
  | p :: rest => p :: filter (λ q, q.2 ≠ p.2) (first_occurrences rest)
  end.

(** The line of one parameter as [build_doc] writes it. *)
Definition param_line (rp : gmap string Param) (pd : gmap string string)
    (p : string * string) : string :=
  make_param_line_with_desc p.2 p.1 (pd !! p.2)
    (make_param_trailer_from_reg (rp !! p.2)).

(** A reference page whose parameters section has an entry with an empty
    description. *)
Definition sparse_page : Element :=
  el "refentry" [] None [
    el "refsect1" [] None [
      el "title" [] (Some " PARAMETERS ") [];
      el "variablelist" [] None [
        varlistentry [" x "] "  the   abscissa ";
        varlistentry ["y"] "   " ] ] ].

Definition sparse_refs : RefPages := mkRefPages "gl4" {[ "glPoint" := sparse_page ]}.

(** Reference pages where the page of the alias glFooEXT has a blank
    purpose text and the page of glFoo has a proper one. *)
Definition blank_purpose_page : Element :=
  el "refentry" [] None [
    el "refnamediv" [] None [ el "refpurpose" [] (Some "   ") [] ] ].

Definition blank_purpose_refs : RefPages :=
  mkRefPages "gl4" {[ "glFooEXT" := blank_purpose_page; "glFoo" := draw_page ]}.

(** ** The block, piece by piece *)

(** Modelled from the spec: the brief description for the literal name,
    and for the canonical name if that is absent. *)
Definition settled_brief (reg : GLRegistry) (refs : RefPages) (name : string)
    : option string :=
  match brief refs name with
  | Some b => Some b
  | None => brief refs (resolve_alias reg name)
  end.

(** Modelled from the spec: the C signature of the reference store for the
    literal name, for the canonical name if that is absent, and the (type,
    name) pairs of the registry's signature for the canonical name if the
    reference store has none. *)
Definition settled_signature (reg : GLRegistry) (refs : RefPages) (name : string)
    : option (string * list (string * string)) :=
  match c_signature refs name with
  | Some s => Some s
  | None =>
      match c_signature refs (resolve_alias reg name) with
      | Some s => Some s
      | None =>
          (λ sig : string * list Param,
             (sig.1, map (λ p, (p_type p, p_name p)) sig.2))
            <$> signature reg (resolve_alias reg name)
      end
  end.

(** Modelled from the spec: the parameter descriptions for the literal
    name, and for the canonical name if there are none. *)
Definition settled_descriptions (reg : GLRegistry) (refs : RefPages)
    (name : string) : gmap string string :=
  if bool_decide (param_descriptions refs name = ∅)
  then param_descriptions refs (resolve_alias reg name)
  else param_descriptions refs name.

(** Modelled from the spec: the parameters of the registry's signature
    for the canonical name, by name; a later parameter of the same name
    replaces an earlier one. *)
Definition registry_params (reg : GLRegistry) (name : string) : gmap string Param :=
  match signature reg (resolve_alias reg name) with
  | Some (_, params) => foldl (λ m rp, <[p_name rp := rp]> m) ∅ params
  | None => ∅
  end.

(** Modelled from the spec: the brief line, with a period appended if the
    text lacks one; no line without a text. *)
Definition brief_lines (b : option string) : list string :=
  match b with
  | Some b =>
      if truthy b then
        if endswith b "." then [" * \brief " +:+ b]
        else [" * \brief " +:+ b +:+ "."]
      else []
  | None => []
  end.

(** The return line: none for an empty return type and none for a return
    type that is "void" once stripped. *)
Definition return_lines (ret : string) : list string :=
  if truthy ret && negb (String.eqb (strip ret) "void")
  then [" * \return (" +:+ ret +:+ ")"] else [].

(** Modelled from the spec: the provenance note, of the version, of the
    extensions, of both, or no line if there is neither. *)
Definition note_lines (ve : option string * list string) : list string :=
  let parts :=
    match ve.1 with
    | Some v => if truthy v then ["Introduced in OpenGL " +:+ v] else []
    | None => []
    end
    ++ match ve.2 with
       | [] => []
       | exts => ["Introduced by extension(s): " +:+ join ", " exts]
       end in
  match parts with
  | [] => []
  | _ => [" * \note " +:+ join " | " parts]
  end.

(** Modelled from the spec: the lines of the block for [name] with the
    signature [sig], in their fixed order. *)
Definition doc_block (reg : GLRegistry) (refs : RefPages) (name : string)
    (sig : string * list (string * string)) : list string :=
  ["/**"]
  ++ brief_lines (settled_brief reg refs name)
  ++ map (param_line (registry_params reg name) (settled_descriptions reg refs name))
         (first_occurrences sig.2)
  ++ return_lines sig.1
  ++ [" * \see " +:+ make_refpage_url (folder_tag refs) name]
  ++ note_lines (version_or_exts reg name)
  ++ [" */"].

(** ** The second run *)

(** Every block that [build_doc] gives for a macro line among [lines] is
    clean; a macro line may be without block. *)
Definition blocks_clean (reg : GLRegistry) (refs : RefPages)
    (lines : list string) : bool :=
  forallb (λ l, match DEFINE_RE_match l with
                | Some (gl_name, _) =>
                    match build_doc_lines reg refs gl_name with
                    | Some ls => clean_block ls
                    | None => true
                    end
                | None => true
                end) lines.

(** No comment block is found above a macro line of [lines] for which
    [build_doc] returns nothing. *)
Definition bare_macros_clear (reg : GLRegistry) (refs : RefPages)
    (lines : list string) : bool :=
  forallb (λ il, match DEFINE_RE_match il.2 with
                 | Some (gl_name, _) =>
                     match build_doc_lines reg refs gl_name with
                     | Some _ => true
                     | None =>
                         match find_docblock_above lines il.1 with
                         | None => true
                         | Some _ => false
                         end
                     end
                 | None => true
                 end) (imap (λ i l, (i, l)) lines).

(** The lines of [K] that a main pass with the marks [skip] leaves in
    place, when [K] stands with its blocks from position [pos] on. *)
Fixpoint rekept (reg : GLRegistry) (refs : RefPages) (skip : gset nat)
    (pos : nat) (K : list string) : list string :=
  match K with
  | [] => []
  | l :: K' =>
      let p := pos + length (block_lines reg refs l) in
      (if bool_decide (p ∈ skip) then [] else [l])
      ++ rekept reg refs skip (S p) K'
  end.

(** A surviving line whose block, if it has one, is clean. *)
Definition chunk_fine (reg : GLRegistry) (refs : RefPages) (l : string) : Prop :=
  no_linebreak l = true ∧
  (block_lines reg refs l = [] ∨ block_ok (block_lines reg refs l)).

(** ** Alias resolution *)

Section resolve.
Variable al : gmap string string.

Lemma seen_bounded (seen : list string) :
  NoDup seen → (∀ x, x ∈ seen → is_Some (al !! x)) → length seen ≤ size al.
Proof.
  intros Hnd Hin.
  rewrite <- (size_list_to_set (C := gset string) seen) by done.
  rewrite <- (size_dom (D := gset string) al).
  apply subseteq_size. intros x Hx.
  apply elem_of_list_to_set in Hx. apply elem_of_dom. auto.
Qed.

(** The loop never exhausts a fuel that covers the names not yet seen. *)
Lemma resolve_loop_total fuel : ∀ seen cur,
  NoDup seen → (∀ x, x ∈ seen → is_Some (al !! x)) →
  size al ≤ fuel + length seen →
  ∃ seen' r, resolve_loop al fuel seen cur = Some (seen', r).
Proof.
  induction fuel as [|fuel IH]; intros seen cur Hnd Hin Hsz; simpl.
  - destruct (al !! cur) as [nxt|] eqn:E; [|eauto].
    case_bool_decide as Hc; [eauto|]. exfalso.
    assert (length (cur :: seen) ≤ size al) as Hb.
    { apply seen_bounded; [by constructor|].
      intros x [->|Hx]%elem_of_cons; eauto. }
    simpl in *. lia.
  - destruct (al !! cur) as [nxt|] eqn:E; [|eauto].
    case_bool_decide as Hc; [eauto|].
    apply IH.
    + by constructor.
    + intros x [->|Hx]%elem_of_cons; eauto.
    + simpl. lia.
Qed.

(** What the loop returns is reached from [cur] along alias pointers,
    and every name added to [seen] points, one step on, at the next
    name added or at the result. *)
Lemma resolve_loop_reach fuel : ∀ seen cur seen' r,
  resolve_loop al fuel seen cur = Some (seen', r) →
  rtc (alias_step al) cur r.
Proof.
  induction fuel as [|fuel IH]; intros seen cur seen' r; simpl.
  - destruct (al !! cur) as [nxt|] eqn:E.
    + case_bool_decide; [|done]. intros [= <- <-]. done.
    + intros [= <- <-]. done.
  - destruct (al !! cur) as [nxt|] eqn:E.
    + case_bool_decide.
      * intros [= <- <-]. done.
      * intros Hr%IH. by eapply rtc_l.
    + intros [= <- <-]. done.
Qed.

(** The loop ends at a name without alias, or at a name seen before. *)
Lemma resolve_loop_exit fuel : ∀ seen cur seen' r,
  resolve_loop al fuel seen cur = Some (seen', r) →
  al !! r = None ∨ r ∈ seen'.
Proof.
  induction fuel as [|fuel IH]; intros seen cur seen' r; simpl.
  - destruct (al !! cur) as [nxt|] eqn:E.
    + case_bool_decide; [|done]. intros [= <- <-]. auto.
    + intros [= <- <-]. auto.
  - destruct (al !! cur) as [nxt|] eqn:E.
    + case_bool_decide.
      * intros [= <- <-]. auto.
      * apply IH.
    + intros [= <- <-]. auto.
Qed.

Lemma resolve_loop_last fuel : ∀ seen cur seen' r,
  resolve_loop al fuel seen cur = Some (seen', r) →
  last_points al seen cur → last_points al seen' r.
Proof.
  induction fuel as [|fuel IH]; intros seen cur seen' r; simpl.
  - destruct (al !! cur) as [nxt|] eqn:E.
    + case_bool_decide; [|done]. by intros [= <- <-].
    + by intros [= <- <-].
  - destruct (al !! cur) as [nxt|] eqn:E.
    + case_bool_decide.
      * by intros [= <- <-].
      * intros Hl _. by eapply IH.
    + by intros [= <- <-].
Qed.

(** Alias pointers are functional, so a chain that reaches a name
    without alias passes through every name reachable from its start,
    and none of them lies on a cycle. *)
Lemma alias_chain_linear x y r :
  rtc (alias_step al) x y → rtc (alias_step al) x r → al !! r = None →
  rtc (alias_step al) y r.
Proof.
  intros Hxy. revert r. induction Hxy as [x|x z y Hxz Hzy IH]; intros r Hxr Hr.
  - done.
  - apply IH; [|done]. inversion Hxr as [|? z' ? Hxz' Hz'r]; subst.
    + unfold alias_step in Hxz. congruence.
    + unfold alias_step in *. by simplify_eq.
Qed.

Lemma no_cycle_before_end x r :
  rtc (alias_step al) x r → al !! r = None → ¬ tc (alias_step al) x x.
Proof.
  induction 1 as [x|x y r Hxy Hyr IH]; intros Hr Hc.
  - inversion Hc as [? ? Hs|? y ? Hs _]; subst;
      unfold alias_step in Hs; congruence.
  - apply IH; [done|].
    inversion Hc as [? ? Hs|? y' ? Hs Hy'x]; subst; unfold alias_step in *.
    + simplify_eq. by apply tc_once.
    + simplify_eq. eapply tc_r; [done|]. done.
Qed.

End resolve.

(** C3: for every alias mapping, cyclic or not, [resolve_alias] terminates
    (the loop ends within [size alias_of] iterations) and returns a name
    reachable from the input along alias pointers; a name without alias
    entry is returned unchanged. *)
Theorem resolve_alias_terminates (reg : GLRegistry) (name : string) :
  (∃ seen r,
      resolve_run (alias_of reg) name = Some (seen, r) ∧
      resolve_alias reg name = r ∧
      rtc (alias_step (alias_of reg)) name r) ∧
  (alias_of reg !! name = None → resolve_alias reg name = name).
Proof.
  split.
  - destruct (resolve_loop_total (alias_of reg) (size (alias_of reg)) [] name)
      as (seen & r & Hrun).
    + constructor.
    + intros x Hx. by apply elem_of_nil in Hx.
    + simpl. lia.
    + exists seen, r. unfold resolve_alias, resolve_run in *. rewrite Hrun.
      split_and!; [done..|]. by eapply resolve_loop_reach.
  - intros Hn. unfold resolve_alias, resolve_run.
    destruct (size (alias_of reg)); simpl; by rewrite Hn.
Qed.

Lemma resolve_alias_terminates_witness :
  alias_of (alias_registry two_cycle) !! "glC" = None ∧
  resolve_alias (alias_registry two_cycle) "glC" = "glC".
Proof.
  split; [reflexivity|].
  apply (resolve_alias_terminates (alias_registry two_cycle) "glC").
  reflexivity.
Defined.

(** C2 (as the code has it): when the alias chain of the input runs into a
    cycle, [resolve_alias] returns the first repeated name: a name already
    in the seen-set, the one that the last name added to the set points
    at. *)
Theorem resolve_alias_cycle (reg : GLRegistry) (name x : string) :
  rtc (alias_step (alias_of reg)) name x →
  tc (alias_step (alias_of reg)) x x →
  ∃ last rest,
    resolve_run (alias_of reg) name = Some (last :: rest, resolve_alias reg name) ∧
    alias_of reg !! last = Some (resolve_alias reg name) ∧
    resolve_alias reg name ∈ last :: rest.
Proof.
  intros Hreach Hcyc.
  destruct (resolve_loop_total (alias_of reg) (size (alias_of reg)) [] name)
    as (seen & r & Hrun).
  { constructor. } { intros y Hy. by apply elem_of_nil in Hy. } { simpl; lia. }
  assert (resolve_alias reg name = r) as ->.
  { unfold resolve_alias, resolve_run. by rewrite Hrun. }
  pose proof (resolve_loop_reach _ _ _ _ _ _ Hrun) as Hr.
  pose proof (resolve_loop_last _ _ _ _ _ _ Hrun I) as Hl.
  destruct (resolve_loop_exit _ _ _ _ _ _ Hrun) as [Hend|Hin].
  - exfalso. eapply no_cycle_before_end; [|exact Hend|exact Hcyc].
    by eapply alias_chain_linear.
  - destruct seen as [|last rest]; [by apply elem_of_nil in Hin|].
    exists last, rest. done.
Qed.

Lemma two_cycle_loops : tc (alias_step two_cycle) "glA" "glA".
Proof.
  apply tc_l with "glB"; [reflexivity|]. apply tc_once. reflexivity.
Qed.

Lemma resolve_alias_cycle_witness :
  ∃ last rest,
    resolve_run two_cycle "glA"
      = Some (last :: rest, resolve_alias (alias_registry two_cycle) "glA") ∧
    two_cycle !! last = Some (resolve_alias (alias_registry two_cycle) "glA") ∧
    resolve_alias (alias_registry two_cycle) "glA" ∈ last :: rest.
Proof.
  apply (resolve_alias_cycle (alias_registry two_cycle) "glA" "glA").
  - apply rtc_refl.
  - apply tc_l with "glB"; [reflexivity|]. apply tc_once. reflexivity.
Defined.

(** C2 as stated fails: on the cycle glA -> glB -> glA the last name added
    to the seen-set is glB, and [resolve_alias] returns glA. *)
Lemma resolve_alias_returns_not_last_added :
  tc (alias_step two_cycle) "glA" "glA" ∧
  resolve_run two_cycle "glA" = Some (["glB"; "glA"], "glA") ∧
  resolve_alias (alias_registry two_cycle) "glA" = "glA" ∧
  resolve_alias (alias_registry two_cycle) "glA" ≠ "glB".
Proof.
  split; [exact two_cycle_loops|]. by vm_compute.
Qed.

(** ** The docblock synthesizer *)

Lemma doc_signature_None reg refs name :
  doc_signature reg refs name = None ↔
  c_signature refs name = None ∧
  c_signature refs (resolve_alias reg name) = None ∧
  signature reg (resolve_alias reg name) = None.
Proof.
  unfold doc_signature, signature_canonical.
  destruct (c_signature refs name) as [s|] eqn:Es.
  - split; [done|]. intros (? & _); done.
  - destruct (String.eqb (resolve_alias reg name) name) eqn:Ec; simpl.
    + apply String.eqb_eq in Ec. rewrite Ec, Es.
      destruct (signature reg name) as [[ret ps]|]; intuition discriminate.
    + destruct (c_signature refs (resolve_alias reg name)) as [s|].
      * split; [done|]. intros (_ & ? & _); done.
      * destruct (signature reg (resolve_alias reg name)) as [[ret ps]|];
          intuition discriminate.
Qed.

Lemma build_doc_lines_Some reg refs name :
  is_Some (build_doc_lines reg refs name) ↔ is_Some (doc_signature reg refs name).
Proof.
  unfold build_doc_lines.
  destruct (doc_signature reg refs name) as [[ret ps]|]; split;
    intros [x Hx]; try done; eauto.
Qed.

(** The first line of a block is the opening marker. *)
Lemma build_doc_lines_head reg refs name ls :
  build_doc_lines reg refs name = Some ls → ∃ rest, ls = "/**" :: rest.
Proof.
  unfold build_doc_lines.
  destruct (doc_signature reg refs name) as [[ret ps]|]; [|done].
  intros [= <-]. eauto.
Qed.

Lemma build_doc_truthy reg refs name d :
  build_doc reg refs name = Some d → truthy d = true.
Proof.
  unfold build_doc. destruct (build_doc_lines reg refs name) as [ls|] eqn:E; [|done].
  apply build_doc_lines_head in E as [rest ->]. intros [= <-].
  unfold truthy, join. by destruct rest.
Qed.

(** A line of the block is a [\return] line when it starts as one. *)
Lemma param_lines_no_return rp pd : ∀ ps seen_p,
  existsb (λ l, startswith l " * \return") (param_lines rp pd seen_p ps) = false.
Proof.
  induction ps as [|[ptype pname] ps IH]; intros seen_p; simpl; [done|].
  case_bool_decide; [apply IH|]. simpl. rewrite IH.
  unfold make_param_line_with_desc. by destruct (truthy_opt _).
Qed.

(** C4 (as the code has it): the block has a [\return] line exactly when
    the return type is not empty and, stripped of surrounding white space,
    differs from "void"; the line then reads [ * \return (<type>)]. A
    return type "void" gives no such line, and neither does an empty one. *)
Theorem return_line_iff (reg : GLRegistry) (refs : RefPages) (name ret : string)
    (params : list (string * string)) :
  doc_signature reg refs name = Some (ret, params) →
  ∃ ls, build_doc_lines reg refs name = Some ls ∧
    (existsb (λ l, startswith l " * \return") ls = true ↔
       ret ≠ "" ∧ strip ret ≠ "void") ∧
    (ret ≠ "" → strip ret ≠ "void" → " * \return (" +:+ ret +:+ ")" ∈ ls) ∧
    (ret = "void" → existsb (λ l, startswith l " * \return") ls = false).
Proof.
  intros Hsig. unfold build_doc_lines. rewrite Hsig.
  eexists. split; [done|].
  assert (truthy ret && negb (String.eqb (strip ret) "void") = true
          ↔ ret ≠ "" ∧ strip ret ≠ "void") as Hcond.
  { unfold truthy. rewrite andb_true_iff, !negb_true_iff, !String.eqb_neq. done. }
  split_and!.
  - rewrite <- Hcond.
    rewrite !existsb_app, param_lines_no_return. simpl.
    destruct (truthy ret && negb (String.eqb (strip ret) "void")); simpl;
      repeat match goal with
             | |- context [if ?b then _ else _] => destruct b; simpl
             | |- context [match ?l with [] => _ | _ :: _ => _ end] =>
                 destruct l; simpl
             end; rewrite ?orb_true_r; split; done.
  - intros H1 H2. assert (Hc := proj2 Hcond (conj H1 H2)). rewrite Hc.
    rewrite !elem_of_app. right. right. right. left. apply list_elem_of_singleton. done.
  - intros ->. rewrite !existsb_app, param_lines_no_return. simpl.
    repeat match goal with
           | |- context [if ?b then _ else _] => destruct b; simpl
           | |- context [match ?l with [] => _ | _ :: _ => _ end] =>
               destruct l; simpl
           end; done.
Qed.

Lemma return_line_iff_witness :
  ∃ ls, build_doc_lines registry0 no_refs "glFoo" = Some ls ∧
    (existsb (λ l, startswith l " * \return") ls = true ↔
       "void" ≠ "" ∧ strip "void" ≠ "void") ∧
    ("void" ≠ "" → strip "void" ≠ "void" → " * \return (" +:+ "void" +:+ ")" ∈ ls) ∧
    ("void" = "void" → existsb (λ l, startswith l " * \return") ls = false).
Proof.
  apply (return_line_iff registry0 no_refs "glFoo" "void" [("GLint", "x")]).
  by vm_compute.
Defined.

(** C4 as stated fails: the prototype of glBare gives the empty return
    type, which is not "void", and the block has no [\return] line. *)
Lemma empty_return_type_no_return_line :
  doc_signature registry0 bare_refs "glBare" = Some ("", []) ∧
  build_doc_lines registry0 bare_refs "glBare"
    = Some ["/**";
            " * \see https://registry.khronos.org/OpenGL-Refpages/gl4/html/glBare.xhtml";
            " */"] ∧
  "" ≠ "void".
Proof. by vm_compute. Qed.

(** ** The macro pattern *)

Lemma span_app p a c r :
  all_chars p a = true → p c = false → span p (a +:+ String c r) = (a, String c r).
Proof.
  induction a as [|x a IH]; simpl; intros Ha Hc.
  - by rewrite Hc.
  - apply andb_true_iff in Ha as [Hx Ha]. by rewrite Hx, IH.
Qed.

Lemma span_all p a : all_chars p a = true → span p a = (a, "").
Proof.
  induction a as [|x a IH]; simpl; [done|].
  intros [Hx Ha]%andb_true_iff. by rewrite Hx, IH.
Qed.

Lemma append_assoc (a b c : string) : (a +:+ b) +:+ c = a +:+ b +:+ c.
Proof. induction a as [|x a IH]; simpl; [done|]. by rewrite IH. Qed.

Lemma append_nil_r (a : string) : a +:+ "" = a.
Proof. induction a as [|x a IH]; simpl; [done|]. by rewrite IH. Qed.

Lemma append_cons (c : ascii) (a b : string) :
  String c a +:+ b = String c (a +:+ b).
Proof. done. Qed.

Lemma lstrip_spaces ws s :
  all_chars is_space ws = true → lstrip (ws +:+ s) = lstrip s.
Proof.
  induction ws as [|x ws IH]; simpl; [done|].
  intros [Hx Hws]%andb_true_iff. rewrite Hx. auto.
Qed.

Lemma lstrip_outside s : starts_outside is_space s → lstrip s = s.
Proof. destruct s as [|c s]; simpl; [done|]. by intros ->. Qed.

Lemma expect_app lit s : expect lit (lit +:+ s) = Some s.
Proof.
  induction lit as [|c lit IH]; simpl; [by destruct s|].
  by rewrite Ascii.eqb_refl.
Qed.

Lemma span_run p a r :
  all_chars p a = true → starts_outside p r → span p (a +:+ r) = (a, r).
Proof.
  intros Ha Hr. destruct r as [|c r].
  - rewrite append_nil_r. by apply span_all.
  - by apply span_app.
Qed.

Lemma spaces1_run ws r :
  all_chars is_space ws = true → ws ≠ "" → starts_outside is_space r →
  spaces1 (ws +:+ r) = Some r.
Proof.
  intros Hws Hne Hr. unfold spaces1. rewrite span_run by done.
  by destruct ws.
Qed.

Lemma ident1_run a r :
  all_chars is_ident a = true → a ≠ "" → starts_outside is_ident r →
  ident1 (a +:+ r) = Some (a, r).
Proof.
  intros Ha Hne Hr. unfold ident1. rewrite span_run by done.
  by destruct a.
Qed.

Lemma space_not_ident c : is_space c = true → is_ident c = false.
Proof.
  destruct c as [[] [] [] [] [] [] [] []]; vm_compute; congruence.
Qed.

Lemma starts_outside_spaces ws r :
  all_chars is_space ws = true → ws ≠ "" → starts_outside is_ident (ws +:+ r).
Proof.
  destruct ws as [|c ws]; [done|]. simpl.
  intros [Hc _]%andb_true_iff _. by apply space_not_ident.
Qed.

(** Every line of the shape is matched, with the two names as groups. *)
Lemma define_re_match_shape ws0 ws1 ws2 id1 ws3 id2 ws4 :
  all_chars is_space ws0 = true → all_chars is_space ws1 = true →
  all_chars is_space ws2 = true → ws2 ≠ "" →
  all_chars is_ident id1 = true → id1 ≠ "" →
  all_chars is_space ws3 = true → ws3 ≠ "" →
  all_chars is_ident id2 = true → id2 ≠ "" →
  all_chars is_space ws4 = true →
  DEFINE_RE_match (macro_shape ws0 ws1 ws2 id1 ws3 id2 ws4)
    = Some ("gl" +:+ id1, "glad_gl" +:+ id2).
Proof.
  intros H0 H1 H2 N2 I1 NI1 H3 N3 I2 NI2 H4.
  assert (starts_outside is_ident ws4) as Hw4.
  { destruct ws4 as [|c ws4]; [done|]. simpl in *.
    apply andb_true_iff in H4 as [Hc _]. by apply space_not_ident. }
  unfold DEFINE_RE_match, macro_shape, mbind, option_bind.
  rewrite (lstrip_spaces ws0), lstrip_outside, (expect_app "#") by done.
  cbv beta iota.
  rewrite (lstrip_spaces ws1), lstrip_outside, (expect_app "define") by done.
  cbv beta iota.
  rewrite (spaces1_run ws2), (expect_app "gl") by done.
  rewrite (ident1_run id1) by (try apply starts_outside_spaces; done).
  cbv beta iota.
  rewrite (spaces1_run ws3), (expect_app "glad_gl") by done.
  rewrite (ident1_run id2) by done.
  cbv beta iota.
  rewrite <- (append_nil_r ws4), lstrip_spaces by done. done.
Qed.

Lemma define_re_internal_prefix X Y :
  all_chars is_ident X = true → all_chars is_ident Y = true → Y ≠ "" →
  DEFINE_RE_match ("#define glad_gl" +:+ X +:+ " glad_gl" +:+ Y)
    = Some ("glad_gl" +:+ X, "glad_gl" +:+ Y).
Proof.
  intros HX HY HYne.
  pose proof (define_re_match_shape "" "" " " ("ad_gl" +:+ X) " " Y "") as H.
  unfold macro_shape in H. rewrite !append_nil_r in H.
  rewrite !append_assoc in H. by apply H.
Qed.

Lemma lstrip_split s :
  ∃ ws, s = ws +:+ lstrip s ∧ all_chars is_space ws = true.
Proof.
  induction s as [|c s (ws & Hs & Hws)]; simpl.
  - by exists "".
  - destruct (is_space c) eqn:Hc.
    + exists (String c ws). simpl. rewrite Hc, Hws. split; [|done]. by rewrite <- Hs.
    + by exists "".
Qed.

Lemma expect_inv lit : ∀ s r, expect lit s = Some r → s = lit +:+ r.
Proof.
  induction lit as [|c lit IH]; intros s r; simpl.
  - destruct s; by intros [= ->].
  - destruct s as [|b s]; [done|].
    destruct (Ascii.eqb c b) eqn:Hcb; [|done].
    apply Ascii.eqb_eq in Hcb as ->. intros ->%IH. done.
Qed.

Lemma span_inv p : ∀ s a r,
  span p s = (a, r) → s = a +:+ r ∧ all_chars p a = true ∧ starts_outside p r.
Proof.
  induction s as [|c s IH]; intros a r; simpl.
  - by intros [= <- <-].
  - destruct (p c) eqn:Hc.
    + destruct (span p s) as [a' r'] eqn:E. intros [= <- <-].
      destruct (IH _ _ eq_refl) as (-> & Ha & Hr). simpl. by rewrite Hc, Ha.
    + intros [= <- <-]. simpl. by rewrite Hc.
Qed.

Lemma spaces1_inv s r :
  spaces1 s = Some r →
  ∃ ws, s = ws +:+ r ∧ all_chars is_space ws = true ∧ ws ≠ "" ∧
        starts_outside is_space r.
Proof.
  unfold spaces1. destruct (span is_space s) as [a r'] eqn:E.
  apply span_inv in E as (-> & Ha & Hr).
  destruct a as [|c a]; [done|]. intros [= <-]. by exists (String c a).
Qed.

Lemma ident1_inv s a r :
  ident1 s = Some (a, r) →
  s = a +:+ r ∧ all_chars is_ident a = true ∧ a ≠ "" ∧ starts_outside is_ident r.
Proof.
  unfold ident1. destruct (span is_ident s) as [a' r'] eqn:E.
  apply span_inv in E as (-> & Ha & Hr).
  destruct a' as [|c a']; [done|]. by intros [= <- <-].
Qed.

(** Only lines of the shape are matched. *)
Lemma define_re_match_inv line n1 n2 :
  DEFINE_RE_match line = Some (n1, n2) →
  ∃ ws0 ws1 ws2 id1 ws3 id2 ws4,
    line = macro_shape ws0 ws1 ws2 id1 ws3 id2 ws4 ∧
    n1 = "gl" +:+ id1 ∧ n2 = "glad_gl" +:+ id2 ∧
    all_chars is_space ws0 = true ∧ all_chars is_space ws1 = true ∧
    (all_chars is_space ws2 = true ∧ ws2 ≠ "") ∧
    (all_chars is_ident id1 = true ∧ id1 ≠ "") ∧
    (all_chars is_space ws3 = true ∧ ws3 ≠ "") ∧
    (all_chars is_ident id2 = true ∧ id2 ≠ "") ∧
    all_chars is_space ws4 = true.
Proof.
  unfold DEFINE_RE_match, mbind, option_bind. intros H.
  destruct (lstrip_split line) as (ws0 & Hl & H0).
  destruct (expect "#" (lstrip line)) as [s1|] eqn:E1; [|done].
  apply expect_inv in E1. cbv beta iota in H.
  destruct (lstrip_split s1) as (ws1 & Hs1 & H1).
  destruct (expect "define" (lstrip s1)) as [s2|] eqn:E2; [|done].
  apply expect_inv in E2. cbv beta iota in H.
  destruct (spaces1 s2) as [s3|] eqn:E3; [|done].
  apply spaces1_inv in E3 as (ws2 & -> & H2 & N2 & _). cbv beta iota in H.
  destruct (expect "gl" s3) as [s4|] eqn:E4; [|done].
  apply expect_inv in E4 as ->. cbv beta iota in H.
  destruct (ident1 s4) as [[id1 s5]|] eqn:E5; [|done].
  apply ident1_inv in E5 as (-> & I1 & NI1 & _). cbv beta iota in H.
  destruct (spaces1 s5) as [s6|] eqn:E6; [|done].
  apply spaces1_inv in E6 as (ws3 & -> & H3 & N3 & _). cbv beta iota in H.
  destruct (expect "glad_gl" s6) as [s7|] eqn:E7; [|done].
  apply expect_inv in E7 as ->. cbv beta iota in H.
  destruct (ident1 s7) as [[id2 s8]|] eqn:E8; [|done].
  apply ident1_inv in E8 as (-> & I2 & NI2 & _). cbv beta iota in H.
  destruct (lstrip_split s8) as (ws4 & Hs8 & H4).
  destruct (lstrip s8) eqn:E9; [|done].
  rewrite append_nil_r in Hs8. subst s8. injection H as <- <-.
  exists ws0, ws1, ws2, id1, ws3, id2, ws4.
  split_and!; try done.
  unfold macro_shape. rewrite Hl at 1. rewrite E1, Hs1 at 1. by rewrite E2.
Qed.

(** ** The upward search for a block *)

Lemma skip_blank_up_Some lines : ∀ n j,
  skip_blank_up lines n = Some j ↔
  j < n ∧ is_blank (line_at lines j) = false ∧
  ∀ t, j < t → t < n → is_blank (line_at lines t) = true.
Proof.
  induction n as [|n IH]; intros j; simpl.
  - split; [done|]. intros (? & _); lia.
  - destruct (is_blank (line_at lines n)) eqn:Hb.
    + rewrite IH. split.
      * intros (Hj & Hnb & Hall). split_and!; [lia|done|].
        intros t Ht1 Ht2. destruct (decide (t = n)) as [->|]; [done|].
        apply Hall; lia.
      * intros (Hj & Hnb & Hall).
        assert (j ≠ n) by (intros ->; congruence).
        split_and!; [lia|done|]. intros t ??. apply Hall; lia.
    + split.
      * intros [= <-]. split_and!; [lia|done|]. intros; lia.
      * intros (Hj & Hnb & Hall). f_equal.
        destruct (decide (j = n)) as [|Hne]; [done|].
        rewrite Hall in Hb by lia. done.
Qed.

Lemma scan_up_Some lines e : ∀ n a b,
  scan_up lines n e = Some (a, b) ↔
  b = e ∧ a < n ∧ contains "/**" (line_at lines a) = true ∧
  ∀ t, a < t → t < n → passable (line_at lines t) = true.
Proof.
  induction n as [|n IH]; intros a b; simpl.
  - split; [done|]. intros (_ & ? & _); lia.
  - destruct (contains "/**" (line_at lines n)) eqn:Hopen.
    + split.
      * intros [= <- <-]. split_and!; [done|lia|done|]. intros; lia.
      * intros (-> & Ha & Hc & Hall).
        destruct (decide (a = n)) as [->|Hne]; [done|].
        specialize (Hall n). unfold passable in Hall.
        rewrite Hopen in Hall. simpl in Hall. discriminate Hall; lia.
    + assert (passable (line_at lines n)
              = is_blank (line_at lines n) || comment_body (line_at lines n))
        as Hp by (unfold passable; by rewrite Hopen).
      destruct (is_blank (line_at lines n)) eqn:Hb;
        [|destruct (comment_body (line_at lines n)) eqn:Hcb].
      1,2: rewrite IH; split.
      1,3: intros (-> & Ha & Hc & Hall); split_and!; [done|lia|done|];
           intros t ??; destruct (decide (t = n)) as [->|]; [by rewrite Hp|];
           apply Hall; lia.
      1,2: intros (-> & Ha & Hc & Hall);
           assert (a ≠ n) by (intros ->; congruence);
           split_and!; [done|lia|done|]; intros t ??; apply Hall; lia.
      split; [done|]. intros (-> & Ha & Hc & Hall).
      assert (a ≠ n) by (intros ->; congruence).
      specialize (Hall n). rewrite Hp in Hall. simpl in Hall.
      discriminate Hall; lia.
Qed.

(** What [find_docblock_above] finds, and when. *)
Lemma find_docblock_above_Some lines idx a b :
  find_docblock_above lines idx = Some (a, b) ↔ block_above lines idx a b.
Proof.
  unfold find_docblock_above, block_above.
  destruct (skip_blank_up lines idx) as [j|] eqn:Ej.
  - apply skip_blank_up_Some in Ej as (Hj & Hnb & Hblank).
    assert (∀ b', b' < idx → is_blank (line_at lines b') = false →
                  (∀ t, b' < t → t < idx → is_blank (line_at lines t) = true) →
                  b' = j) as Huniq.
    { intros b' Hb' Hnb' Hall.
      destruct (Nat.lt_trichotomy b' j) as [Hlt|[->|Hgt]]; [|done|].
      - rewrite Hall in Hnb by lia. done.
      - rewrite Hblank in Hnb' by lia. done. }
    destruct (contains "*/" (line_at lines j)) eqn:Hend; simpl negb; cbv iota.
    + rewrite scan_up_Some. split.
      * intros (-> & Ha & Hopen & Hall).
        split_and!; [lia|lia|done..|]. intros t ??. apply Hall; lia.
      * intros (Hab & Hb & Hbl & Hnb' & Hend' & Hopen & Hall).
        assert (b = j) as -> by auto.
        split_and!; [done|lia|done|]. intros t ??. apply Hall; lia.
    + rewrite andb_false_r. split; [done|].
      intros (Hab & Hb & Hbl & Hnb' & Hend' & _).
      assert (b = j) as -> by auto. congruence.
  - split; [done|]. intros (Hab & Hb & Hbl & Hnb' & _).
    assert (skip_blank_up lines idx = Some b) as Hs.
    { apply skip_blank_up_Some. auto. }
    congruence.
Qed.

(** ** Lines matched by the macro pattern *)

Lemma all_chars_app p a b :
  all_chars p (a +:+ b) = all_chars p a && all_chars p b.
Proof.
  induction a as [|c a IH]; simpl; [done|]. by rewrite IH, andb_assoc.
Qed.

Lemma all_chars_impl (p q : ascii → bool) s :
  (∀ c, p c = true → q c = true) → all_chars p s = true → all_chars q s = true.
Proof.
  intros Hpq. induction s as [|c s IH]; simpl; [done|].
  intros [Hc Hs]%andb_true_iff. rewrite Hpq by done. auto.
Qed.

Lemma macro_char_not_star c : macro_char c = true → not_star c = true.
Proof. destruct c as [[] [] [] [] [] [] [] []]; vm_compute; congruence. Qed.

Lemma macro_line_chars line p :
  DEFINE_RE_match line = Some p → all_chars macro_char line = true.
Proof.
  destruct p as [n1 n2].
  intros (ws0 & ws1 & ws2 & id1 & ws3 & id2 & ws4 & -> & _ & _ & H0 & H1
          & [H2 _] & [I1 _] & [H3 _] & [I2 _] & H4)%define_re_match_inv.
  assert (∀ s, all_chars is_space s = true → all_chars macro_char s = true) as Hs.
  { intros s. apply all_chars_impl. intros c Hc. unfold macro_char. by rewrite Hc. }
  assert (∀ s, all_chars is_ident s = true → all_chars macro_char s = true) as Hi.
  { intros s. apply all_chars_impl. intros c Hc. unfold macro_char.
    rewrite Hc. by rewrite orb_true_r. }
  unfold macro_shape. rewrite !all_chars_app.
  rewrite (Hs ws0), (Hs ws1), (Hs ws2), (Hs ws3), (Hs ws4), (Hi id1), (Hi id2)
    by done.
  reflexivity.
Qed.

Lemma startswith_cons a b p s :
  startswith (String b s) (String a p)
  = if Ascii.eqb a b then startswith s p else false.
Proof. done. Qed.

Lemma contains_cons n c h :
  contains n (String c h) = startswith (String c h) n || contains n h.
Proof. done. Qed.

Lemma no_star_no_markers l :
  all_chars not_star l = true →
  contains "*/" l = false ∧ contains "/**" l = false.
Proof.
  induction l as [|c l IH]; [done|].
  intros [Hc Hl]%andb_true_iff. destruct (IH Hl) as [H1 H2].
  rewrite !contains_cons, H1, H2, !startswith_cons.
  unfold not_star in Hc. apply negb_true_iff in Hc.
  rewrite Ascii.eqb_sym in Hc. rewrite Hc. split; [done|].
  destruct (Ascii.eqb "/" c); [|done].
  destruct l as [|d l]; [done|].
  apply andb_true_iff in Hl as [Hd _]. unfold not_star in Hd.
  apply negb_true_iff in Hd. rewrite Ascii.eqb_sym in Hd.
  by rewrite startswith_cons, Hd.
Qed.

Lemma rstrip_empty s : rstrip s = "" ↔ all_chars is_space s = true.
Proof.
  induction s as [|c s IH]; simpl; [done|].
  destruct (rstrip s) as [|d r] eqn:E.
  - destruct (is_space c); simpl; [by rewrite <- IH|]. split; done.
  - split; [done|]. intros [_ Hs]%andb_true_iff. apply IH in Hs. done.
Qed.

Lemma lstrip_empty s : lstrip s = "" ↔ all_chars is_space s = true.
Proof.
  induction s as [|c s IH]; simpl; [done|].
  destruct (is_space c); simpl; [done|]. split; done.
Qed.

Lemma lstrip_all_space s :
  all_chars is_space (lstrip s) = true → all_chars is_space s = true.
Proof.
  induction s as [|c s IH]; simpl; [done|].
  destruct (is_space c) eqn:Hc; simpl; [done|]. by rewrite Hc.
Qed.

Lemma is_blank_spec l : is_blank l = true ↔ all_chars is_space l = true.
Proof.
  unfold is_blank, strip. rewrite String.eqb_eq, rstrip_empty. split.
  - apply lstrip_all_space.
  - intros H. apply lstrip_empty in H. by rewrite H.
Qed.

(** A matched line is neither blank nor passed by the upward scan, and it
    holds neither marker. *)
Lemma macro_line_breaks line p :
  DEFINE_RE_match line = Some p →
  is_blank line = false ∧ comment_body line = false ∧
  contains "/**" line = false ∧ contains "*/" line = false.
Proof.
  intros Hm. pose proof (macro_line_chars _ _ Hm) as Hch.
  destruct (no_star_no_markers line) as [Hend Hopen].
  { eapply all_chars_impl; [apply macro_char_not_star|done]. }
  destruct p as [n1 n2].
  apply define_re_match_inv in Hm
    as (ws0 & ws1 & ws2 & id1 & ws3 & id2 & ws4 & -> & _ & _ & H0 & _).
  unfold macro_shape in *.
  split_and!; [|unfold comment_body; rewrite Hend|done..].
  - apply not_true_iff_false. rewrite is_blank_spec, all_chars_app.
    simpl. rewrite H0. done.
  - rewrite lstrip_spaces by done. done.
Qed.

(** ** The pre-scan *)

Lemma elem_of_add_range a b skip t :
  t ∈ add_range a b skip ↔ (a ≤ t ∧ t ≤ b) ∨ t ∈ skip.
Proof.
  unfold add_range.
  assert (∀ l s, t ∈ foldl (λ skip t, {[t]} ∪ skip) s l ↔ t ∈ l ∨ t ∈ (s : gset nat))
    as Hfold.
  { induction l as [|x l IH]; intros s; simpl.
    - rewrite elem_of_nil. tauto.
    - rewrite IH, elem_of_cons, elem_of_union, elem_of_singleton. tauto. }
  rewrite Hfold, elem_of_seq. split; (intros [?|?]; [left; lia|by right]).
Qed.

Lemma elem_of_prescan_loop lines t : ∀ rest i skip,
  t ∈ prescan_loop lines i rest skip ↔
  t ∈ skip ∨
  ∃ k line p a b, rest !! k = Some line ∧ DEFINE_RE_match line = Some p ∧
                  find_docblock_above lines (i + k) = Some (a, b) ∧
                  a ≤ t ∧ t ≤ b.
Proof.
  induction rest as [|line rest IH]; intros i skip; simpl.
  - split; [auto|]. intros [?|(k & ? & ? & ? & ? & Hk & _)]; [done|].
    by rewrite lookup_nil in Hk.
  - rewrite IH. split.
    + intros [Hin|(k & l & p & a & b & Hk & Hm & Hf & Hta & Htb)].
      * destruct (DEFINE_RE_match line) as [p|] eqn:Hm; [|by left].
        destruct (find_docblock_above lines i) as [[a b]|] eqn:Hf; [|by left].
        apply elem_of_add_range in Hin as [[Hta Htb]|Hin]; [|by left].
        right. exists 0, line, p, a, b. rewrite Nat.add_0_r.
        split_and!; done.
      * right. exists (S k), l, p, a, b. split_and!; try done.
        by replace (i + S k) with (S i + k) by lia.
    + intros [Hin|(k & l & p & a & b & Hk & Hm & Hf & Hta & Htb)].
      * left. destruct (DEFINE_RE_match line); [|done].
        destruct (find_docblock_above lines i) as [[a b]|]; [|done].
        apply elem_of_add_range. by right.
      * destruct k as [|k]; simpl in Hk.
        -- injection Hk as ->. rewrite Nat.add_0_r in Hf. rewrite Hm, Hf.
           left. apply elem_of_add_range. by left.
        -- right. exists k, l, p, a, b. split_and!; try done.
           by replace (S i + k) with (i + S k) by lia.
Qed.

(** A line is marked for removal exactly when it lies in the block found
    above some macro line. *)
Lemma elem_of_prescan lines t :
  t ∈ prescan lines ↔
  ∃ i line p a b, lines !! i = Some line ∧ DEFINE_RE_match line = Some p ∧
                  block_above lines i a b ∧ a ≤ t ∧ t ≤ b.
Proof.
  unfold prescan. rewrite elem_of_prescan_loop. split.
  - intros [Hin|(k & l & p & a & b & Hk & Hm & Hf & Hta & Htb)];
      [by apply not_elem_of_empty in Hin|].
    exists k, l, p, a, b. by rewrite <- find_docblock_above_Some.
  - intros (k & l & p & a & b & Hk & Hm & Hf & Hta & Htb). right.
    exists k, l, p, a, b. by rewrite find_docblock_above_Some.
Qed.

Lemma line_at_lookup lines i l : lines !! i = Some l → line_at lines i = l.
Proof. unfold line_at. by intros ->. Qed.

(** The pre-scan never marks a macro line. *)
Lemma macro_line_not_marked lines i line p :
  lines !! i = Some line → DEFINE_RE_match line = Some p → i ∉ prescan lines.
Proof.
  intros Hi Hm. rewrite elem_of_prescan.
  intros (k & l & q & a & b & _ & _ & Hblock & Ha & Hb).
  destruct (macro_line_breaks _ _ Hm) as (Hnb & Hcb & Hopen & Hend).
  destruct Hblock as (_ & _ & _ & _ & _ & Hopen' & Hpass).
  destruct (decide (i = a)) as [->|Hne].
  - rewrite (line_at_lookup _ _ _ Hi) in Hopen'. congruence.
  - specialize (Hpass i). rewrite (line_at_lookup _ _ _ Hi) in Hpass.
    unfold passable in Hpass. rewrite Hnb, Hcb, andb_false_r in Hpass.
    discriminate Hpass; lia.
Qed.

(** ** The main pass *)

Lemma emit_spec reg refs line :
  emit reg refs line =
  match DEFINE_RE_match line with
  | Some (gl_name, _) =>
      match build_doc reg refs gl_name with
      | Some doc => [doc; line]
      | None => [line]
      end
  | None => [line]
  end.
Proof.
  unfold emit. destruct (DEFINE_RE_match line) as [[n1 n2]|]; [|done].
  destruct (build_doc reg refs n1) as [d|] eqn:E; [|done].
  simpl. by rewrite (build_doc_truthy _ _ _ _ E).
Qed.

Lemma main_loop_spec reg refs skip : ∀ rest i,
  main_loop reg refs skip i rest =
  flat_map (emit reg refs)
    (filter (λ il, il.1 ∉ skip) (imap (λ k l, (i + k, l)) rest)).*2.
Proof.
  induction rest as [|line rest IH]; intros i; simpl; [done|].
  rewrite Nat.add_0_r, filter_cons. simpl.
  assert (imap ((λ k l, (i + k, l)) ∘ S) rest = imap (λ k l, (S i + k, l)) rest)
    as ->.
  { apply imap_ext. intros k l _. simpl. f_equal. lia. }
  case_bool_decide as Hi.
  - rewrite decide_False by auto. apply IH.
  - rewrite decide_True by done. simpl. by rewrite IH.
Qed.

Lemma emit_sublist reg refs ls : ls `sublist_of` flat_map (emit reg refs) ls.
Proof.
  induction ls as [|l ls IH]; simpl; [done|].
  rewrite emit_spec.
  destruct (DEFINE_RE_match l) as [[n1 n2]|];
    [destruct (build_doc reg refs n1)|]; simpl;
    repeat first [by apply sublist_skip | apply sublist_cons | apply sublist_skip].
Qed.

Lemma elem_of_surviving skip lines l :
  l ∈ surviving skip lines ↔ ∃ i, lines !! i = Some l ∧ i ∉ skip.
Proof.
  unfold surviving. rewrite list_elem_of_fmap. split.
  - intros ([i l'] & -> & [Hs Hin]%list_elem_of_filter).
    apply elem_of_lookup_imap in Hin as (k & x & [= <- <-] & Hk). eauto.
  - intros (i & Hi & Hs). exists (i, l). split; [done|].
    apply list_elem_of_filter. split; [done|].
    apply elem_of_lookup_imap. eauto.
Qed.

Lemma process_lines_surviving reg refs lines :
  process_lines reg refs lines
  = flat_map (emit reg refs) (surviving (prescan lines) lines).
Proof. unfold process_lines, surviving. by rewrite main_loop_spec. Qed.

Lemma unmarked_line_emitted reg refs lines i l :
  lines !! i = Some l → i ∉ prescan lines → l ∈ process_lines reg refs lines.
Proof.
  intros Hi Hs. rewrite process_lines_surviving.
  eapply elem_of_sublist; [|apply emit_sublist].
  apply elem_of_surviving. eauto.
Qed.

(** C9: the main pass emits, in the order of the input, every line that
    the pre-scan did not mark; a line that is no macro line is emitted as
    it is, a macro line is emitted as it is after the synthesized block,
    if there is one; the pre-scan never marks a macro line, so every macro
    line is emitted. *)
Theorem main_pass_frame (reg : GLRegistry) (refs : RefPages) (lines : list string) :
  process_lines reg refs lines
    = flat_map (emit reg refs) (surviving (prescan lines) lines) ∧
  surviving (prescan lines) lines `sublist_of` process_lines reg refs lines ∧
  (∀ i l, lines !! i = Some l → i ∉ prescan lines →
          l ∈ process_lines reg refs lines) ∧
  (∀ i l, lines !! i = Some l → is_Some (DEFINE_RE_match l) →
          i ∉ prescan lines) ∧
  (∀ l, emit reg refs l =
        match DEFINE_RE_match l with
        | Some (gl_name, _) =>
            match build_doc reg refs gl_name with
            | Some doc => [doc; l]
            | None => [l]
            end
        | None => [l]
        end).
Proof.
  split_and!.
  - apply process_lines_surviving.
  - rewrite process_lines_surviving. apply emit_sublist.
  - intros i l. apply unmarked_line_emitted.
  - intros i l Hi [p Hp]. by eapply macro_line_not_marked.
  - intros l. apply emit_spec.
Qed.

Lemma main_pass_frame_witness :
  "int x;" ∈ process_lines registry0 no_refs sample_lines ∧
  2 ∉ prescan sample_lines.
Proof.
  split.
  - apply (proj1 (proj2 (proj2 (main_pass_frame registry0 no_refs sample_lines)))
             3 "int x;").
    + reflexivity.
    + apply (bool_decide_unpack _). by vm_compute.
  - apply (proj1 (proj2 (proj2 (proj2
             (main_pass_frame registry0 no_refs sample_lines))))
             2 "#define glFoo glad_glFoo").
    + reflexivity.
    + eexists. by vm_compute.
Defined.

(** C10: a line [#define glad_glX glad_glY] is matched by the macro
    pattern with first group [glad_glX]; the pre-scan never marks it, and
    the main pass calls [build_doc] for the name [glad_glX] and emits the
    line after the block, if one is returned. *)
Theorem internal_prefix_is_target (reg : GLRegistry) (refs : RefPages)
    (X Y : string) :
  all_chars is_ident X = true → all_chars is_ident Y = true → Y ≠ "" →
  let line := "#define glad_gl" +:+ X +:+ " glad_gl" +:+ Y in
  DEFINE_RE_match line = Some ("glad_gl" +:+ X, "glad_gl" +:+ Y) ∧
  emit reg refs line =
    match build_doc reg refs ("glad_gl" +:+ X) with
    | Some doc => [doc; line]
    | None => [line]
    end ∧
  process_lines reg refs [line] = emit reg refs line ∧
  (∀ lines i, lines !! i = Some line →
              (i ∉ prescan lines) ∧ (line ∈ process_lines reg refs lines)).
Proof.
  intros HX HY HYne line.
  pose proof (define_re_internal_prefix X Y HX HY HYne) as Hm. fold line in Hm.
  split_and!.
  - done.
  - by rewrite emit_spec, Hm.
  - unfold process_lines, prescan. cbn [prescan_loop main_loop].
    rewrite Hm. cbn. by rewrite app_nil_r.
  - intros lines i Hi.
    assert (i ∉ prescan lines) as Hs by by eapply macro_line_not_marked.
    split; [done|].
    by eapply unmarked_line_emitted.
Qed.

Lemma internal_prefix_is_target_witness :
  DEFINE_RE_match "#define glad_glFoo glad_glBar"
    = Some ("glad_glFoo", "glad_glBar") ∧
  process_lines registry0 no_refs ["#define glad_glFoo glad_glBar"]
    = emit registry0 no_refs "#define glad_glFoo glad_glBar".
Proof.
  destruct (internal_prefix_is_target registry0 no_refs "Foo" "Bar")
    as (Hm & _ & Hp & _).
  - reflexivity.
  - reflexivity.
  - discriminate.
  - split; [exact Hm|exact Hp].
Defined.

(** ** Parameter descriptions *)

Lemma foldl_flat_map {A B C} (f : A → C → A) (g : B → list C) (l : list B) :
  ∀ a, foldl (λ a v, foldl f a (g v)) a l = foldl f a (flat_map g l).
Proof.
  induction l as [|v l IH]; intros a; simpl; [done|].
  by rewrite IH, foldl_app.
Qed.

Lemma lookup_set_terms (b : bool) (d : string) (terms : list string) nm :
  ∀ out : gmap string string,
  foldl (λ out nm, if b then <[nm := d]> out else out) out terms !! nm
  = if b && bool_decide (nm ∈ terms) then Some d else out !! nm.
Proof.
  induction terms as [|t terms IH]; intros out; simpl.
  - rewrite andb_false_r. done.
  - rewrite IH. destruct b; simpl; [|done].
    destruct (decide (nm = t)) as [->|Hne].
    + rewrite (bool_decide_true (t ∈ t :: terms)) by left.
      rewrite lookup_insert_eq. by case_bool_decide.
    + rewrite lookup_insert_ne by done.
      rewrite (bool_decide_ext (nm ∈ t :: terms) (nm ∈ terms)); [done|].
      rewrite elem_of_cons. tauto.
Qed.

Lemma lookup_add_entry out e nm :
  add_entry out e !! nm
  = if truthy (entry_desc e) && bool_decide (nm ∈ entry_terms e)
    then Some (entry_desc e) else out !! nm.
Proof.
  unfold add_entry. destruct (entry_terms e) as [|t ts] eqn:E.
  - rewrite bool_decide_false by apply not_elem_of_nil. by rewrite andb_false_r.
  - apply lookup_set_terms.
Qed.






(** ** Introduction records *)

Lemma lookup_note_version number iv nm' nm :
  note_version number iv nm' !! nm
  = if String.eqb nm' nm then retain (iv !! nm) number else iv !! nm.
Proof.
  unfold note_version, retain.
  destruct (String.eqb nm' nm) eqn:E.
  - apply String.eqb_eq in E as ->.
    destruct (iv !! nm) as [cur|] eqn:Ecur.
    + destruct (version_tuple number) as [a|]; [|done].
      destruct (version_tuple cur) as [b|]; [|done].
      destruct (tuple_lt a b); [|done]. by rewrite lookup_insert_eq.
    + by rewrite lookup_insert_eq.
  - apply String.eqb_neq in E.
    destruct (iv !! nm') as [cur|].
    + destruct (version_tuple number) as [a|]; [|done].
      destruct (version_tuple cur) as [b|]; [|done].
      destruct (tuple_lt a b); [|done]. by rewrite lookup_insert_ne.
    + by rewrite lookup_insert_ne.
Qed.

Lemma lookup_commands_loop number nm : ∀ cs iv,
  foldl (λ iv c, let nm := get c "name" in
                 if truthy_opt nm then note_version number iv (text_or_empty nm)
                 else iv) iv cs !! nm
  = foldl retain (iv !! nm) (flat_map (command_versions number nm) cs).
Proof.
  induction cs as [|c cs IH]; intros iv; simpl; [done|].
  rewrite IH, foldl_app. f_equal. unfold command_versions.
  destruct (truthy_opt (get c "name")); simpl; [|done].
  rewrite lookup_note_version.
  by destruct (String.eqb (text_or_empty (get c "name")) nm).
Qed.

Lemma lookup_requires_loop number nm : ∀ reqs iv,
  foldl (λ iv req,
           foldl (λ iv c, let nm := get c "name" in
                          if truthy_opt nm
                          then note_version number iv (text_or_empty nm)
                          else iv) iv (findall req "command")) iv reqs !! nm
  = foldl retain (iv !! nm)
      (flat_map (λ req, flat_map (command_versions number nm) (findall req "command"))
                reqs).
Proof.
  induction reqs as [|req reqs IH]; intros iv; simpl; [done|].
  by rewrite IH, foldl_app, lookup_commands_loop.
Qed.

Lemma lookup_parse_feature nm iv feat :
  parse_feature iv feat !! nm
  = foldl retain (iv !! nm) (feature_versions_of nm feat).
Proof.
  unfold parse_feature, feature_versions_of.
  case_bool_decide; simpl; [|done].
  destruct (truthy _); simpl; [|done].
  apply lookup_requires_loop.
Qed.

(** The registry keeps, for each command, the fold of [retain] over the
    versions that require it. *)
Lemma lookup_parse_features root nm :
  _parse_features root !! nm = foldl retain None (feature_versions root nm).
Proof.
  unfold _parse_features, feature_versions.
  assert (∀ feats iv,
            foldl parse_feature iv feats !! nm
            = foldl retain (iv !! nm) (flat_map (feature_versions_of nm) feats))
    as Hloop.
  { induction feats as [|feat feats IH]; intros iv; simpl; [done|].
    by rewrite IH, foldl_app, lookup_parse_feature. }
  by rewrite Hloop, lookup_empty.
Qed.

(** The order of tuples. *)
Lemma tuple_lt_irrefl a : tuple_lt a a = false.
Proof.
  induction a as [|x a IH]; simpl; [done|].
  by rewrite Z.ltb_irrefl.
Qed.

Lemma tuple_lt_trans a : ∀ b c,
  tuple_lt a b = true → tuple_lt b c = true → tuple_lt a c = true.
Proof.
  induction a as [|x a IH]; intros [|y b] [|z c]; simpl; try done.
  destruct (x <? y)%Z eqn:Hxy, (y <? x)%Z eqn:Hyx,
           (y <? z)%Z eqn:Hyz, (z <? y)%Z eqn:Hzy,
           (x <? z)%Z eqn:Hxz, (z <? x)%Z eqn:Hzx; try done; try lia.
  apply IH.
Qed.

Lemma tuple_lt_total a : ∀ b,
  tuple_lt a b = false → tuple_lt b a = false → a = b.
Proof.
  induction a as [|x a IH]; intros [|y b]; simpl; try done.
  destruct (x <? y)%Z eqn:Hxy, (y <? x)%Z eqn:Hyx; try done.
  intros H1 H2. f_equal; [lia|]. by apply IH.
Qed.

Lemma retain_parsed_fold : ∀ rest c tc,
  version_tuple c = Some tc →
  ∃ v t, foldl retain (Some c) rest = Some v ∧ v ∈ c :: rest ∧
         version_tuple v = Some t ∧ tuple_lt tc t = false ∧ lowest_of t rest.
Proof.
  induction rest as [|w rest IH]; intros c tc Hc; simpl.
  - exists c, tc. split_and!; [done|by left|done|apply tuple_lt_irrefl|].
    intros w tw Hw. by apply elem_of_nil in Hw.
  - destruct (version_tuple w) as [a|] eqn:Hw; rewrite ?Hc;
      [destruct (tuple_lt a tc) eqn:Hlt|].
    + destruct (IH w a Hw) as (v & t & Hf & Hin & Hv & Hle & Hlow).
      exists v, t. split_and!; [done|by right|done|..].
      * destruct (tuple_lt tc t) eqn:E; [|done].
        by rewrite (tuple_lt_trans _ _ _ Hlt E) in Hle.
      * intros w' tw' [->|Hw']%elem_of_cons Htw'; [|by eapply Hlow].
        rewrite Hw in Htw'. by injection Htw' as <-.
    + destruct (IH c tc Hc) as (v & t & Hf & Hin & Hv & Hle & Hlow).
      exists v, t. split_and!; [done| |done..|].
      * apply elem_of_cons in Hin as [->|Hin]; [by left|by do 2 right].
      * intros w' tw' [->|Hw']%elem_of_cons Htw'; [|by eapply Hlow].
        rewrite Hw in Htw'. injection Htw' as <-.
        destruct (tuple_lt a t) eqn:E; [|done].
        destruct (tuple_lt t tc) eqn:E2.
        -- by rewrite (tuple_lt_trans _ _ _ E E2) in Hlt.
        -- rewrite (tuple_lt_total _ _ Hle E2) in Hlt. congruence.
    + destruct (IH c tc Hc) as (v & t & Hf & Hin & Hv & Hle & Hlow).
      exists v, t. split_and!; [done| |done..|].
      * apply elem_of_cons in Hin as [->|Hin]; [by left|by do 2 right].
      * intros w' tw' [->|Hw']%elem_of_cons Htw'; [congruence|by eapply Hlow].
Qed.

Lemma retain_unparsed_fold : ∀ rest c,
  version_tuple c = None → foldl retain (Some c) rest = Some c.
Proof.
  induction rest as [|w rest IH]; intros c Hc; simpl; [done|].
  rewrite Hc. destruct (version_tuple w); by apply IH.
Qed.

Lemma retain_lowest v0 rest t0 :
  version_tuple v0 = Some t0 →
  ∃ v t, foldl retain None (v0 :: rest) = Some v ∧ v ∈ v0 :: rest ∧
         version_tuple v = Some t ∧ lowest_of t (v0 :: rest).
Proof.
  intros H0. destruct (retain_parsed_fold rest v0 t0 H0)
    as (v & t & Hf & Hin & Hv & Hle & Hlow).
  exists v, t. split_and!; try done.
  intros w tw [->|Hw]%elem_of_cons Htw; [|by eapply Hlow]. congruence.
Qed.

Lemma parsed_retained_unique vs vs' v v' t t' :
  vs' ≡ₚ vs → v ∈ vs → v' ∈ vs' →
  version_tuple v = Some t → version_tuple v' = Some t' →
  lowest_of t vs → lowest_of t' vs' → t' = t.
Proof.
  intros Hp Hv Hv' Ht Ht' Hlow Hlow'.
  apply tuple_lt_total.
  - apply (Hlow v' t'); [by rewrite <- Hp|done].
  - apply (Hlow' v t); [by rewrite Hp|done].
Qed.

Lemma feature_versions_counted root nm :
  feature_versions root nm
  = flat_map (all_feature_versions_of nm)
      (filter (λ f, counted f = true) (findall root "feature")).
Proof.
  unfold feature_versions.
  induction (findall root "feature") as [|feat feats IH]; [done|].
  cbn [flat_map]. rewrite IH, filter_cons.
  assert (feature_versions_of nm feat
          = if counted feat then all_feature_versions_of nm feat else []) as ->.
  { unfold feature_versions_of, counted, all_feature_versions_of.
    case_bool_decide; [|done]. cbn [andb].
    destruct (get feat "number") as [n|]; [|done].
    unfold or_else, text_or_empty. cbn [truthy_opt].
    destruct (truthy n) eqn:Hn; cbn [default from_option id]; [by rewrite Hn|done]. }
  destruct (counted feat); [rewrite decide_True by done|rewrite decide_False by done];
    done.
Qed.

Lemma parse_feature_uncounted iv feat :
  counted feat = false → parse_feature iv feat = iv.
Proof.
  unfold counted, parse_feature. case_bool_decide; [|done]. cbn [andb negb].
  destruct (get feat "number") as [n|]; [|done].
  unfold or_else, text_or_empty. cbn [truthy_opt]. intros Hn. by rewrite Hn.
Qed.

(** C5 (as the code has it): only the feature blocks with the api "gl"
    and a number that is not empty count. A command required by several
    of them keeps the lowest version among them, tuples of integers
    compared as Python compares them, whatever the order of the blocks;
    [version_or_exts] reports it. A later version that does not parse is
    ignored; when the first version seen does not parse, it is kept. A
    block of another api, without api or without number changes
    nothing. *)
Theorem lowest_version_retained (root : Element) (nm : string) :
  (feature_versions root nm = [] → _parse_features root !! nm = None) ∧
  (∀ v0 rest, feature_versions root nm = v0 :: rest →
     ∃ v, _parse_features root !! nm = Some v ∧
          (version_or_exts (load_registry root) nm).1 = Some v ∧
          v ∈ v0 :: rest ∧
          (version_tuple v0 = None → v = v0) ∧
          (is_Some (version_tuple v0) →
             ∃ t, version_tuple v = Some t ∧ lowest_of t (v0 :: rest))) ∧
  (∀ root',
     Forall (λ w, is_Some (version_tuple w)) (feature_versions root nm) →
     feature_versions root' nm ≡ₚ feature_versions root nm →
     _parse_features root' !! nm ≫= version_tuple
     = _parse_features root !! nm ≫= version_tuple) ∧
  feature_versions root nm
  = flat_map (all_feature_versions_of nm)
      (filter (λ f, counted f = true) (findall root "feature")) ∧
  (∀ iv feat, counted feat = false → parse_feature iv feat = iv).
Proof.
  split_and!.
  - intros Hvs. by rewrite lookup_parse_features, Hvs.
  - intros v0 rest Hvs.
    assert (∃ v, foldl retain None (v0 :: rest) = Some v ∧ v ∈ v0 :: rest ∧
                 (version_tuple v0 = None → v = v0) ∧
                 (is_Some (version_tuple v0) →
                    ∃ t, version_tuple v = Some t ∧ lowest_of t (v0 :: rest)))
      as (v & Hf & Hin & Hnone & Hsome).
    { destruct (version_tuple v0) as [t0|] eqn:H0.
      - destruct (retain_lowest v0 rest t0 H0) as (v & t & Hf & Hin & Hv & Hlow).
        exists v. split_and!; [done..|]. intros _. by exists t.
      - exists v0. simpl. rewrite retain_unparsed_fold by done.
        split_and!; [done|by left|done|]. by intros [? ?]. }
    exists v. rewrite lookup_parse_features, Hvs.
    split_and!; try done.
    unfold version_or_exts, load_registry. simpl.
    by rewrite lookup_parse_features, Hvs, Hf.
  - intros root' Hall Hperm. rewrite !lookup_parse_features.
    destruct (feature_versions root nm) as [|v0 rest] eqn:Hvs.
    { apply Permutation_nil_r in Hperm. by rewrite Hperm. }
    destruct (feature_versions root' nm) as [|v0' rest'] eqn:Hvs'.
    { symmetry in Hperm. by apply Permutation_nil_r in Hperm. }
    assert (Forall (λ w, is_Some (version_tuple w)) (v0' :: rest')) as Hall'.
    { by rewrite Hperm. }
    apply Forall_cons in Hall as [[t0 H0] _].
    apply Forall_cons in Hall' as [[t0' H0'] _].
    destruct (retain_lowest v0 rest t0 H0) as (v & t & -> & Hin & Hv & Hlow).
    destruct (retain_lowest v0' rest' t0' H0') as (v' & t' & -> & Hin' & Hv' & Hlow').
    simpl. rewrite Hv, Hv'. f_equal.
    by eapply parsed_retained_unique.
  - apply feature_versions_counted.
  - apply parse_feature_uncounted.
Qed.

Lemma lowest_version_retained_witness :
  ∃ v, _parse_features registry_xml !! "glFoo" = Some v ∧
       (version_or_exts (load_registry registry_xml) "glFoo").1 = Some v ∧
       v ∈ ["4.0"; "3.3"; "10.0"] ∧
       (version_tuple "4.0" = None → v = "4.0") ∧
       (is_Some (version_tuple "4.0") →
          ∃ t, version_tuple v = Some t ∧ lowest_of t ["4.0"; "3.3"; "10.0"]).
Proof.
  apply (proj1 (proj2 (lowest_version_retained registry_xml "glFoo"))
           "4.0" ["3.3"; "10.0"]).
  reflexivity.
Defined.

(** C5 as stated fails: glFoo is required by the block 1.0 of the api
    gles2 and by the block 3.3 of the api gl; the version kept is 3.3,
    which is not the lowest of the two. *)
Lemma lower_version_of_other_api_ignored :
  all_feature_versions mixed_api_xml "glFoo" = ["1.0"; "3.3"] ∧
  (version_or_exts (load_registry mixed_api_xml) "glFoo").1 = Some "3.3" ∧
  version_tuple "1.0" = Some [1; 0]%Z ∧ version_tuple "3.3" = Some [3; 3]%Z ∧
  ¬ lowest_of [3; 3]%Z (all_feature_versions mixed_api_xml "glFoo").
Proof.
  split_and!; try by vm_compute.
  intros Hlow. specialize (Hlow "1.0" [1; 0]%Z).
  assert (tuple_lt [1; 0]%Z [3; 3]%Z = false) as Hlt; [|by vm_compute in Hlt].
  apply Hlow; [|by vm_compute].
  apply (bool_decide_unpack _). by vm_compute.
Qed.

(** [int] refuses a text of more than 4300 digits, so a version with such
    a component does not parse. *)
Example int_digit_limit :
  is_Some (Py.int (ones 4300)) ∧ Py.int (ones 4301) = None ∧
  is_Some (version_tuple ("3." +:+ ones 4300)) ∧
  version_tuple ("3." +:+ ones 4301) = None.
Proof. split_and!; [eexists| |eexists|]; by vm_compute. Qed.

(** The blocks "1.0" and "3.3" yield "1.0" in either order; the
    comparison is numeric ("3.3" is below "10.0"); an unparsable first
    value is kept, an unparsable later value is ignored. *)
Example version_examples :
  (version_or_exts (load_registry (two_blocks "1.0" "3.3")) "glFoo").1 = Some "1.0" ∧
  (version_or_exts (load_registry (two_blocks "3.3" "1.0")) "glFoo").1 = Some "1.0" ∧
  (version_or_exts (load_registry (two_blocks "10.0" "3.3")) "glFoo").1 = Some "3.3" ∧
  (version_or_exts (load_registry (two_blocks "4.x" "3.3")) "glFoo").1 = Some "4.x" ∧
  (version_or_exts (load_registry (two_blocks "3.3" "1.x")) "glFoo").1 = Some "3.3".
Proof. by vm_compute. Qed.

(** ** The adjacency rule *)

Lemma find_docblock_above_no_end lines i j :
  skip_blank_up lines i = Some j →
  contains "*/" (line_at lines j) = false →
  find_docblock_above lines i = None.
Proof.
  intros Hj Hend. unfold find_docblock_above. rewrite Hj, Hend. simpl.
  by rewrite andb_false_r.
Qed.

Lemma block_above_below_break lines i a b t :
  block_above lines i a b → t < i →
  is_blank (line_at lines t) = false →
  comment_body (line_at lines t) = false →
  contains "/**" (line_at lines t) = false →
  t < a.
Proof.
  intros (Hab & Hb & Hblank & _ & _ & Hopen & Hpass) Ht Hnb Hcb Hno.
  destruct (decide (t < a)) as [|Hge]; [done|]. exfalso.
  destruct (decide (b < t)) as [Hbt|Hle].
  - rewrite Hblank in Hnb by done. done.
  - destruct (decide (t = a)) as [->|Hne]; [congruence|].
    specialize (Hpass t). unfold passable in Hpass.
    rewrite Hnb, Hcb, andb_false_r in Hpass. discriminate Hpass; lia.
Qed.

(** C6 (as the code has it): for a macro line at [i], the search finds
    the block [a..b] exactly when [b] is the nearest line above that is
    not blank, it holds the end marker, [a] holds the opening marker and
    every line between them is blank or comment-like; the lines of a block
    found are marked for removal. A line above the macro line that is not
    blank, not comment-like and without opening marker stops the search:
    nothing at or above it is found, and nothing at all when no opening
    marker stands between it and the macro line. When the nearest line
    above that is not blank lacks the end marker, nothing is found. A line
    is marked exactly when it lies in the block found above some macro
    line. *)
Theorem adjacency_rule (lines : list string) (i : nat) (line : string)
    (p : string * string) :
  lines !! i = Some line → DEFINE_RE_match line = Some p →
  (∀ a b, find_docblock_above lines i = Some (a, b) ↔ block_above lines i a b) ∧
  (∀ a b t, block_above lines i a b → a ≤ t → t ≤ b → t ∈ prescan lines) ∧
  (∀ t, t < i →
        is_blank (line_at lines t) = false →
        comment_body (line_at lines t) = false →
        contains "/**" (line_at lines t) = false →
        (∀ a b, find_docblock_above lines i = Some (a, b) → t < a) ∧
        ((∀ u, t < u → u < i → contains "/**" (line_at lines u) = false) →
         find_docblock_above lines i = None)) ∧
  (∀ j, skip_blank_up lines i = Some j →
        contains "*/" (line_at lines j) = false →
        find_docblock_above lines i = None) ∧
  (∀ t, t ∈ prescan lines ↔
        ∃ j l q a b, lines !! j = Some l ∧ DEFINE_RE_match l = Some q ∧
                     block_above lines j a b ∧ a ≤ t ∧ t ≤ b).
Proof.
  intros Hi Hm. split_and!.
  - intros a b. apply find_docblock_above_Some.
  - intros a b t Hblock Ha Hb. apply elem_of_prescan.
    exists i, line, p, a, b. done.
  - intros t Ht Hnb Hcb Hno.
    assert (∀ a b, find_docblock_above lines i = Some (a, b) → t < a) as Hbelow.
    { intros a b Hf%find_docblock_above_Some.
      by eapply block_above_below_break. }
    split; [done|]. intros Hnone.
    destruct (find_docblock_above lines i) as [[a b]|] eqn:Hf; [|done].
    pose proof (Hbelow a b eq_refl) as Hta.
    apply find_docblock_above_Some in Hf as (Hab & Hb & _ & _ & _ & Hopen & _).
    rewrite Hnone in Hopen by lia. done.
  - intros j. apply find_docblock_above_no_end.
  - intros t. apply elem_of_prescan.
Qed.

Lemma adjacency_rule_witness :
  0 ∈ prescan sample_lines ∧
  find_docblock_above ["/** old */"; "int x;"; "#define glFoo glad_glFoo"] 2 = None.
Proof.
  split.
  - apply (proj1 (proj2 (adjacency_rule sample_lines 2 "#define glFoo glad_glFoo"
                           ("glFoo", "glad_glFoo") eq_refl eq_refl)) 0 0 0).
    + apply find_docblock_above_Some. reflexivity.
    + lia.
    + lia.
  - apply (proj1 (proj2 (proj2
             (adjacency_rule ["/** old */"; "int x;"; "#define glFoo glad_glFoo"]
                2 "#define glFoo glad_glFoo" ("glFoo", "glad_glFoo")
                eq_refl eq_refl))) 1).
    + lia.
    + reflexivity.
    + reflexivity.
    + reflexivity.
    + intros u Hu1 Hu2. lia.
Defined.

(** C6 as stated fails. In [stray_lines] the block is separated from the
    macro line by one comment-body line only, and it is not marked; in
    [unstarred_lines] the block stands directly above the macro line, and
    it is not marked either. *)
Lemma adjacent_block_not_removed :
  (is_Some (DEFINE_RE_match "#define glFoo glad_glFoo") ∧
   comment_body " * stray" = true ∧
   find_docblock_above stray_lines 2 = None ∧
   prescan stray_lines = ∅) ∧
  (find_docblock_above unstarred_lines 3 = None ∧
   prescan unstarred_lines = ∅).
Proof.
  split_and!; try by vm_compute.
  eexists. by vm_compute.
Qed.

(** ** Lines and text *)

Lemma join_cons sep x xs : join sep (x :: xs) = x +:+ join_tail sep xs.
Proof. unfold join. destruct xs; simpl; [by rewrite append_nil_r|done]. Qed.

Lemma join_tail_app sep xs ys :
  join_tail sep (xs ++ ys) = join_tail sep xs +:+ join_tail sep ys.
Proof.
  induction xs as [|x xs IH]; [done|].
  change (join_tail sep ((x :: xs) ++ ys)) with (sep +:+ join sep (x :: xs ++ ys)).
  change (join_tail sep (x :: xs)) with (sep +:+ join sep (x :: xs)).
  by rewrite !join_cons, IH, !append_assoc.
Qed.

Lemma join_app sep xs ys :
  xs ≠ [] → join sep (xs ++ ys) = join sep xs +:+ join_tail sep ys.
Proof.
  destruct xs as [|x xs]; [done|]. intros _.
  rewrite <- app_comm_cons, !join_cons, join_tail_app.
  by rewrite append_assoc.
Qed.

Lemma splitlines_line x rest :
  no_linebreak x = true →
  splitlines (x +:+ LF +:+ rest) = x :: splitlines rest.
Proof.
  induction x as [|c x IH]; intros Hx.
  - destruct rest; reflexivity.
  - apply andb_true_iff in Hx as [Hc Hx]. apply negb_true_iff in Hc.
    rewrite append_cons. cbn [splitlines]. rewrite Hc, IH by done. done.
Qed.

Lemma splitlines_join xs :
  xs ≠ [] → Forall (λ l, no_linebreak l = true) xs →
  splitlines (join LF xs +:+ LF) = xs.
Proof.
  induction xs as [|x xs IH]; [done|]. intros _ [Hx Hxs]%Forall_cons.
  rewrite join_cons. destruct xs as [|y ys].
  - simpl join_tail. rewrite append_nil_r.
    rewrite <- (append_nil_r LF) at 1. by rewrite splitlines_line.
  - unfold join_tail. rewrite !append_assoc, splitlines_line by done.
    by rewrite IH.
Qed.

Lemma splitlines_no_linebreak s :
  Forall (λ l, no_linebreak l = true) (splitlines s).
Proof.
  induction s as [|c s IH]; [constructor|]. cbn [splitlines].
  destruct (is_linebreak c) eqn:Hc.
  - constructor; [done|]. destruct s as [|c' s']; [constructor|].
    destruct ((code c =? 13)%N && (code c' =? 10)%N) eqn:Hcr; [|done].
    apply andb_true_iff in Hcr as [_ Hlf]. apply N.eqb_eq in Hlf.
    assert (c' = "010"%char) as ->.
    { rewrite <- (ascii_N_embedding c'). unfold code in Hlf. by rewrite Hlf. }
    cbn [splitlines] in IH. change (is_linebreak "010") with true in IH.
    cbv iota in IH. apply Forall_cons in IH as [_ IH].
    destruct s'; [constructor|]. exact IH.
  - destruct (splitlines s) as [|w ws]; constructor; try done.
    + unfold no_linebreak. simpl. by rewrite Hc.
    + apply Forall_cons in IH as [Hw _]. unfold no_linebreak in *.
      simpl. by rewrite Hc.
    + by apply Forall_cons in IH as [_ ?].
Qed.

(** ** The shape of a synthesized block *)

Lemma param_lines_star rp pd : ∀ ps seen_p,
  Forall (λ l, startswith l " * " = true) (param_lines rp pd seen_p ps).
Proof.
  induction ps as [|[ptype pname] ps IH]; intros seen_p; simpl; [constructor|].
  case_bool_decide; [apply IH|]. constructor; [|apply IH].
  unfold make_param_line_with_desc. by destruct (truthy_opt _).
Qed.

Lemma build_doc_lines_shape reg refs name ds :
  build_doc_lines reg refs name = Some ds →
  ∃ mid, ds = "/**" :: mid ++ [" */"] ∧
         Forall (λ l, startswith l " * " = true) mid.
Proof.
  unfold build_doc_lines.
  destruct (doc_signature reg refs name) as [[ret ps]|]; [|done].
  intros [= <-].
  match goal with
  | |- ∃ mid, _ :: ?A ++ ?B ++ ?C ++ ?d :: ?E ++ _ = _ ∧ _ =>
      exists (A ++ B ++ C ++ d :: E)
  end.
  split.
  - by rewrite <- !app_assoc.
  - repeat apply Forall_app_2; try apply param_lines_star;
      repeat match goal with
             | |- context [if ?b then _ else _] => destruct b
             | |- context [match ?l with [] => _ | _ :: _ => _ end] => destruct l
             end; repeat constructor.
Qed.

Lemma star_line_facts l :
  startswith l " * " = true →
  comment_body l = true ∧ DEFINE_RE_match l = None.
Proof.
  destruct l as [|c1 [|c2 l]]; [done| |].
  { rewrite startswith_cons. by destruct (Ascii.eqb " " c1). }
  rewrite !startswith_cons.
  destruct (Ascii.eqb " " c1) eqn:E1; [|done].
  destruct (Ascii.eqb "*" c2) eqn:E2; [|done].
  apply Ascii.eqb_eq in E1 as <-. apply Ascii.eqb_eq in E2 as <-. intros _.
  assert (lstrip (String " " (String "*" l)) = String "*" l) as Hl by done.
  split.
  - unfold comment_body. rewrite Hl.
    change (startswith (String "*" l) "*") with true.
    by rewrite orb_true_r.
  - unfold DEFINE_RE_match. by rewrite Hl.
Qed.

Lemma block_ok_of_clean reg refs name ds :
  build_doc_lines reg refs name = Some ds → clean_block ds = true →
  block_ok ds.
Proof.
  intros (mid & -> & Hmid)%build_doc_lines_shape
         [Hlb Hopen]%andb_true_iff.
  exists mid. simpl in Hopen. rewrite drop_0 in Hopen.
  rewrite forallb_forall in Hopen. rewrite forallb_forall in Hlb.
  split_and!; [done|..].
  - apply Forall_forall. intros l Hl. unfold passable.
    assert (contains "/**" l = false) as ->.
    { apply negb_true_iff, Hopen. by apply list_elem_of_In. }
    simpl. apply orb_true_iff. right.
    apply elem_of_app in Hl as [Hl|Hl%list_elem_of_singleton].
    + rewrite Forall_forall in Hmid. by apply star_line_facts, Hmid.
    + by subst.
  - constructor; [done|]. apply Forall_app_2.
    + eapply Forall_impl; [exact Hmid|]. intros l Hl. by apply star_line_facts.
    + by repeat constructor.
  - apply Forall_forall. intros l Hl. apply Hlb. by apply list_elem_of_In.
Qed.

(** ** The second run *)

Lemma line_at_chunk pre ds rest k :
  k < length ds → line_at (pre ++ ds ++ rest) (length pre + k) = line_at ds k.
Proof.
  intros Hk. unfold line_at.
  rewrite lookup_app_r by lia.
  replace (length pre + k - length pre) with k by lia.
  by rewrite lookup_app_l.
Qed.

(** Above a macro line that follows a clean block, the search finds that
    block and nothing more. *)
Lemma find_at_chunk pre ds l post :
  block_ok ds →
  find_docblock_above (pre ++ ds ++ l :: post) (length pre + length ds)
  = Some (length pre, length pre + length ds - 1).
Proof.
  intros (mid & -> & Hpass & _ & _).
  apply find_docblock_above_Some. unfold block_above.
  set (ds := "/**" :: mid ++ [" */"]).
  assert (length ds = S (S (length mid))) as Hlen.
  { unfold ds. simpl. rewrite length_app. simpl. lia. }
  assert (∀ k, k < length ds →
               line_at (pre ++ ds ++ l :: post) (length pre + k) = line_at ds k)
    as Hat by (intros; by apply line_at_chunk).
  assert (line_at ds (S (length mid)) = " */") as Hlast.
  { unfold line_at, ds. simpl.
    rewrite lookup_app_r by lia. by rewrite Nat.sub_diag. }
  rewrite Hlen.
  replace (length pre + S (S (length mid)) - 1)
    with (length pre + S (length mid)) by lia.
  split_and!.
  - lia.
  - lia.
  - intros t ??. lia.
  - rewrite Hat, Hlast by lia. done.
  - rewrite Hat, Hlast by lia. done.
  - rewrite <- (Nat.add_0_r (length pre)) at 1. rewrite Hat by lia. done.
  - intros t Ht1 Ht2.
    replace t with (length pre + S (t - length pre - 1)) by lia.
    rewrite Hat by lia. unfold line_at, ds. simpl.
    destruct ((mid ++ [" */"]) !! (t - length pre - 1)) as [x|] eqn:Hx.
    + simpl. rewrite Forall_forall in Hpass. apply Hpass.
      by eapply list_elem_of_lookup_2.
    + apply lookup_ge_None in Hx. rewrite length_app in Hx. simpl in Hx. lia.
Qed.

Section second_run.
Variables (reg : GLRegistry) (refs : RefPages).

Lemma flat_map_expand_app K1 K2 :
  flat_map (expand reg refs) (K1 ++ K2)
  = flat_map (expand reg refs) K1 ++ flat_map (expand reg refs) K2.
Proof. apply flat_map_app. Qed.

Lemma block_lines_not_macro l :
  chunk_ok reg refs l →
  Forall (λ d, DEFINE_RE_match d = None) (block_lines reg refs l).
Proof.
  intros [_ [[_ ->]|[_ (mid & _ & _ & Hnm & _)]]]; [constructor|done].
Qed.

(** Where the macro lines of the file written stand. *)
Lemma macro_position : ∀ K j line p,
  Forall (chunk_ok reg refs) K →
  flat_map (expand reg refs) K !! j = Some line →
  DEFINE_RE_match line = Some p →
  ∃ K1 K2, K = K1 ++ line :: K2 ∧
           j = length (flat_map (expand reg refs) K1)
               + length (block_lines reg refs line).
Proof.
  induction K as [|l K IH]; intros j line p HK Hj Hm; [done|].
  apply Forall_cons in HK as [Hl HK]. simpl in Hj. unfold expand at 1 in Hj.
  rewrite <- app_assoc in Hj.
  destruct (decide (j < length (block_lines reg refs l))) as [Hlt|Hge].
  - rewrite lookup_app_l in Hj by done.
    pose proof (block_lines_not_macro l Hl) as Hnm.
    rewrite Forall_forall in Hnm.
    rewrite (Hnm line) in Hm; [done|]. by eapply list_elem_of_lookup_2.
  - rewrite lookup_app_r in Hj by lia.
    destruct (j - length (block_lines reg refs l)) as [|j'] eqn:Ej; simpl in Hj.
    + injection Hj as ->. exists [], K. split; [done|]. simpl. lia.
    + destruct (IH j' line p HK Hj Hm) as (K1 & K2 & -> & Hj').
      exists (l :: K1), K2. split; [done|]. simpl. unfold expand at 1.
      rewrite !length_app. simpl. lia.
Qed.

(** The block above a macro line of the file written is its own. *)
Lemma find_in_written P K1 line K2 :
  chunk_ok reg refs line → is_Some (DEFINE_RE_match line) →
  find_docblock_above
    (P ++ flat_map (expand reg refs) (K1 ++ line :: K2))
    (length P + length (flat_map (expand reg refs) K1)
     + length (block_lines reg refs line))
  = Some (length P + length (flat_map (expand reg refs) K1),
          length P + length (flat_map (expand reg refs) K1)
          + length (block_lines reg refs line) - 1).
Proof.
  intros [_ [[Hn _]|[_ Hok]]] [p Hp]; [congruence|].
  rewrite flat_map_expand_app. simpl. unfold expand at 2.
  rewrite <- !app_assoc. rewrite (app_assoc P). simpl.
  rewrite <- length_app. by apply find_at_chunk.
Qed.

(** The lines of a block in the file written are marked. *)
Lemma block_marked P line K2 k :
  chunk_ok reg refs line →
  k < length (block_lines reg refs line) →
  length P + k ∈ prescan (P ++ flat_map (expand reg refs) (line :: K2)).
Proof.
  intros Hl Hk. apply elem_of_prescan.
  assert (is_Some (DEFINE_RE_match line)) as [p Hp].
  { destruct Hl as [_ [[_ Hb]|[? _]]]; [|done]. rewrite Hb in Hk. simpl in Hk. lia. }
  pose proof (find_in_written P [] line K2 Hl (mk_is_Some _ _ Hp)) as Hf.
  simpl in Hf. rewrite Nat.add_0_r in Hf.
  exists (length P + length (block_lines reg refs line)), line, p.
  eexists _, _. split_and!.
  - simpl. unfold expand at 1. rewrite <- app_assoc.
    rewrite lookup_app_r by lia. rewrite lookup_app_r by lia.
    replace (_ - _ - _) with 0 by lia. done.
  - done.
  - apply find_docblock_above_Some. exact Hf.
  - lia.
  - lia.
Qed.

(** The surviving lines themselves are not marked in the file written. *)
Lemma kept_not_marked P l K2 :
  Forall (chunk_ok reg refs) K2 →
  length P ∉ prescan (P ++ l :: flat_map (expand reg refs) K2).
Proof.
  intros HK2. rewrite elem_of_prescan.
  intros (i & line & p & a & b & Hi & Hm & Hblock & Ha & Hb).
  assert (length P < i) as Hlt by (destruct Hblock as (_ & ? & _); lia).
  rewrite lookup_app_r in Hi by lia.
  destruct (i - length P) as [|j] eqn:Ej; [lia|]. simpl in Hi.
  destruct (macro_position K2 j line p HK2 Hi Hm) as (K1 & K3 & -> & Hj).
  apply Forall_app in HK2 as [_ [Hline _]%Forall_cons].
  pose proof (find_in_written (P ++ [l]) K1 line K3 Hline (mk_is_Some _ _ Hm)) as Hf.
  rewrite <- app_assoc in Hf. simpl in Hf. rewrite length_app in Hf. simpl in Hf.
  replace (length P + 1 + length (flat_map (expand reg refs) K1)
           + length (block_lines reg refs line)) with i in Hf by lia.
  apply find_docblock_above_Some in Hblock. rewrite Hblock in Hf.
  injection Hf as Ha' Hb'. lia.
Qed.

Lemma main_loop_app skip : ∀ A B i,
  main_loop reg refs skip i (A ++ B)
  = main_loop reg refs skip i A ++ main_loop reg refs skip (i + length A) B.
Proof.
  induction A as [|x A IH]; intros B i; simpl.
  - by rewrite Nat.add_0_r.
  - rewrite IH. replace (S i + length A) with (i + S (length A)) by lia.
    case_bool_decide; [done|]. by rewrite app_assoc.
Qed.

Lemma main_loop_marked skip : ∀ A i,
  (∀ k, k < length A → i + k ∈ skip) → main_loop reg refs skip i A = [].
Proof.
  induction A as [|x A IH]; intros i Hall; simpl; [done|].
  rewrite bool_decide_true.
  - apply IH. intros k Hk. replace (S i + k) with (i + S k) by lia.
    apply Hall. simpl. lia.
  - rewrite <- (Nat.add_0_r i). apply Hall. simpl. lia.
Qed.

(** The main pass over the file written gives the output of the first
    run again. *)
Lemma main_loop_written : ∀ K P,
  Forall (chunk_ok reg refs) K →
  main_loop reg refs (prescan (P ++ flat_map (expand reg refs) K))
    (length P) (flat_map (expand reg refs) K)
  = flat_map (emit reg refs) K.
Proof.
  induction K as [|l K IH]; intros P HK; [done|].
  pose proof HK as [Hl HK']%Forall_cons.
  assert (P ++ flat_map (expand reg refs) (l :: K)
          = (P ++ block_lines reg refs l ++ [l]) ++ flat_map (expand reg refs) K)
    as Hsplit.
  { cbn [flat_map]. unfold expand at 1. by rewrite <- !app_assoc. }
  set (marks := prescan (P ++ flat_map (expand reg refs) (l :: K))).
  assert (∀ k, k < length (block_lines reg refs l) → length P + k ∈ marks) as Hmarked.
  { intros k Hk. by apply block_marked. }
  assert (length P + length (block_lines reg refs l) ∉ marks) as Hkept.
  { unfold marks. rewrite Hsplit, <- !app_assoc. simpl.
    rewrite (app_assoc P), <- length_app. by apply kept_not_marked. }
  assert (main_loop reg refs marks (S (length P + length (block_lines reg refs l)))
            (flat_map (expand reg refs) K)
          = flat_map (emit reg refs) K) as Hrest.
  { specialize (IH (P ++ block_lines reg refs l ++ [l]) HK').
    rewrite <- Hsplit in IH. fold marks in IH. rewrite <- IH.
    f_equal. rewrite !length_app. simpl. lia. }
  cbn [flat_map]. unfold expand at 1.
  rewrite <- app_assoc, main_loop_app, main_loop_marked by done.
  simpl. rewrite bool_decide_false by done. by rewrite Hrest.
Qed.

End second_run.

(** ** Idempotence *)

Section idempotence.
Variables (reg : GLRegistry) (refs : RefPages).

Lemma emit_block l :
  (block_lines reg refs l = [] ∧ emit reg refs l = [l]) ∨
  (block_lines reg refs l ≠ [] ∧
   emit reg refs l = [join LF (block_lines reg refs l); l]).
Proof.
  rewrite emit_spec. unfold block_lines, build_doc.
  destruct (DEFINE_RE_match l) as [[n1 n2]|]; [|by left].
  destruct (build_doc_lines reg refs n1) as [ds|] eqn:E; [|by left].
  right. simpl. split; [|done].
  apply build_doc_lines_head in E as [rest ->]. done.
Qed.

Lemma emit_nonempty l : emit reg refs l ≠ [].
Proof. by destruct (emit_block l) as [[_ ->]|[_ ->]]. Qed.

Lemma join_emit_expand l :
  join LF (emit reg refs l) = join LF (expand reg refs l).
Proof.
  unfold expand. destruct (emit_block l) as [[-> ->]|[Hne ->]]; [done|].
  by rewrite join_app, join_cons.
Qed.

Lemma join_written K :
  join LF (flat_map (emit reg refs) K) = join LF (flat_map (expand reg refs) K).
Proof.
  induction K as [|l K IH]; [done|]. simpl.
  rewrite !join_app by (apply emit_nonempty || (unfold expand; by destruct (block_lines _ _ _))).
  rewrite join_emit_expand. f_equal.
  destruct K as [|l' K]; [done|]. unfold join_tail.
  simpl flat_map in *. rewrite IH.
  destruct (emit reg refs l' ++ _) eqn:E1.
  { apply app_eq_nil in E1 as [E1 _]. by apply emit_nonempty in E1. }
  destruct (expand reg refs l' ++ _) eqn:E2; [|done].
  apply app_eq_nil in E2 as [E2 _]. unfold expand in E2.
  by destruct (block_lines reg refs l').
Qed.

Lemma chunk_ok_of_clean l :
  no_linebreak l = true →
  match DEFINE_RE_match l with
  | Some (gl_name, _) =>
      match build_doc_lines reg refs gl_name with
      | Some ls => clean_block ls
      | None => false
      end
  | None => true
  end = true →
  chunk_ok reg refs l.
Proof.
  intros Hlb Hgood. split; [done|]. unfold block_lines.
  destruct (DEFINE_RE_match l) as [[n1 n2]|]; [|by left].
  right. split; [done|].
  destruct (build_doc_lines reg refs n1) as [ds|] eqn:E; [|done].
  simpl. by eapply block_ok_of_clean.
Qed.

Lemma written_no_linebreak K :
  Forall (chunk_ok reg refs) K →
  Forall (λ l, no_linebreak l = true) (flat_map (expand reg refs) K).
Proof.
  induction 1 as [|l K [Hl Hb] _ IH]; simpl; [constructor|].
  unfold expand. rewrite <- app_assoc. apply Forall_app_2; [|by constructor].
  destruct Hb as [[_ ->]|[_ (mid & _ & _ & _ & Hlb)]]; [constructor|done].
Qed.

Lemma process_written K :
  Forall (chunk_ok reg refs) K →
  process reg refs (join LF (flat_map (emit reg refs) K) +:+ LF)
  = join LF (flat_map (emit reg refs) K) +:+ LF.
Proof.
  intros HK. destruct K as [|l K].
  { reflexivity. }
  unfold process at 1. f_equal.
  rewrite join_written, splitlines_join.
  - rewrite <- join_written. f_equal. unfold process_lines.
    apply (main_loop_written reg refs (l :: K) [] HK).
  - simpl. unfold expand. by destruct (block_lines reg refs l).
  - by apply written_no_linebreak.
Qed.

End idempotence.

(** C1 as stated fails: glBar is unknown to both sources and two comment
    blocks stand above its macro line; the first run removes the lower
    one, the second run removes the upper one. *)
Lemma second_run_differs :
  process registry0 no_refs stacked_text
    = "/** a */" +:+ LF +:+ "#define glBar glad_glBar" +:+ LF ∧
  process registry0 no_refs (process registry0 no_refs stacked_text)
    = "#define glBar glad_glBar" +:+ LF ∧
  process registry0 no_refs (process registry0 no_refs stacked_text)
    ≠ process registry0 no_refs stacked_text.
Proof. by vm_compute. Qed.

(** The block must be clean: with the version text "/**" the second run
    takes the note line for the start of the block and leaves the lines
    above it in place. *)
Example unclean_block_not_idempotent :
  docs_clean odd_registry no_refs (splitlines header_text) = false ∧
  process odd_registry no_refs (process odd_registry no_refs header_text)
    ≠ process odd_registry no_refs header_text.
Proof. by vm_compute. Qed.

(** ** The embedding on concrete inputs *)

Example python_strings :
  norm_ws ("  void   " +:+ LF +:+ " glFoo ") = "void glFoo" ∧
  strip "  a b  " = "a b" ∧
  splitlines ("a" +:+ String "013" LF +:+ "b" +:+ LF +:+ LF +:+ "c")
    = ["a"; "b"; ""; "c"] ∧
  splitlines LF = [""] ∧
  split_on "." "4.0" = ["4"; "0"] ∧
  Py.int " 1_0 " = Some 10%Z ∧ Py.int "1__0" = None ∧ Py.int "-3" = Some (-3)%Z ∧
  Py.int (String "031" "7") = None ∧ Py.int "- 1" = None ∧ Py.int "01" = Some 1%Z ∧
  version_tuple "3.3" = Some [3; 3]%Z ∧ version_tuple "4.x" = None ∧
  tuple_lt [3; 3]%Z [10; 0]%Z = true ∧ tuple_lt [1]%Z [1; 0]%Z = true ∧
  sorted ["GL_b"; "GL_ARB"; "GL_a"] = ["GL_ARB"; "GL_a"; "GL_b"].
Proof. by vm_compute. Qed.

Example type_texts :
  type_text "glFoo" "void glFoo" = "void" ∧
  type_text "x" "const GLint *x" = "const GLint *" ∧
  type_text "x" "GLint xx" = "GLint xx" ∧
  remove "APIENTRY" "void APIENTRY" = "void ".
Proof. by vm_compute. Qed.

Example macro_pattern :
  DEFINE_RE_match "#define glFoo glad_glFoo" = Some ("glFoo", "glad_glFoo") ∧
  DEFINE_RE_match "  #  define   glFoo    glad_glFoo  " = Some ("glFoo", "glad_glFoo") ∧
  DEFINE_RE_match "#define glFoo glad_glFoo // x" = None ∧
  DEFINE_RE_match "#define gl glad_glFoo" = None ∧
  DEFINE_RE_match "#define GL_FOO 1" = None ∧
  DEFINE_RE_match "#defineglFoo glad_glFoo" = None.
Proof. by vm_compute. Qed.

(** The end-to-end example: no reference page, one parameter, a void
    return type, feature version 4.0. *)
Example end_to_end :
  process (load_registry example_registry_xml) no_refs
    ("#define glFoo glad_glFoo" +:+ LF)
  = "/**" +:+ LF
    +:+ " * \param x (GLint)" +:+ LF
    +:+ " * \see https://registry.khronos.org/OpenGL-Refpages/gl4/html/glFoo.xhtml" +:+ LF
    +:+ " * \note Introduced in OpenGL 4.0" +:+ LF
    +:+ " */" +:+ LF
    +:+ "#define glFoo glad_glFoo" +:+ LF.
Proof. by vm_compute. Qed.

(** ** White space normalisation *)

Lemma split_tokens s : Forall is_token (split s).
Proof.
  induction s as [|c s IH]; [constructor|]. cbn [split].
  destruct (is_space c) eqn:Hc; [done|].
  destruct s as [|c' s'].
  - repeat constructor; [done|]. simpl. by rewrite Hc.
  - destruct (is_space c') eqn:Hc'.
    + constructor; [|done]. split; [done|]. simpl. by rewrite Hc.
    + destruct (split (String c' s')) as [|w ws].
      * repeat constructor; [done|]. simpl. by rewrite Hc.
      * apply Forall_cons in IH as [[Hw1 Hw2] Hws]. constructor; [|done].
        split; [done|]. simpl. by rewrite Hc, Hw2.
Qed.

Lemma split_token w : is_token w → split w = [w].
Proof.
  intros [Hne Hw]. induction w as [|c w IH]; [done|]. cbn [split].
  simpl in Hw. apply andb_true_iff in Hw as [Hc Hw].
  apply negb_true_iff in Hc. rewrite Hc.
  destruct w as [|c' w']; [done|].
  pose proof Hw as Hw'. simpl in Hw'. apply andb_true_iff in Hw' as [Hc' _].
  apply negb_true_iff in Hc'. rewrite Hc'. by rewrite IH.
Qed.

Lemma split_token_space w r :
  is_token w → split (w +:+ String " " r) = w :: split r.
Proof.
  intros [Hne Hw]. induction w as [|c w IH]; [done|].
  rewrite append_cons. cbn [split].
  simpl in Hw. apply andb_true_iff in Hw as [Hc Hw].
  apply negb_true_iff in Hc. rewrite Hc.
  destruct w as [|c' w'].
  - simpl String.append. change (is_space " ") with true. cbv iota. done.
  - pose proof Hw as Hw'. simpl in Hw'. apply andb_true_iff in Hw' as [Hc' _].
    apply negb_true_iff in Hc'. rewrite append_cons, Hc'.
    rewrite <- append_cons, IH by done. done.
Qed.

Lemma split_join ws : Forall is_token ws → split (join " " ws) = ws.
Proof.
  induction 1 as [|w ws Hw Hws IH]; [done|].
  rewrite join_cons. destruct ws as [|w' ws'].
  - simpl join_tail. rewrite append_nil_r. by apply split_token.
  - unfold join_tail. change (" " +:+ ?x) with (String " " x).
    rewrite split_token_space by done. by rewrite IH.
Qed.

Lemma split_nil s : split s = [] ↔ all_chars is_space s = true.
Proof.
  induction s as [|c s IH]; [done|]. cbn [split all_chars].
  destruct (is_space c) eqn:Hc; simpl; [done|].
  split; [|done]. destruct s as [|c' s']; [done|].
  destruct (is_space c'); [done|]. by destruct (split (String c' s')).
Qed.

Lemma rstrip_token w : is_token w → rstrip w = w.
Proof.
  intros [Hne Hw]. induction w as [|c w IH]; [done|]. cbn [rstrip].
  simpl in Hw. apply andb_true_iff in Hw as [Hc Hw].
  apply negb_true_iff in Hc. destruct w as [|c' w'].
  - simpl. by rewrite Hc.
  - rewrite IH by done. done.
Qed.

Lemma rstrip_app_fixed a x : rstrip x = x → x ≠ "" → rstrip (a +:+ x) = a +:+ x.
Proof.
  intros Hx Hne. induction a as [|c a IH]; [done|].
  rewrite append_cons. cbn [rstrip]. rewrite IH.
  destruct (a +:+ x) eqn:E; [|done]. by destruct a.
Qed.

Lemma join_tokens_nonempty w ws : is_token w → join " " (w :: ws) ≠ "".
Proof.
  intros [Hne _]. rewrite join_cons. by destruct w.
Qed.

Lemma rstrip_join ws : Forall is_token ws → rstrip (join " " ws) = join " " ws.
Proof.
  induction 1 as [|w ws Hw Hws IH]; [done|].
  rewrite join_cons. destruct ws as [|w' ws'].
  - simpl join_tail. rewrite append_nil_r. by apply rstrip_token.
  - unfold join_tail. apply rstrip_app_fixed.
    + change (" " +:+ ?x) with (String " " x). cbn [rstrip]. rewrite IH.
      destruct (join " " (w' :: ws')) eqn:E; [|done].
      apply Forall_cons in Hws as [Hw' _].
      by apply join_tokens_nonempty in E.
    + done.
Qed.

Lemma lstrip_join ws : Forall is_token ws → lstrip (join " " ws) = join " " ws.
Proof.
  intros [|w rest [Hne Hw] _]; [done|].
  rewrite join_cons. destruct w as [|c w]; [done|].
  simpl in Hw. apply andb_true_iff in Hw as [Hc _].
  apply negb_true_iff in Hc. rewrite append_cons. simpl. by rewrite Hc.
Qed.

Lemma only_spaces_join ws :
  Forall is_token ws → only_spaces (join " " ws) = true.
Proof.
  assert (∀ w, is_token w → only_spaces w = true) as Htok.
  { intros w [_ Hw]. unfold only_spaces.
    eapply all_chars_impl; [|exact Hw]. intros c Hc. simpl in *. by rewrite Hc. }
  induction 1 as [|w ws Hw Hws IH]; [done|].
  rewrite join_cons. unfold only_spaces in *. rewrite all_chars_app.
  rewrite (Htok w Hw). destruct ws as [|w' ws']; [done|].
  unfold join_tail. change (" " +:+ ?x) with (String " " x).
  cbn [all_chars]. rewrite IH. done.
Qed.

Lemma norm_ws_idem s : norm_ws (norm_ws s) = norm_ws s.
Proof. unfold norm_ws. by rewrite split_join by apply split_tokens. Qed.

Lemma norm_ws_strip s : strip (norm_ws s) = norm_ws s.
Proof.
  unfold norm_ws, strip.
  by rewrite lstrip_join, rstrip_join by apply split_tokens.
Qed.

Lemma norm_ws_empty s : norm_ws s = "" ↔ is_blank s = true.
Proof.
  rewrite is_blank_spec, <- split_nil. unfold norm_ws. split.
  - pose proof (split_tokens s) as Ht.
    destruct (split s) as [|w ws]; [done|].
    apply Forall_cons in Ht as [Hw _]. intros E.
    by apply join_tokens_nonempty in E.
  - by intros ->.
Qed.

(** X1: [norm_ws] is idempotent; its result has no white space at either
    end and no white space but the space character; it is empty exactly
    for a blank text. *)
Theorem norm_ws_normal (s : string) :
  norm_ws (norm_ws s) = norm_ws s ∧
  strip (norm_ws s) = norm_ws s ∧
  only_spaces (norm_ws s) = true ∧
  (norm_ws s = "" ↔ is_blank s = true).
Proof.
  split_and!.
  - apply norm_ws_idem.
  - apply norm_ws_strip.
  - apply only_spaces_join, split_tokens.
  - apply norm_ws_empty.
Qed.

Lemma norm_ws_normal_witness :
  norm_ws (String "009" "  ") = "" ∧ norm_ws " a   b " = "a b".
Proof.
  split.
  - apply (proj2 (proj2 (proj2 (proj2 (norm_ws_normal (String "009" "  ")))))).
    reflexivity.
  - reflexivity.
Defined.

(** ** Canonical names *)

Section canonical.
Variable al : gmap string string.

Lemma resolve_loop_chain fuel : ∀ seen cur seen' r,
  resolve_loop al fuel seen cur = Some (seen', r) →
  NoDup seen → alias_chain al seen cur →
  NoDup seen' ∧ alias_chain al seen' r.
Proof.
  induction fuel as [|fuel IH]; intros seen cur seen' r; simpl.
  - destruct (al !! cur) as [nxt|] eqn:E.
    + case_bool_decide as Hc; [|done]. by intros [= <- <-].
    + by intros [= <- <-].
  - destruct (al !! cur) as [nxt|] eqn:E.
    + case_bool_decide as Hc; [by intros [= <- <-]|].
      intros Hrun Hnd Hch. eapply IH; [exact Hrun|by constructor|done].
    + by intros [= <- <-].
Qed.

Lemma alias_chain_has_alias seen cur x :
  alias_chain al seen cur → x ∈ seen → is_Some (al !! x).
Proof.
  revert cur. induction seen as [|y seen IH]; intros cur; simpl.
  - intros _ Hx. by apply elem_of_nil in Hx.
  - intros [Hy Hch] [->|Hx]%elem_of_cons; eauto.
Qed.

Lemma alias_chain_tc seen cur x :
  alias_chain al seen cur → x ∈ seen → tc (alias_step al) x cur.
Proof.
  revert cur. induction seen as [|y seen IH]; intros cur; simpl.
  - intros _ Hx. by apply elem_of_nil in Hx.
  - intros [Hy Hch] [->|Hx]%elem_of_cons.
    + by apply tc_once.
    + eapply tc_r; [by eapply IH|done].
Qed.

Lemma alias_path_snoc p : ∀ cur x t,
  alias_path al cur p x → al !! x = Some t → alias_path al cur (p ++ [x]) t.
Proof.
  induction p as [|y p IH]; intros cur x t; simpl.
  - intros -> Hx. eauto.
  - intros (-> & nxt & Hn & Hp) Hx. split; [done|]. exists nxt. eauto.
Qed.

Lemma alias_chain_path l2 : ∀ y l1 cur,
  alias_chain al (l2 ++ y :: l1) cur → alias_path al y (y :: reverse l2) cur.
Proof.
  induction l2 as [|x l2 IH]; intros y l1 cur.
  - simpl. intros [Hy _]. eauto.
  - intros [Hx Hch]. specialize (IH _ _ _ Hch).
    rewrite reverse_cons.
    apply (alias_path_snoc (y :: reverse l2) y x cur IH Hx).
Qed.

(** The loop along a known run of fresh names. *)
Lemma resolve_loop_path p : ∀ cur s0 t fuel,
  alias_path al cur p t → NoDup (p ++ s0) →
  t ∈ reverse p ++ s0 ∨ al !! t = None →
  length p ≤ fuel →
  resolve_loop al fuel s0 cur = Some (reverse p ++ s0, t).
Proof.
  induction p as [|x p IH]; intros cur s0 t fuel; simpl;
    rewrite ?reverse_nil, ?reverse_cons; simpl.
  - intros -> _ Ht _.
    assert (match al !! t with
            | Some _ => if bool_decide (t ∈ s0) then Some (s0, t) else None
            | None => Some (s0, t)
            end = Some (s0, t)) as Hexit.
    { destruct (al !! t) eqn:E; [|done].
      destruct Ht as [Ht|Ht]; [|done]. by rewrite bool_decide_true. }
    destruct fuel; simpl; destruct (al !! t); try done;
      case_bool_decide; try done; destruct Ht as [Ht|Ht]; done.
  - intros (-> & nxt & Hn & Hp) Hnd Ht Hfuel.
    apply NoDup_cons in Hnd as [Hfresh Hnd].
    destruct fuel as [|fuel]; [lia|]. simpl. rewrite Hn.
    rewrite bool_decide_false by (intros ?; apply Hfresh, elem_of_app; auto).
    rewrite <- app_assoc. simpl. apply IH; [done| | |lia].
    + apply NoDup_app. apply NoDup_app in Hnd as (Hp1 & Hp2 & Hp3).
      split_and!; [done| |].
      * intros y Hy [->|Hy']%elem_of_cons.
        -- apply Hfresh, elem_of_app. auto.
        -- by eapply Hp2.
      * constructor; [|done]. intros ?. apply Hfresh, elem_of_app. auto.
    + destruct Ht as [Ht|Ht]; [left|by right].
      rewrite <- app_assoc in Ht. exact Ht.
Qed.

Lemma resolve_run_total name :
  ∃ seen r, resolve_run al name = Some (seen, r).
Proof.
  apply resolve_loop_total; [constructor| |simpl; lia].
  intros x Hx. by apply elem_of_nil in Hx.
Qed.

(** A name on a cycle resolves to itself. *)
Lemma resolve_run_on_cycle seen r :
  NoDup seen → alias_chain al seen r → r ∈ seen →
  ∃ seen', resolve_run al r = Some (seen', r).
Proof.
  intros Hnd Hch Hin.
  apply list_elem_of_split in Hin as (l2 & l1 & ->).
  pose proof (alias_chain_path _ _ _ _ Hch) as Hp.
  exists (reverse (r :: reverse l2) ++ []). unfold resolve_run.
  apply resolve_loop_path.
  - done.
  - rewrite app_nil_r. apply NoDup_app in Hnd as (Hl2 & Hdisj & Hl1).
    apply NoDup_cons in Hl1 as [Hr _]. constructor.
    + rewrite elem_of_reverse. intros Hr2. eapply Hdisj; [done|by left].
    + by rewrite reverse_Permutation.
  - left. rewrite app_nil_r, elem_of_reverse. by left.
  - simpl. rewrite length_reverse.
    assert (length (r :: l2) ≤ size al) as Hb.
    { apply seen_bounded.
      - apply NoDup_app in Hnd as (Hl2 & Hdisj & Hl1).
        apply NoDup_cons in Hl1 as [Hr _]. constructor; [|done].
        intros Hr2. eapply Hdisj; [done|by left].
      - intros x Hx. eapply alias_chain_has_alias; [exact Hch|].
        apply elem_of_app.
        apply elem_of_cons in Hx as [->|Hx]; [right; by left|by left]. }
    simpl in Hb. lia.
Qed.

End canonical.

Lemma resolve_alias_run reg name seen r :
  resolve_run (alias_of reg) name = Some (seen, r) → resolve_alias reg name = r.
Proof. unfold resolve_alias. by intros ->. Qed.

Lemma resolve_alias_no_alias reg name :
  alias_of reg !! name = None → resolve_alias reg name = name.
Proof.
  intros Hn. unfold resolve_alias, resolve_run.
  destruct (size (alias_of reg)); simpl; by rewrite Hn.
Qed.

Lemma resolve_alias_idem reg name :
  resolve_alias reg (resolve_alias reg name) = resolve_alias reg name.
Proof.
  destruct (resolve_run_total (alias_of reg) name) as (seen & r & Hrun).
  rewrite (resolve_alias_run _ _ _ _ Hrun).
  destruct (resolve_loop_chain _ _ _ _ _ _ Hrun) as [Hnd Hch];
    [constructor|done|].
  destruct (resolve_loop_exit _ _ _ _ _ _ Hrun) as [Hend|Hin].
  - by apply resolve_alias_no_alias.
  - destruct (resolve_run_on_cycle _ _ _ Hnd Hch Hin) as [seen' Hrun'].
    by eapply resolve_alias_run.
Qed.

Lemma resolve_alias_end reg name r :
  rtc (alias_step (alias_of reg)) name r → alias_of reg !! r = None →
  resolve_alias reg name = r.
Proof.
  intros Hreach Hend.
  destruct (resolve_run_total (alias_of reg) name) as (seen & r' & Hrun).
  rewrite (resolve_alias_run _ _ _ _ Hrun).
  pose proof (resolve_loop_reach _ _ _ _ _ _ Hrun) as Hr'.
  pose proof (alias_chain_linear _ _ _ _ Hr' Hreach Hend) as Hr'r.
  destruct (resolve_loop_chain _ _ _ _ _ _ Hrun) as [Hnd Hch];
    [constructor|done|].
  destruct (resolve_loop_exit _ _ _ _ _ _ Hrun) as [Hend'|Hin].
  - inversion Hr'r as [|? y ? Hs]; [done|]. unfold alias_step in Hs. congruence.
  - exfalso. eapply no_cycle_before_end; [exact Hr'r|exact Hend|].
    by eapply alias_chain_tc.
Qed.

(** X2: when the chain of aliases from a name ends at a name without
    alias, [resolve_alias] returns that name, however long the chain. *)
Theorem resolve_alias_finds_end (reg : GLRegistry) (name r : string) :
  rtc (alias_step (alias_of reg)) name r → alias_of reg !! r = None →
  resolve_alias reg name = r.
Proof. apply resolve_alias_end. Qed.

Lemma resolve_alias_finds_end_witness :
  resolve_alias alias_table_registry "glC" = "glA".
Proof.
  apply (resolve_alias_finds_end alias_table_registry "glC" "glA").
  - apply rtc_l with "glB"; [reflexivity|].
    apply rtc_l with "glA"; [reflexivity|]. apply rtc_refl.
  - reflexivity.
Defined.

(** X3: [resolve_alias] is idempotent, on chains and on cycles alike, and
    so is [signature_canonical] in its name: the canonical name of a
    canonical name is itself, and asking by the canonical name gives the
    same signature, reported under the name [resolve_alias] returns. *)
Theorem canonical_name_stable (reg : GLRegistry) (name : string) :
  resolve_alias reg (resolve_alias reg name) = resolve_alias reg name ∧
  signature_canonical reg (resolve_alias reg name) = signature_canonical reg name ∧
  (signature_canonical reg name
   = (λ sig, (sig.1, sig.2, resolve_alias reg name))
       <$> signature reg (resolve_alias reg name)).
Proof.
  split_and!.
  - apply resolve_alias_idem.
  - unfold signature_canonical. by rewrite resolve_alias_idem.
  - unfold signature_canonical.
    by destruct (signature reg (resolve_alias reg name)) as [[ret ps]|].
Qed.

(** ** Extensions *)

Lemma str_le_total a : ∀ b, str_le a b = false → str_le b a = true.
Proof.
  induction a as [|x a IH]; intros [|y b]; simpl; try done.
  destruct (code x <? code y)%N eqn:Hxy; [done|].
  destruct (code y <? code x)%N eqn:Hyx; [done|]. apply IH.
Qed.

Lemma insert_sorted_head x l :
  match insert_sorted x l with
  | [] => False
  | h :: _ => h = x ∨ ∃ t, l = h :: t
  end.
Proof.
  destruct l as [|y l]; simpl; [by left|].
  destruct (str_le x y); [by left|]. right. eauto.
Qed.

Lemma insert_sorted_sorted x l :
  is_sorted l = true → is_sorted (insert_sorted x l) = true.
Proof.
  induction l as [|y l IH]; [done|]. intros Hl. cbn [insert_sorted].
  destruct (str_le x y) eqn:Hxy.
  - change (is_sorted (x :: y :: l)) with (str_le x y && is_sorted (y :: l)).
    by rewrite Hxy.
  - assert (is_sorted l = true) as Hl'.
    { destruct l as [|z l]; [done|].
      change (is_sorted (y :: z :: l))
        with (str_le y z && is_sorted (z :: l)) in Hl.
      by apply andb_true_iff in Hl as [_ ?]. }
    specialize (IH Hl').
    pose proof (insert_sorted_head x l) as Hh.
    destruct (insert_sorted x l) as [|h t] eqn:E; [done|].
    change (is_sorted (y :: h :: t)) with (str_le y h && is_sorted (h :: t)).
    rewrite IH, andb_true_r.
    destruct Hh as [->|[t' ->]]; [by apply str_le_total|].
    change (is_sorted (y :: h :: t'))
      with (str_le y h && is_sorted (h :: t')) in Hl.
    by apply andb_true_iff in Hl as [? _].
Qed.

Lemma sorted_sorted l : is_sorted (sorted l) = true.
Proof.
  induction l as [|x l IH]; [done|]. simpl. by apply insert_sorted_sorted.
Qed.

Lemma insert_sorted_perm x l : insert_sorted x l ≡ₚ x :: l.
Proof.
  induction l as [|y l IH]; [done|]. simpl.
  destruct (str_le x y); [done|]. rewrite IH. apply Permutation_swap.
Qed.

Lemma sorted_perm l : sorted l ≡ₚ l.
Proof.
  induction l as [|x l IH]; [done|]. simpl.
  by rewrite insert_sorted_perm, IH.
Qed.

(** X4: the extension list of [version_or_exts] is sorted, free of
    duplicates, and holds exactly the extensions recorded for the literal
    name or for the canonical name; the version of the literal name wins
    over the version of the canonical name. *)
Theorem version_or_exts_spec (reg : GLRegistry) (name : string) :
  is_sorted (version_or_exts reg name).2 = true ∧
  NoDup (version_or_exts reg name).2 ∧
  (∀ x, x ∈ (version_or_exts reg name).2 ↔
        x ∈ default ∅ (extensions_for_cmd reg !! name) ∨
        x ∈ default ∅ (extensions_for_cmd reg !! resolve_alias reg name)) ∧
  (∀ v, introduced_version reg !! name = Some v →
        (version_or_exts reg name).1 = Some v) ∧
  (introduced_version reg !! name = None →
   (version_or_exts reg name).1
   = introduced_version reg !! resolve_alias reg name).
Proof.
  unfold version_or_exts. cbn [fst snd]. split_and!.
  - apply sorted_sorted.
  - rewrite sorted_perm. apply NoDup_elements.
  - intros x. rewrite sorted_perm, elem_of_elements, elem_of_union. done.
  - by intros v ->.
  - by intros ->.
Qed.

Lemma version_or_exts_spec_witness :
  (version_or_exts registry0 "glFooEXT").1 = Some "3.3".
Proof.
  rewrite (proj2 (proj2 (proj2 (proj2
             (version_or_exts_spec registry0 "glFooEXT"))))).
  - by vm_compute.
  - by vm_compute.
Defined.

Lemma lookup_add_ext (ex : gmap string (gset string)) k e nm :
  <[k := {[e]} ∪ default ∅ (ex !! k)]> ex !! nm
  = if String.eqb k nm then add_ext (ex !! nm) e else ex !! nm.
Proof.
  destruct (String.eqb k nm) eqn:E.
  - apply String.eqb_eq in E as ->. by rewrite lookup_insert_eq.
  - apply String.eqb_neq in E. by rewrite lookup_insert_ne.
Qed.

Lemma lookup_ext_commands ext_name nm : ∀ cs (ex : gmap string (gset string)),
  foldl (λ ex c, let nm := get c "name" in
                 if truthy_opt nm then
                   let nm := text_or_empty nm in
                   <[nm := {[ext_name]} ∪ default ∅ (ex !! nm)]> ex
                 else ex) ex cs !! nm
  = foldl add_ext (ex !! nm) (flat_map (command_exts ext_name nm) cs).
Proof.
  induction cs as [|c cs IH]; intros ex; [done|].
  cbn [foldl flat_map]. rewrite IH, foldl_app. f_equal. unfold command_exts.
  destruct (truthy_opt (get c "name")); [|done].
  cbv zeta. rewrite lookup_add_ext.
  by destruct (String.eqb (text_or_empty (get c "name")) nm).
Qed.

Lemma lookup_ext_requires ext_name nm : ∀ reqs (ex : gmap string (gset string)),
  foldl (λ ex req,
           foldl (λ ex c, let nm := get c "name" in
                          if truthy_opt nm then
                            let nm := text_or_empty nm in
                            <[nm := {[ext_name]} ∪ default ∅ (ex !! nm)]> ex
                          else ex) ex (findall req "command")) ex reqs !! nm
  = foldl add_ext (ex !! nm)
      (flat_map (λ req, flat_map (command_exts ext_name nm) (findall req "command"))
                reqs).
Proof.
  induction reqs as [|req reqs IH]; intros ex; [done|].
  cbn [foldl flat_map]. by rewrite IH, foldl_app, lookup_ext_commands.
Qed.

Lemma lookup_parse_extension nm ex ext :
  parse_extension ex ext !! nm
  = foldl add_ext (ex !! nm) (extension_names_of nm ext).
Proof.
  unfold parse_extension, extension_names_of. cbv zeta.
  destruct (truthy_opt (get ext "name")); [|done].
  apply lookup_ext_requires.
Qed.

Lemma lookup_parse_extensions root nm :
  _parse_extensions root !! nm = foldl add_ext None (extension_names root nm).
Proof.
  unfold _parse_extensions, extension_names.
  assert (∀ exts ex,
            foldl parse_extension ex exts !! nm
            = foldl add_ext (ex !! nm) (flat_map (extension_names_of nm) exts))
    as Hloop.
  { induction exts as [|ext exts IH]; intros ex; [done|].
    cbn [foldl flat_map]. by rewrite IH, foldl_app, lookup_parse_extension. }
  by rewrite Hloop, lookup_empty.
Qed.

Lemma elem_of_add_ext_fold x : ∀ l o,
  x ∈ default ∅ (foldl add_ext o l) ↔ x ∈ l ∨ x ∈ default ∅ o.
Proof.
  induction l as [|e l IH]; intros o; simpl.
  - rewrite elem_of_nil. tauto.
  - rewrite IH. unfold add_ext. simpl.
    rewrite elem_of_union, elem_of_singleton, elem_of_cons. tauto.
Qed.

Lemma add_ext_fold_None l : foldl add_ext None l = None ↔ l = [].
Proof.
  split; [|by intros ->]. destruct l as [|e l]; [done|]. simpl.
  assert (∀ l o, is_Some o → is_Some (foldl add_ext o l)) as Hs.
  { clear. induction l as [|e l IH]; intros o Ho; [done|]. simpl.
    apply IH. unfold add_ext. eauto. }
  intros E. destruct (Hs l (add_ext None e)) as [s Hx]; [by eexists|].
  congruence.
Qed.

(** X5: loading records for a command exactly the named extensions that
    require it: an extension is in the set of a command when a
    [require/command] entry with that command name stands in an extension
    element with that (non-empty) name; a command no extension requires
    has no entry; [version_or_exts] lists these names for the literal and
    the canonical name. *)
Theorem extensions_loaded (root : Element) (nm : string) :
  (∀ x, x ∈ default ∅ (extensions_for_cmd (load_registry root) !! nm) ↔
        x ∈ extension_names root nm) ∧
  (extensions_for_cmd (load_registry root) !! nm = None ↔
   extension_names root nm = []) ∧
  (∀ x, x ∈ (version_or_exts (load_registry root) nm).2 ↔
        x ∈ extension_names root nm ∨
        x ∈ extension_names root (resolve_alias (load_registry root) nm)).
Proof.
  assert (∀ n x, x ∈ default ∅ (extensions_for_cmd (load_registry root) !! n) ↔
                 x ∈ extension_names root n) as Hmem.
  { intros n x. unfold load_registry. cbn [extensions_for_cmd].
    rewrite lookup_parse_extensions, elem_of_add_ext_fold. simpl.
    rewrite elem_of_empty. tauto. }
  split_and!.
  - apply Hmem.
  - unfold load_registry. cbn [extensions_for_cmd].
    rewrite lookup_parse_extensions. apply add_ext_fold_None.
  - intros x. unfold version_or_exts. cbn [snd].
    rewrite sorted_perm, elem_of_elements, elem_of_union. by rewrite !Hmem.
Qed.

Lemma extensions_loaded_witness :
  "GL_ARB_foo" ∈ default ∅ (extensions_for_cmd (load_registry extensions_xml)
                              !! "glFooEXT") ∧
  extensions_for_cmd (load_registry extensions_xml) !! "glBar" = None.
Proof.
  split.
  - apply (proj2 (proj1 (extensions_loaded extensions_xml "glFooEXT") "GL_ARB_foo")).
    apply (bool_decide_unpack _). by vm_compute.
  - apply (proj2 (proj1 (proj2 (extensions_loaded extensions_xml "glBar")))).
    reflexivity.
Defined.

Example extensions_example :
  (version_or_exts (load_registry extensions_xml) "glFooEXT").2
    = ["GL_ARB_foo"; "GL_EXT_foo"] ∧
  extension_names extensions_xml "glFoo" = ["GL_EXT_foo"; "GL_ARB_foo"] ∧
  extension_names extensions_xml "glFooEXT" = ["GL_ARB_foo"].
Proof. by vm_compute. Qed.

(** ** What loading stores *)

Lemma rstrip_cons c s :
  rstrip (String c s)
  = match rstrip s with
    | "" => if is_space c then "" else String c ""
    | r => String c r
    end.
Proof. done. Qed.

Lemma rstrip_idem s : rstrip (rstrip s) = rstrip s.
Proof.
  induction s as [|c s IH]; [done|]. rewrite rstrip_cons.
  destruct (rstrip s) as [|d r] eqn:E.
  - destruct (is_space c) eqn:Hc; [done|]. simpl. by rewrite Hc.
  - by rewrite rstrip_cons, IH.
Qed.

Lemma lstrip_rstrip s :
  starts_outside is_space s → lstrip (rstrip s) = rstrip s.
Proof.
  destruct s as [|c s]; [done|]. intros Hc. simpl in Hc. rewrite rstrip_cons.
  destruct (rstrip s); [rewrite Hc|]; simpl; by rewrite Hc.
Qed.

Lemma lstrip_starts_out s : starts_outside is_space (lstrip s).
Proof.
  induction s as [|c s IH]; [done|]. simpl.
  destruct (is_space c) eqn:Hc; [done|]. done.
Qed.

Lemma strip_idem s : strip (strip s) = strip s.
Proof.
  unfold strip.
  rewrite (lstrip_rstrip (lstrip s)) by apply lstrip_starts_out.
  apply rstrip_idem.
Qed.

Lemma norm_ws_fixed_strip s : norm_ws s = s → strip s = s.
Proof. intros <-. apply norm_ws_strip. Qed.

Lemma type_text_normal name text : norm_ws (type_text name text) = type_text name text.
Proof. apply norm_ws_idem. Qed.

Lemma truthy_nonempty s : truthy s = true ↔ s ≠ "".
Proof. unfold truthy. by rewrite negb_true_iff, String.eqb_neq. Qed.

Lemma truthy_opt_nonempty o : truthy_opt o = true → text_or_empty o ≠ "".
Proof. destruct o as [s|]; [|done]. by intros ?%truthy_nonempty. Qed.

Lemma parse_param_ok p q : parse_param p = Some q → param_ok q.
Proof.
  unfold parse_param. cbv zeta.
  destruct (truthy_opt (findtext p "name")) eqn:E; [|done].
  intros [= <-]. split; simpl.
  - by apply truthy_opt_nonempty.
  - apply type_text_normal.
Qed.

Lemma omap_parse_param_ok ps : Forall param_ok (omap parse_param ps).
Proof.
  induction ps as [|p ps IH]; [constructor|]. simpl.
  destruct (parse_param p) as [q|] eqn:E; [|done].
  constructor; [by eapply parse_param_ok|done].
Qed.

Lemma parse_command_ok st cmd : commands_ok st → commands_ok (parse_command st cmd).
Proof.
  intros [Hc Ha]. unfold parse_command.
  destruct (ET.find cmd "proto") as [proto|]; [|done]. cbv zeta.
  destruct (truthy_opt (findtext proto "name")) eqn:Hname; [|done].
  pose proof (truthy_opt_nonempty _ Hname) as Hne.
  split; cbn [fst snd].
  - intros name c. rewrite lookup_insert. case_decide as Hk.
    + intros [= <-]. subst name. split_and!; cbn [c_ret c_params].
      * done.
      * apply norm_ws_idem.
      * apply omap_parse_param_ok.
    + apply Hc.
  - intros name a Hal.
    assert (st.2 !! name = Some a ∨
            (name = text_or_empty (findtext proto "name") ∧
             truthy_opt (get cmd "alias") = true ∧
             a = text_or_empty (get cmd "alias"))) as [Hold|(-> & Htr & ->)].
    { destruct (truthy_opt (get cmd "alias")) eqn:Htr; [|by left].
      rewrite lookup_insert in Hal. case_decide as Hk; [|by left].
      right. by injection Hal as <-. }
    + destruct (Ha _ _ Hold) as [? [c Hc']]. split; [done|].
      rewrite lookup_insert. case_decide; eauto.
    + split; [by apply truthy_opt_nonempty|].
      rewrite lookup_insert_eq. eauto.
Qed.

Lemma parse_commands_ok root : commands_ok (_parse_commands root).
Proof.
  unfold _parse_commands.
  assert (∀ cmds st, commands_ok st → commands_ok (foldl parse_command st cmds))
    as Hloop.
  { induction cmds as [|cmd cmds IH]; intros st Hst; [done|].
    simpl. by apply IH, parse_command_ok. }
  apply Hloop. split; intros ? ?; cbn [fst snd]; by rewrite lookup_empty.
Qed.

(** X6: after loading, every command is stored under a name that is not
    empty, with a return type and parameter types that are white space
    normalised (so stripping them changes nothing) and with parameter
    names that are not empty; every alias entry has a target that is not
    empty and belongs to a name that is itself a stored command. *)
Theorem loaded_commands_normal (root : Element) :
  (∀ name c, commands (load_registry root) !! name = Some c →
     name ≠ "" ∧ norm_ws (c_ret c) = c_ret c ∧ strip (c_ret c) = c_ret c ∧
     Forall param_ok (c_params c)) ∧
  (∀ name a, alias_of (load_registry root) !! name = Some a →
     a ≠ "" ∧ is_Some (commands (load_registry root) !! name)).
Proof.
  destruct (parse_commands_ok root) as [Hc Ha]. split.
  - intros name c Hl. destruct (Hc name c Hl) as (H1 & H2 & H3).
    split_and!; try done. by apply norm_ws_fixed_strip.
  - intros name a. apply Ha.
Qed.

Lemma loaded_commands_normal_witness :
  strip "GLint" = "GLint" ∧
  is_Some (commands (load_registry twice_xml) !! "glBar").
Proof.
  split.
  - apply (proj1 (loaded_commands_normal twice_xml) "glBar"
             (mkCommand "GLint" [mkParam "const GLfloat *" "v" None (Some "n")] None)).
    by vm_compute.
  - apply (proj2 (loaded_commands_normal twice_xml) "glBar" "glFoo").
    by vm_compute.
Defined.

(** ** What the reference pages return *)

Lemma paramdef_ok_intro p q : paramdef p = Some q → paramdef_ok q.
Proof.
  unfold paramdef. cbv zeta.
  destruct (truthy (strip _)) eqn:E; [|done]. intros [= <-].
  split_and!; cbn [fst snd].
  - by apply truthy_nonempty.
  - apply strip_idem.
  - apply type_text_normal.
Qed.

Lemma omap_paramdef_ok ps : Forall paramdef_ok (omap paramdef ps).
Proof.
  induction ps as [|p ps IH]; [constructor|]. simpl.
  destruct (paramdef p) as [q|] eqn:E; [|done].
  constructor; [by eapply paramdef_ok_intro|done].
Qed.

Lemma c_signature_loop_ok func protos ret ps :
  c_signature_loop func protos = Some (ret, ps) →
  norm_ws ret = ret ∧ Forall paramdef_ok ps.
Proof.
  induction protos as [|proto protos IH]; [done|]. cbn [c_signature_loop].
  cbv zeta.
  destruct (match ET.find proto (db "funcdef") with
            | Some _ => _ | None => _ end) as [fdef|]; [|done].
  destruct (negb _); [done|]. intros [= <- <-]. split.
  - apply type_text_normal.
  - apply omap_paramdef_ok.
Qed.

(** X7: a signature that [c_signature] returns has a white space
    normalised return type (stripping it changes nothing), and every
    parameter has a name that is not empty and has no white space at
    either end, with a normalised type; without a document for the name
    there is no signature. *)
Theorem c_signature_normal (refs : RefPages) (func ret : string)
    (ps : list (string * string)) :
  (c_signature refs func = Some (ret, ps) →
     norm_ws ret = ret ∧ strip ret = ret ∧ Forall paramdef_ok ps) ∧
  (load refs func = None → c_signature refs func = None).
Proof.
  unfold c_signature. split.
  - destruct (load refs func) as [root|]; [|done].
    intros [H1 H2]%c_signature_loop_ok. split_and!; try done.
    by apply norm_ws_fixed_strip.
  - by intros ->.
Qed.

Lemma c_signature_normal_witness :
  norm_ws "void" = "void" ∧ strip "void" = "void" ∧
  Forall paramdef_ok [("GLint", "first")].
Proof.
  apply (proj1 (c_signature_normal draw_refs "glDraw" "void" [("GLint", "first")])).
  by vm_compute.
Defined.

Lemma entry_terms_stripped e nm : nm ∈ entry_terms e → strip nm = nm.
Proof.
  unfold entry_terms. intros (t & Ht & Heq)%list_elem_of_omap.
  destruct (truthy_opt _); [|done]. injection Heq as <-. apply strip_idem.
Qed.

Lemma entry_desc_normal e : norm_ws (entry_desc e) = entry_desc e.
Proof.
  unfold entry_desc.
  destruct (match ET.find e (db "listitem") with
            | Some _ => _ | None => _ end); [apply norm_ws_idem|done].
Qed.

Lemma add_entry_ok out e :
  (∀ nm d, out !! nm = Some d → description_ok nm d) →
  ∀ nm d, add_entry out e !! nm = Some d → description_ok nm d.
Proof.
  intros Hout nm d. rewrite lookup_add_entry.
  destruct (truthy (entry_desc e)) eqn:Ht; simpl; [|apply Hout].
  case_bool_decide as Hin; [|apply Hout]. intros [= <-]. split_and!.
  - by apply truthy_nonempty.
  - apply entry_desc_normal.
  - by eapply entry_terms_stripped.
Qed.

Lemma param_descriptions_ok refs func nm d :
  param_descriptions refs func !! nm = Some d → description_ok nm d.
Proof.
  unfold param_descriptions.
  destruct (load refs func) as [root|]; [|by rewrite lookup_empty].
  destruct (param_section root) as [sect|]; [|by rewrite lookup_empty].
  rewrite foldl_flat_map. revert nm d.
  assert (∀ es out, (∀ nm d, out !! nm = Some d → description_ok nm d) →
                    ∀ nm d, foldl add_entry out es !! nm = Some d →
                            description_ok nm d) as Hloop.
  { induction es as [|e es IH]; intros out Hout; [done|]. simpl.
    by apply IH, add_entry_ok. }
  apply Hloop. intros nm d. by rewrite lookup_empty.
Qed.

(** X8: every description in the mapping of [param_descriptions] is not
    empty and white space normalised, under a parameter name without
    white space at either end; an entry whose description is blank adds
    nothing; without a document, or without a parameters section, the
    mapping is empty. *)
Theorem param_descriptions_normal (refs : RefPages) (func : string) :
  (∀ nm d, param_descriptions refs func !! nm = Some d →
           d ≠ "" ∧ norm_ws d = d ∧ strip nm = nm) ∧
  (∀ out e, entry_desc e = "" → add_entry out e = out) ∧
  (load refs func = None → param_descriptions refs func = ∅) ∧
  (∀ root, load refs func = Some root → param_section root = None →
           param_descriptions refs func = ∅).
Proof.
  split_and!.
  - intros nm d. apply param_descriptions_ok.
  - intros out e He. apply map_eq. intros nm.
    rewrite lookup_add_entry, He. done.
  - unfold param_descriptions. by intros ->.
  - unfold param_descriptions. by intros root -> ->.
Qed.

Lemma param_descriptions_normal_witness :
  ("the abscissa" ≠ "" ∧ norm_ws "the abscissa" = "the abscissa" ∧
   strip "x" = "x") ∧
  param_descriptions sparse_refs "glPoint" !! "y" = None ∧
  param_descriptions sparse_refs "glOther" = ∅.
Proof.
  split; [|split].
  - apply (proj1 (param_descriptions_normal sparse_refs "glPoint")
             "x" "the abscissa").
    by vm_compute.
  - by vm_compute.
  - apply (proj1 (proj2 (proj2 (param_descriptions_normal sparse_refs "glOther")))).
    by vm_compute.
Defined.

(** X9: a brief description that [brief] returns is white space
    normalised; [brief] returns none without a document, and also when
    the first purpose element found has no text. *)
Theorem brief_normal (refs : RefPages) (func : string) :
  (∀ b, brief refs func = Some b → norm_ws b = b ∧ strip b = b) ∧
  (load refs func = None → brief refs func = None) ∧
  (∀ root, load refs func = Some root →
           truthy_opt (findtext_deep root (db "refpurpose")) = false →
           truthy_opt (findtext_deep root "refpurpose") = false →
           brief refs func = None).
Proof.
  unfold brief. split_and!.
  - intros b. destruct (load refs func) as [root|]; [|done]. cbv zeta.
    destruct (truthy_opt (if truthy_opt _ then _ else _)); [|done].
    intros [= <-]. split; [apply norm_ws_idem|apply norm_ws_strip].
  - by intros ->.
  - intros root -> H1 H2. cbv zeta. by rewrite H1, H2.
Qed.

Lemma brief_normal_witness :
  norm_ws "render primitives" = "render primitives" ∧
  strip "render primitives" = "render primitives".
Proof.
  apply (proj1 (brief_normal draw_refs "glDraw") "render primitives").
  by vm_compute.
Defined.

(** ** The lines of a block *)

Lemma filter_filter_names (seen : gset string) n (l : list (string * string)) :
  filter (λ q, q.2 ∉ seen) (filter (λ q, q.2 ≠ n) l)
  = filter (λ q, q.2 ∉ {[n]} ∪ seen) l.
Proof.
  induction l as [|q l IH]; [done|].
  rewrite (filter_cons (λ q, q.2 ≠ n)), (filter_cons (λ q, q.2 ∉ {[n]} ∪ seen)).
  destruct (decide (q.2 ≠ n)) as [Hne|He].
  - rewrite filter_cons, IH.
    destruct (decide (q.2 ∉ seen)) as [Hs|Hs].
    + rewrite decide_True; [done|].
      rewrite elem_of_union, elem_of_singleton. tauto.
    + rewrite decide_False; [done|].
      rewrite elem_of_union, elem_of_singleton. tauto.
  - rewrite IH. rewrite decide_False; [done|].
    apply dec_stable in He.
    rewrite elem_of_union, elem_of_singleton. tauto.
Qed.

Lemma filter_names_seen (seen : gset string) n (l : list (string * string)) :
  n ∈ seen →
  filter (λ q, q.2 ∉ seen) (filter (λ q, q.2 ≠ n) l)
  = filter (λ q, q.2 ∉ seen) l.
Proof.
  intros Hn. rewrite filter_filter_names.
  apply list_filter_iff. intros q.
  rewrite elem_of_union, elem_of_singleton.
  split; [tauto|]. intros Hq [Heq|Hs]; [rewrite Heq in Hq|]; auto.
Qed.

Lemma filter_names_none (seen : gset string) (l : list (string * string)) :
  seen = ∅ → filter (λ q, q.2 ∉ seen) l = l.
Proof.
  intros ->. induction l as [|q l IH]; [done|].
  rewrite filter_cons_True by apply not_elem_of_empty. by rewrite IH.
Qed.

Lemma param_lines_first rp pd : ∀ ps (seen_p : gset string),
  param_lines rp pd seen_p ps
  = map (param_line rp pd)
        (filter (λ q, q.2 ∉ seen_p) (first_occurrences ps)).
Proof.
  induction ps as [|[ptype pname] ps IH]; intros seen_p; [done|].
  cbn [param_lines first_occurrences]. rewrite filter_cons. cbn [snd].
  case_bool_decide as Hin.
  - rewrite decide_False by auto. rewrite IH. by rewrite filter_names_seen.
  - rewrite decide_True by done. cbn [map]. f_equal.
    rewrite IH. by rewrite filter_filter_names.
Qed.

Lemma first_occurrences_names ps :
  NoDup (first_occurrences ps).*2 ∧
  ∀ n, n ∈ (first_occurrences ps).*2 ↔ n ∈ ps.*2.
Proof.
  induction ps as [|[t n] ps [IH1 IH2]]; [split; [constructor|done]|].
  cbn [first_occurrences snd].
  assert (∀ m, m ∈ (filter (λ q : string * string, q.2 ≠ n)
                       (first_occurrences ps)).*2 ↔ m ∈ ps.*2 ∧ m ≠ n) as Hf.
  { intros m. rewrite <- IH2, !list_elem_of_fmap. split.
    - intros (q & -> & [Hq Hin]%list_elem_of_filter). split; [eauto|done].
    - intros [(q & -> & Hin) Hne]. exists q. split; [done|].
      by apply list_elem_of_filter. }
  split.
  - rewrite fmap_cons. constructor.
    + rewrite Hf. cbn [snd]. tauto.
    + clear Hf IH2. induction (first_occurrences ps) as [|q l IHl]; [constructor|].
      rewrite fmap_cons in IH1. apply NoDup_cons in IH1 as [Hq Hl].
      rewrite filter_cons. destruct (decide (q.2 ≠ n)); [|auto].
      rewrite fmap_cons. constructor; [|auto].
      rewrite list_elem_of_fmap. intros (q' & Heq & [_ Hin]%list_elem_of_filter).
      apply Hq. rewrite list_elem_of_fmap. eauto.
  - intros m. rewrite !fmap_cons, !elem_of_cons, Hf. cbn [snd].
    destruct (decide (m = n)); tauto.
Qed.

(** X10: the parameter lines of a block are the lines of the first
    occurrence of each parameter name, in the order of the signature: a
    later pair with a name seen before adds no line, and every name of the
    signature has exactly one line. *)
Theorem param_lines_first_occurrence (rp : gmap string Param)
    (pd : gmap string string) (ps : list (string * string)) :
  param_lines rp pd ∅ ps = map (param_line rp pd) (first_occurrences ps) ∧
  NoDup (first_occurrences ps).*2 ∧
  (∀ n, n ∈ (first_occurrences ps).*2 ↔ n ∈ ps.*2) ∧
  length (param_lines rp pd ∅ ps) = size (list_to_set (C := gset string) ps.*2).
Proof.
  destruct (first_occurrences_names ps) as [Hnd Hmem].
  assert (param_lines rp pd ∅ ps = map (param_line rp pd) (first_occurrences ps))
    as Heq.
  { rewrite param_lines_first. f_equal. by apply filter_names_none. }
  split_and!; try done.
  rewrite Heq, length_map, <- (length_fmap snd).
  rewrite <- (size_list_to_set (C := gset string)) by done.
  f_equal. apply set_eq. intros n. by rewrite !elem_of_list_to_set, Hmem.
Qed.

Lemma param_lines_first_occurrence_witness :
  "x" ∈ (first_occurrences
           [("GLint", "x"); ("GLfloat", "y"); ("GLdouble", "x")]).*2.
Proof.
  apply (proj2 (proj1 (proj2 (proj2
           (param_lines_first_occurrence ∅ ∅
              [("GLint", "x"); ("GLfloat", "y"); ("GLdouble", "x")]))) "x")).
  apply (bool_decide_unpack _). by vm_compute.
Defined.

Example param_lines_example :
  param_lines ∅ ∅ ∅ [("GLint", "x"); ("GLfloat", "y"); ("GLdouble", "x")]
  = [" * \param x (GLint)"; " * \param y (GLfloat)"].
Proof. by vm_compute. Qed.

Lemma endswith_app_r a b p : endswith b p = true → endswith (a +:+ b) p = true.
Proof.
  intros Hb. induction a as [|c a IH]; [done|].
  rewrite append_cons. cbn [endswith]. rewrite IH. by rewrite orb_true_r.
Qed.

Lemma endswith_cons c s p : endswith s p = true → endswith (String c s) p = true.
Proof. intros H. cbn [endswith]. rewrite H. by rewrite orb_true_r. Qed.

Lemma param_lines_no_brief rp pd : ∀ ps seen_p,
  Forall (λ l, startswith l " * \brief" = false) (param_lines rp pd seen_p ps).
Proof.
  induction ps as [|[ptype pname] ps IH]; intros seen_p; simpl; [constructor|].
  case_bool_decide; [apply IH|]. constructor; [|apply IH].
  unfold make_param_line_with_desc. by destruct (truthy_opt _).
Qed.

Lemma see_line_in_block reg refs name ls :
  build_doc_lines reg refs name = Some ls →
  " * \see " +:+ make_refpage_url (folder_tag refs) name ∈ ls.
Proof.
  unfold build_doc_lines.
  destruct (doc_signature reg refs name) as [[ret ps]|]; [|done].
  intros [= <-].
  repeat (rewrite elem_of_cons || rewrite elem_of_app).
  do 4 right. by left.
Qed.

(** X12: every block that [build_doc] writes opens with the line [/**] and
    closes with the line [ */]; each line in between starts with [ * ], and
    one of them is the [\see] line with the reference page address of the
    name asked for, also when the texts come from the page of the canonical
    name. No line of a block is a macro line. *)
Theorem block_format (reg : GLRegistry) (refs : RefPages) (name : string)
    (ls : list string) :
  build_doc_lines reg refs name = Some ls →
  ∃ mid, ls = "/**" :: mid ++ [" */"] ∧
    Forall (λ l, startswith l " * " = true) mid ∧
    " * \see https://registry.khronos.org/OpenGL-Refpages/" +:+ folder_tag refs
      +:+ "/html/" +:+ name +:+ ".xhtml" ∈ mid ∧
    Forall (λ l, DEFINE_RE_match l = None) ls.
Proof.
  intros Hls. pose proof (see_line_in_block _ _ _ _ Hls) as Hsee.
  destruct (build_doc_lines_shape _ _ _ _ Hls) as (mid & -> & Hmid).
  exists mid. split_and!; [done|done| |].
  - apply elem_of_cons in Hsee as [Hsee|Hsee]; [done|].
    apply elem_of_app in Hsee as [Hsee|Hsee]; [done|].
    by apply list_elem_of_singleton in Hsee.
  - constructor; [done|]. apply Forall_app. split; [|by repeat constructor].
    eapply Forall_impl; [exact Hmid|]. intros l Hl. by apply star_line_facts.
Qed.

Lemma block_format_witness :
  ∃ mid, ["/**"; " * \param x (GLint)";
          " * \see https://registry.khronos.org/OpenGL-Refpages/gl4/html/glFoo.xhtml";
          " * \note Introduced in OpenGL 3.3"; " */"] = "/**" :: mid ++ [" */"] ∧
    Forall (λ l, startswith l " * " = true) mid ∧
    " * \see https://registry.khronos.org/OpenGL-Refpages/" +:+ folder_tag no_refs
      +:+ "/html/" +:+ "glFoo" +:+ ".xhtml" ∈ mid ∧
    Forall (λ l, DEFINE_RE_match l = None)
      ["/**"; " * \param x (GLint)";
       " * \see https://registry.khronos.org/OpenGL-Refpages/gl4/html/glFoo.xhtml";
       " * \note Introduced in OpenGL 3.3"; " */"].
Proof.
  apply (block_format registry0 no_refs "glFoo"). by vm_compute.
Defined.

(** ** The macro pattern and the rewriter *)

(** X13: [DEFINE_RE] matches a line exactly when the line reads: optional
    white space, [#], optional white space, [define], white space, [gl]
    and at least one identifier character, white space, [glad_gl] and at
    least one identifier character, optional white space; the groups are
    the two names. A matched line is not blank, holds no [*] and so
    neither comment marker. *)
Theorem define_re_characterised (line n1 n2 : string) :
  (DEFINE_RE_match line = Some (n1, n2) ↔
   ∃ ws0 ws1 ws2 id1 ws3 id2 ws4,
     line = ws0 +:+ "#" +:+ ws1 +:+ "define" +:+ ws2 +:+ "gl" +:+ id1 +:+ ws3
            +:+ "glad_gl" +:+ id2 +:+ ws4 ∧
     n1 = "gl" +:+ id1 ∧ n2 = "glad_gl" +:+ id2 ∧
     all_chars is_space ws0 = true ∧ all_chars is_space ws1 = true ∧
     (all_chars is_space ws2 = true ∧ ws2 ≠ "") ∧
     (all_chars is_ident id1 = true ∧ id1 ≠ "") ∧
     (all_chars is_space ws3 = true ∧ ws3 ≠ "") ∧
     (all_chars is_ident id2 = true ∧ id2 ≠ "") ∧
     all_chars is_space ws4 = true) ∧
  (DEFINE_RE_match line = Some (n1, n2) →
   is_blank line = false ∧ all_chars not_star line = true ∧
   contains "/**" line = false ∧ contains "*/" line = false ∧
   comment_body line = false).
Proof.
  split; [split|].
  - apply define_re_match_inv.
  - intros (ws0 & ws1 & ws2 & id1 & ws3 & id2 & ws4 & -> & -> & -> & H0 & H1
            & [H2 N2] & [I1 NI1] & [H3 N3] & [I2 NI2] & H4).
    by apply define_re_match_shape.
  - intros Hm. destruct (macro_line_breaks _ _ Hm) as (Hb & Hc & Ho & He).
    split_and!; try done.
    eapply all_chars_impl; [apply macro_char_not_star|].
    by eapply macro_line_chars.
Qed.

Lemma define_re_characterised_witness :
  DEFINE_RE_match "  # define  glFoo glad_glFoo " = Some ("glFoo", "glad_glFoo") ∧
  is_blank "#define glFoo glad_glFoo" = false.
Proof.
  split.
  - apply (proj1 (define_re_characterised _ "glFoo" "glad_glFoo")).
    exists "  ", " ", "  ", "Foo", " ", "Foo", " ". by vm_compute.
  - apply (proj2 (define_re_characterised "#define glFoo glad_glFoo"
                    "glFoo" "glad_glFoo")).
    reflexivity.
Defined.

Lemma marked_line lines t :
  t ∈ prescan lines →
  (contains "/**" (line_at lines t) = true ∨ is_blank (line_at lines t) = true
   ∨ comment_body (line_at lines t) = true) ∧
  ∃ i l, t < i ∧ lines !! i = Some l ∧ is_Some (DEFINE_RE_match l).
Proof.
  intros (i & l & p & a & b & Hi & Hm & Hblock & Ha & Hb)%elem_of_prescan.
  destruct Hblock as (Hab & Hbi & _ & _ & _ & Hopen & Hpass). split.
  - destruct (decide (t = a)) as [->|Hne]; [by left|]. right.
    specialize (Hpass t ltac:(lia) Hb). unfold passable in Hpass.
    apply andb_true_iff in Hpass as [_ Hpass].
    by apply orb_true_iff in Hpass.
  - exists i, l. split_and!; [lia|done|by eexists].
Qed.

(** X14: the pre-scan marks only lines that stand above a macro line and
    that are blank, comment-like or hold the opening marker: a line with
    none of the three is never removed and is in the output, the last line
    of a file is never removed, and a file with lines gives an output with
    lines. *)
Theorem code_lines_kept (reg : GLRegistry) (refs : RefPages) (lines : list string) :
  (∀ t, t ∈ prescan lines →
     S t < length lines ∧
     (contains "/**" (line_at lines t) = true ∨ is_blank (line_at lines t) = true
      ∨ comment_body (line_at lines t) = true) ∧
     ∃ i l, t < i ∧ lines !! i = Some l ∧ is_Some (DEFINE_RE_match l)) ∧
  (∀ i l, lines !! i = Some l → contains "/**" l = false →
     is_blank l = false → comment_body l = false →
     (i ∉ prescan lines) ∧ (l ∈ process_lines reg refs lines)) ∧
  (∀ l, last lines = Some l → l ∈ process_lines reg refs lines) ∧
  (lines ≠ [] → process_lines reg refs lines ≠ []).
Proof.
  assert (∀ t, t ∈ prescan lines → S t < length lines) as Hbound.
  { intros t (_ & i & l & Hti & Hi & _)%marked_line.
    apply lookup_lt_Some in Hi. lia. }
  assert (∀ l, last lines = Some l → l ∈ process_lines reg refs lines) as Hlast.
  { intros l Hl. rewrite last_lookup in Hl.
    eapply unmarked_line_emitted; [exact Hl|].
    intros Hin%Hbound. lia. }
  split_and!.
  - intros t Ht. split; [by apply Hbound|by apply marked_line].
  - intros i l Hi Ho Hb Hc.
    assert (i ∉ prescan lines) as Hs.
    { intros [Hkind _]%marked_line. rewrite (line_at_lookup _ _ _ Hi) in Hkind.
      destruct Hkind as [?|[?|?]]; congruence. }
    split; [done|]. by eapply unmarked_line_emitted.
  - done.
  - intros Hne Hnil. destruct (last lines) as [l|] eqn:Hl.
    + pose proof (Hlast l eq_refl) as Hin. rewrite Hnil in Hin.
      by apply elem_of_nil in Hin.
    + by apply last_None in Hl.
Qed.

Lemma code_lines_kept_witness :
  ((3 ∉ prescan sample_lines) ∧
   ("int x;" ∈ process_lines registry0 no_refs sample_lines)) ∧
  process_lines registry0 no_refs sample_lines ≠ [].
Proof.
  split.
  - apply (proj1 (proj2 (code_lines_kept registry0 no_refs sample_lines))
             3 "int x;"); reflexivity.
  - apply (proj2 (proj2 (proj2 (code_lines_kept registry0 no_refs sample_lines)))).
    discriminate.
Defined.

Lemma prescan_loop_plain lines : ∀ rest i skip,
  Forall (λ l, DEFINE_RE_match l = None) rest →
  prescan_loop lines i rest skip = skip.
Proof.
  induction rest as [|l rest IH]; intros i skip Hall; [done|].
  apply Forall_cons in Hall as [Hl Hall]. cbn [prescan_loop].
  rewrite Hl. by apply IH.
Qed.

Lemma main_loop_plain reg refs : ∀ rest i,
  Forall (λ l, DEFINE_RE_match l = None) rest →
  main_loop reg refs ∅ i rest = rest.
Proof.
  induction rest as [|l rest IH]; intros i Hall; [done|].
  apply Forall_cons in Hall as [Hl Hall]. cbn [main_loop].
  rewrite bool_decide_false by apply not_elem_of_empty.
  unfold emit. rewrite Hl. simpl. by rewrite IH.
Qed.

(** X15: a file without macro lines passes through: no line is marked,
    the lines written are the lines read, whatever the registry and the
    reference pages hold, and the text written is the lines joined by line
    feeds with one line feed at the end. So an empty file is written as a
    single line feed, and a text of line-feed terminated lines is written
    as it is. *)
Theorem no_macro_pass_through (reg : GLRegistry) (refs : RefPages)
    (input : string) :
  Forall (λ l, DEFINE_RE_match l = None) (splitlines input) →
  prescan (splitlines input) = ∅ ∧
  process_lines reg refs (splitlines input) = splitlines input ∧
  process reg refs input = join LF (splitlines input) +:+ LF ∧
  (∀ xs, xs ≠ [] → Forall (λ l, no_linebreak l = true) xs →
         input = join LF xs +:+ LF → process reg refs input = input).
Proof.
  intros Hall.
  assert (prescan (splitlines input) = ∅) as Hs.
  { unfold prescan. by apply prescan_loop_plain. }
  assert (process_lines reg refs (splitlines input) = splitlines input) as Hp.
  { unfold process_lines. rewrite Hs. by apply main_loop_plain. }
  split_and!; [done|done|by unfold process; rewrite Hp|].
  intros xs Hne Hxs Hin. unfold process. rewrite Hp.
  rewrite Hin at 1. by rewrite splitlines_join.
Qed.

Lemma no_macro_pass_through_witness :
  process registry0 no_refs "" = LF ∧
  process registry0 no_refs ("int x;" +:+ LF +:+ "  /** y */" +:+ LF)
  = "int x;" +:+ LF +:+ "  /** y */" +:+ LF.
Proof.
  split.
  - destruct (no_macro_pass_through registry0 no_refs "") as (_ & _ & Hp & _).
    + constructor.
    + exact Hp.
  - destruct (no_macro_pass_through registry0 no_refs
                ("int x;" +:+ LF +:+ "  /** y */" +:+ LF)) as (_ & _ & _ & Hp).
    + by repeat constructor.
    + apply (Hp ["int x;"; "  /** y */"]);
        [discriminate|by repeat constructor|reflexivity].
Defined.

Lemma splitlines_nil s : splitlines s = [] → s = "".
Proof.
  destruct s as [|c s]; [done|]. cbn [splitlines].
  destruct (is_linebreak c); [done|]. by destruct (splitlines s).
Qed.

Lemma last_line_survives lines l :
  last lines = Some l → l ∈ surviving (prescan lines) lines.
Proof.
  intros Hl. rewrite last_lookup in Hl. apply elem_of_surviving.
  exists (pred (length lines)). split; [done|].
  intros (_ & i & l' & Hti & Hi & _)%marked_line.
  apply lookup_lt_Some in Hi. lia.
Qed.

Lemma flat_map_expand_nonempty reg refs K :
  K ≠ [] → flat_map (expand reg refs) K ≠ [].
Proof.
  destruct K as [|l K]; [done|]. intros _. simpl. unfold expand.
  by destruct (block_lines reg refs l).
Qed.

(** X16: when every macro line of the input gets a clean block, the text
    written, read back line by line, is: for each line that the pre-scan
    left in place, the lines of its block if it is a macro line, then the
    line itself. So every macro line of the output has its block directly
    above it, no line of the output holds a line boundary, and the output
    is never empty. *)
Theorem written_lines (reg : GLRegistry) (refs : RefPages) (input : string) :
  docs_clean reg refs (splitlines input) = true → input ≠ "" →
  let kept := surviving (prescan (splitlines input)) (splitlines input) in
  splitlines (process reg refs input) = flat_map (expand reg refs) kept ∧
  Forall (λ l, no_linebreak l = true) (splitlines (process reg refs input)) ∧
  kept ≠ [] ∧
  (∀ l, expand reg refs l
        = match DEFINE_RE_match l with
          | Some (gl_name, _) => default [] (build_doc_lines reg refs gl_name)
          | None => []
          end ++ [l]).
Proof.
  intros Hclean Hne kept.
  assert (Forall (chunk_ok reg refs) kept) as Hok.
  { apply Forall_forall. intros l [i [Hi _]]%elem_of_surviving.
    apply list_elem_of_lookup_2 in Hi.
    apply chunk_ok_of_clean.
    - pose proof (splitlines_no_linebreak input) as Hlb.
      rewrite Forall_forall in Hlb. by apply Hlb.
    - unfold docs_clean in Hclean. rewrite forallb_forall in Hclean.
      apply Hclean. by apply list_elem_of_In. }
  assert (kept ≠ []) as Hkept.
  { destruct (last (splitlines input)) as [l|] eqn:Hl.
    - apply last_line_survives in Hl. fold kept in Hl.
      intros Hnil. rewrite Hnil in Hl. by apply elem_of_nil in Hl.
    - apply last_None in Hl. by apply splitlines_nil in Hl. }
  assert (splitlines (process reg refs input) = flat_map (expand reg refs) kept)
    as Hsplit.
  { unfold process. rewrite process_lines_surviving. fold kept.
    rewrite join_written. apply splitlines_join.
    - by apply flat_map_expand_nonempty.
    - by apply written_no_linebreak. }
  split_and!; [done| |done|done].
  rewrite Hsplit. by apply written_no_linebreak.
Qed.

Lemma written_lines_witness :
  splitlines (process registry0 no_refs header_text)
  = flat_map (expand registry0 no_refs)
      (surviving (prescan (splitlines header_text)) (splitlines header_text)).
Proof.
  apply (written_lines registry0 no_refs header_text).
  - by vm_compute.
  - discriminate.
Defined.

(** ** Blocks from loaded data *)

Lemma signature_loaded root name ret ps :
  signature (load_registry root) name = Some (ret, ps) →
  norm_ws ret = ret ∧ Forall param_ok ps.
Proof.
  unfold signature, load_registry. cbn [commands].
  destruct (parse_commands_ok root) as [Hc _].
  destruct ((_parse_commands root).1 !! name) as [c|] eqn:E; [|done].
  intros [= <- <-]. destruct (Hc name c E) as (_ & H1 & H2). done.
Qed.

Lemma doc_signature_loaded root refs name ret ps :
  doc_signature (load_registry root) refs name = Some (ret, ps) →
  norm_ws ret = ret ∧ Forall (λ p, p.2 ≠ "") ps.
Proof.
  assert (∀ f r q, c_signature refs f = Some (r, q) →
                   norm_ws r = r ∧ Forall (λ p, p.2 ≠ "") q) as Hpage.
  { intros f r q. unfold c_signature. destruct (load refs f); [|done].
    intros [H1 H2]%c_signature_loop_ok. split; [done|].
    eapply Forall_impl; [exact H2|]. intros p Hp. apply Hp. }
  unfold doc_signature. cbv zeta.
  set (reg := load_registry root).
  destruct (match c_signature refs name with
            | Some _ => _ | None => _ end) as [[r q]|] eqn:Esig.
  - intros [= <- <-].
    destruct (c_signature refs name) as [s|] eqn:E1.
    + injection Esig as ->. by eapply Hpage.
    + destruct (negb _); [|done]. by eapply Hpage.
  - unfold signature_canonical.
    destruct (signature reg (resolve_alias reg name)) as [[r q]|] eqn:E; [|done].
    intros [= <- <-]. apply signature_loaded in E as [H1 H2]. split; [done|].
    apply Forall_fmap. eapply Forall_impl; [exact H2|].
    intros p Hp. apply Hp.
Qed.

Lemma return_line_test reg refs name ret ps :
  doc_signature reg refs name = Some (ret, ps) →
  ∃ ls, build_doc_lines reg refs name = Some ls ∧
    existsb (λ l, startswith l " * \return") ls
    = truthy ret && negb (String.eqb (strip ret) "void") ∧
    (truthy ret && negb (String.eqb (strip ret) "void") = true →
     " * \return (" +:+ ret +:+ ")" ∈ ls).
Proof.
  intros Hsig. unfold build_doc_lines. rewrite Hsig.
  eexists. split; [done|]. split.
  - rewrite !existsb_app, param_lines_no_return. simpl.
    destruct (truthy ret && negb (String.eqb (strip ret) "void")); simpl;
      repeat match goal with
             | |- context [if ?b then _ else _] => destruct b; simpl
             | |- context [match ?l with [] => _ | _ :: _ => _ end] =>
                 destruct l; simpl
             end; by rewrite ?orb_true_r.
  - intros ->. rewrite !elem_of_app. do 3 right. left.
    by apply list_elem_of_singleton.
Qed.

(** X17: with a registry loaded from gl.xml, the return type that
    [build_doc] documents is white space normalised, whether it comes from
    a reference page or from the registry: stripping it changes nothing, so
    the block has a [\return] line exactly when the return type is neither
    empty nor "void". Every parameter documented has a name that is not
    empty. *)
Theorem return_line_loaded (root : Element) (refs : RefPages) (name : string)
    (ls : list string) :
  build_doc_lines (load_registry root) refs name = Some ls →
  ∃ ret ps, doc_signature (load_registry root) refs name = Some (ret, ps) ∧
    norm_ws ret = ret ∧ strip ret = ret ∧
    Forall (λ p, p.2 ≠ "") ps ∧
    (existsb (λ l, startswith l " * \return") ls = true ↔ ret ≠ "" ∧ ret ≠ "void") ∧
    (" * \return (" +:+ ret +:+ ")" ∈ ls ↔ ret ≠ "" ∧ ret ≠ "void").
Proof.
  intros Hls.
  destruct (doc_signature (load_registry root) refs name) as [[ret ps]|] eqn:Hsig.
  2: { unfold build_doc_lines in Hls. by rewrite Hsig in Hls. }
  destruct (doc_signature_loaded _ _ _ _ _ Hsig) as [Hn Hps].
  pose proof (norm_ws_fixed_strip _ Hn) as Hstrip.
  destruct (return_line_test _ _ _ _ _ Hsig) as (ls' & Hls' & Hex & Hin).
  rewrite Hls in Hls'. injection Hls' as <-.
  rewrite Hstrip in Hex, Hin.
  assert (truthy ret && negb (String.eqb ret "void") = true
          ↔ ret ≠ "" ∧ ret ≠ "void") as Hcond.
  { unfold truthy. by rewrite andb_true_iff, !negb_true_iff, !String.eqb_neq. }
  exists ret, ps. split_and!; try done.
  - by rewrite Hex.
  - split; [|by intros ?%Hcond%Hin].
    intros Hl. apply Hcond. rewrite <- Hex.
    apply existsb_exists. exists (" * \return (" +:+ ret +:+ ")").
    split; [by apply list_elem_of_In|done].
Qed.

Lemma return_line_loaded_witness :
  ∃ ret ps, doc_signature (load_registry registry_xml) no_refs "glFoo"
            = Some (ret, ps) ∧
    norm_ws ret = ret ∧ strip ret = ret ∧
    Forall (λ p, p.2 ≠ "") ps ∧
    (existsb (λ l, startswith l " * \return")
       ["/**"; " * \param x (GLint)";
        " * \see https://registry.khronos.org/OpenGL-Refpages/gl4/html/glFoo.xhtml";
        " * \note Introduced in OpenGL 3.3"; " */"] = true
     ↔ ret ≠ "" ∧ ret ≠ "void") ∧
    (" * \return (" +:+ ret +:+ ")" ∈
       ["/**"; " * \param x (GLint)";
        " * \see https://registry.khronos.org/OpenGL-Refpages/gl4/html/glFoo.xhtml";
        " * \note Introduced in OpenGL 3.3"; " */"]
     ↔ ret ≠ "" ∧ ret ≠ "void").
Proof.
  apply (return_line_loaded registry_xml no_refs "glFoo"). by vm_compute.
Defined.

Lemma param_lines_no_brief_line rp pd ps seen_p :
  existsb (λ l, startswith l " * \brief") (param_lines rp pd seen_p ps) = false.
Proof.
  pose proof (param_lines_no_brief rp pd ps seen_p) as Hf.
  induction Hf as [|l ls Hl _ IH]; [done|]. cbn [existsb]. by rewrite Hl, IH.
Qed.

(** The brief text that [build_doc] settles on. *)
Lemma brief_line_test reg refs name ls :
  build_doc_lines reg refs name = Some ls →
  existsb (λ l, startswith l " * \brief") ls
  = truthy_opt (match brief refs name with
                | Some b => Some b
                | None => if negb (String.eqb (resolve_alias reg name) name)
                          then brief refs (resolve_alias reg name) else None
                end).
Proof.
  unfold build_doc_lines.
  destruct (doc_signature reg refs name) as [[ret ps]|]; [|done].
  intros [= <-].
  assert (match brief refs name with
          | Some _ => brief refs name
          | None => if negb (String.eqb (resolve_alias reg name) name)
                    then brief refs (resolve_alias reg name) else None
          end
          = match brief refs name with
            | Some b => Some b
            | None => if negb (String.eqb (resolve_alias reg name) name)
                      then brief refs (resolve_alias reg name) else None
            end) as -> by by destruct (brief refs name).
  change (?a :: ?l) with ([a] ++ l) at 1.
  rewrite !existsb_app, param_lines_no_brief_line.
  destruct (truthy_opt _); simpl;
    repeat match goal with
           | |- context [if ?b then _ else _] => destruct b; simpl
           | |- context [match ?l with [] => _ | _ :: _ => _ end] =>
               destruct l; simpl
           end; done.
Qed.

(** X18: the block has a brief line exactly when the brief text settled on
    is not empty. The page of the name asked for decides when it has a
    purpose text, also a blank one: the brief of the canonical name is used
    only when the page of the name gives none at all, and only for a name
    that is not its own canonical name. *)
Theorem brief_fallback (reg : GLRegistry) (refs : RefPages) (name : string)
    (ls : list string) :
  build_doc_lines reg refs name = Some ls →
  let has_brief := existsb (λ l, startswith l " * \brief") ls in
  (∀ b, brief refs name = Some b → has_brief = truthy b) ∧
  (brief refs name = Some "" → has_brief = false) ∧
  (brief refs name = None → resolve_alias reg name ≠ name →
     has_brief = truthy_opt (brief refs (resolve_alias reg name))) ∧
  (brief refs name = None → resolve_alias reg name = name → has_brief = false).
Proof.
  intros Hls has_brief. unfold has_brief.
  rewrite (brief_line_test _ _ _ _ Hls). split_and!.
  - by intros b ->.
  - by intros ->.
  - intros -> Hne. apply String.eqb_neq in Hne. by rewrite Hne.
  - intros -> Heq. apply String.eqb_eq in Heq. by rewrite Heq.
Qed.

Lemma brief_fallback_witness :
  brief blank_purpose_refs "glFoo" = Some "render primitives" ∧
  resolve_alias registry0 "glFooEXT" = "glFoo" ∧
  ∃ ls, build_doc_lines registry0 blank_purpose_refs "glFooEXT" = Some ls ∧
        existsb (λ l, startswith l " * \brief") ls = false.
Proof.
  split; [reflexivity|]. split; [reflexivity|].
  destruct (build_doc_lines registry0 blank_purpose_refs "glFooEXT") as [ls|] eqn:E;
    [|by vm_compute in E].
  exists ls. split; [done|].
  apply (proj1 (proj2 (brief_fallback registry0 blank_purpose_refs "glFooEXT" ls E))).
  reflexivity.
Defined.

(** ** A file with one macro line *)

Lemma only_macro_index pre l post i line p :
  Forall (λ l, DEFINE_RE_match l = None) pre →
  Forall (λ l, DEFINE_RE_match l = None) post →
  (pre ++ l :: post) !! i = Some line → DEFINE_RE_match line = Some p →
  i = length pre.
Proof.
  intros Hpre Hpost Hi Hm.
  destruct (Nat.lt_trichotomy i (length pre)) as [Hlt|[->|Hgt]]; [|done|].
  - rewrite lookup_app_l in Hi by done.
    rewrite Forall_forall in Hpre.
    apply list_elem_of_lookup_2, Hpre in Hi. congruence.
  - rewrite lookup_app_r in Hi by lia.
    destruct (i - length pre) as [|k] eqn:Ek; [lia|]. simpl in Hi.
    rewrite Forall_forall in Hpost.
    apply list_elem_of_lookup_2, Hpost in Hi. congruence.
Qed.

Lemma prescan_single pre l post t :
  Forall (λ l, DEFINE_RE_match l = None) pre →
  Forall (λ l, DEFINE_RE_match l = None) post →
  is_Some (DEFINE_RE_match l) →
  t ∈ prescan (pre ++ l :: post) ↔
  ∃ a b, find_docblock_above (pre ++ l :: post) (length pre) = Some (a, b) ∧
         a ≤ t ∧ t ≤ b.
Proof.
  intros Hpre Hpost [p Hp]. rewrite elem_of_prescan. split.
  - intros (i & line & q & a & b & Hi & Hm & Hblock & Ha & Hb).
    assert (i = length pre) as -> by by eapply only_macro_index.
    exists a, b. by rewrite find_docblock_above_Some.
  - intros (a & b & Hf & Ha & Hb).
    exists (length pre), l, p, a, b. split_and!; try done.
    + by rewrite list_lookup_middle.
    + by apply find_docblock_above_Some.
Qed.

Lemma main_loop_unmarked reg refs skip : ∀ A i,
  (∀ k, k < length A → i + k ∉ skip) →
  Forall (λ l, DEFINE_RE_match l = None) A →
  main_loop reg refs skip i A = A.
Proof.
  induction A as [|x A IH]; intros i Hfree Hall; [done|].
  apply Forall_cons in Hall as [Hx Hall]. cbn [main_loop].
  rewrite bool_decide_false.
  - unfold emit. rewrite Hx. simpl. f_equal. apply IH; [|done].
    intros k Hk. replace (S i + k) with (i + S k) by lia.
    apply Hfree. simpl. lia.
  - rewrite <- (Nat.add_0_r i). apply Hfree. simpl. lia.
Qed.

Lemma main_loop_single reg refs skip pre l post :
  Forall (λ l, DEFINE_RE_match l = None) post →
  (∀ t, t ∈ skip → t < length pre) →
  main_loop reg refs skip 0 (pre ++ l :: post)
  = main_loop reg refs skip 0 pre ++ emit reg refs l ++ post.
Proof.
  intros Hpost Hskip. rewrite main_loop_app. f_equal. cbn [main_loop].
  rewrite bool_decide_false by (intros ?%Hskip; lia). f_equal.
  apply main_loop_unmarked; [|done].
  intros k _ ?%Hskip. lia.
Qed.

(** X19: a file whose only macro line is [l], after the lines [pre] and
    before the lines [post]. When no block is found above [l], the lines
    written are [pre], the fresh block (if there is one), [l] and [post].
    When a block is found, at the lines [a] to [b] of [pre], exactly these
    lines are left out: the old block is replaced by the fresh one, and
    the blank lines between the old block and [l] stay. *)
Theorem single_macro_file (reg : GLRegistry) (refs : RefPages)
    (pre post : list string) (l : string) :
  Forall (λ x, DEFINE_RE_match x = None) pre →
  is_Some (DEFINE_RE_match l) →
  Forall (λ x, DEFINE_RE_match x = None) post →
  (find_docblock_above (pre ++ l :: post) (length pre) = None →
   process_lines reg refs (pre ++ l :: post) = pre ++ emit reg refs l ++ post) ∧
  (∀ a b, find_docblock_above (pre ++ l :: post) (length pre) = Some (a, b) →
     a ≤ b ∧ b < length pre ∧
     process_lines reg refs (pre ++ l :: post)
     = take a pre ++ drop (S b) pre ++ emit reg refs l ++ post).
Proof.
  intros Hpre Hl Hpost. unfold process_lines. split.
  - intros Hnone.
    assert (∀ t, t ∉ prescan (pre ++ l :: post)) as Hfree.
    { intros t (a & b & Hf & _)%prescan_single; try done. congruence. }
    rewrite main_loop_single; [|done|by intros t ?%Hfree].
    f_equal. apply main_loop_unmarked; [|done]. intros k _. apply Hfree.
  - intros a b Hsome.
    assert (∀ t, t ∈ prescan (pre ++ l :: post) ↔ a ≤ t ∧ t ≤ b) as Hmark.
    { intros t. rewrite prescan_single by done. split.
      - intros (a' & b' & Hf & Ha & Hb). by simplify_eq.
      - intros [Ha Hb]. by exists a, b. }
    pose proof Hsome as (Hab & Hb & _)%find_docblock_above_Some.
    split_and!; [done..|].
    rewrite main_loop_single; [|done|intros t ?%Hmark; lia].
    remember (prescan (pre ++ l :: post)) as skip eqn:Hskip. clear Hskip.
    enough (main_loop reg refs skip 0 pre = take a pre ++ drop (S b) pre) as ->
      by by rewrite <- app_assoc.
    assert (pre = take a pre ++ take (S b - a) (drop a pre) ++ drop (S b) pre)
      as Hdec.
    { rewrite <- (take_drop a pre) at 1. f_equal.
      rewrite <- (take_drop (S b - a) (drop a pre)) at 1. f_equal.
      rewrite drop_drop. f_equal. lia. }
    rewrite Hdec at 1.
    assert (length (take a pre) = a) as Hla by (rewrite length_take; lia).
    assert (length (take (S b - a) (drop a pre)) = S b - a) as Hlb.
    { rewrite length_take, length_drop. lia. }
    rewrite !main_loop_app.
    rewrite (main_loop_unmarked reg refs _ (take a pre)).
    2: { intros k Hk ?%Hmark. lia. }
    2: { by apply Forall_take. }
    rewrite (main_loop_marked reg refs _ (take _ (drop a pre))).
    2: { intros k Hk. apply Hmark. lia. }
    rewrite (main_loop_unmarked reg refs _ (drop (S b) pre)).
    2: { intros k Hk ?%Hmark. lia. }
    2: { by apply Forall_drop. }
    done.
Qed.

Lemma single_macro_file_witness :
  process_lines registry0 no_refs
    (["int y;"; "/** old"; " */"; ""] ++ "#define glFoo glad_glFoo" :: ["int x;"])
  = take 1 ["int y;"; "/** old"; " */"; ""]
    ++ drop 3 ["int y;"; "/** old"; " */"; ""]
    ++ emit registry0 no_refs "#define glFoo glad_glFoo" ++ ["int x;"].
Proof.
  apply (single_macro_file registry0 no_refs ["int y;"; "/** old"; " */"; ""]
           ["int x;"] "#define glFoo glad_glFoo").
  - by repeat constructor.
  - by eexists.
  - by repeat constructor.
  - reflexivity.
Defined.

(** ** The block from partial information *)

Lemma brief_settled reg refs name :
  match brief refs name with
  | None => if negb (String.eqb (resolve_alias reg name) name)
            then brief refs (resolve_alias reg name) else None
  | Some _ => brief refs name
  end = settled_brief reg refs name.
Proof.
  unfold settled_brief. destruct (brief refs name) as [b|] eqn:E; [done|].
  destruct (String.eqb (resolve_alias reg name) name) eqn:Ec; [|done].
  apply String.eqb_eq in Ec. by rewrite Ec, E.
Qed.

Lemma descriptions_settled reg refs name :
  (if bool_decide (param_descriptions refs name = ∅)
      && negb (String.eqb (resolve_alias reg name) name)
   then param_descriptions refs (resolve_alias reg name)
   else param_descriptions refs name) = settled_descriptions reg refs name.
Proof.
  unfold settled_descriptions. case_bool_decide as E; [|done].
  destruct (String.eqb (resolve_alias reg name) name) eqn:Ec; [|done].
  apply String.eqb_eq in Ec. by rewrite Ec.
Qed.

Lemma registry_params_settled reg name :
  match signature_canonical reg name with
  | Some (_, params_r, _) => foldl (λ m rp, <[p_name rp := rp]> m) ∅ params_r
  | None => ∅
  end = registry_params reg name.
Proof.
  unfold registry_params, signature_canonical.
  by destruct (signature reg (resolve_alias reg name)) as [[ret ps]|].
Qed.

Lemma doc_signature_settled reg refs name :
  doc_signature reg refs name = settled_signature reg refs name.
Proof.
  unfold doc_signature, settled_signature, signature_canonical.
  destruct (c_signature refs name) as [s|] eqn:Es; [done|].
  destruct (String.eqb (resolve_alias reg name) name) eqn:Ec; cbn [negb].
  - apply String.eqb_eq in Ec. rewrite Ec, Es.
    by destruct (signature reg name) as [[ret ps]|].
  - destruct (c_signature refs (resolve_alias reg name)) as [s|]; [done|].
    by destruct (signature reg (resolve_alias reg name)) as [[ret ps]|].
Qed.

Lemma brief_lines_eq b :
  (if truthy_opt b then
     if negb (endswith (text_or_empty b) ".")
     then [" * \brief " +:+ text_or_empty b +:+ "."]
     else [" * \brief " +:+ text_or_empty b]
   else []) = brief_lines b.
Proof.
  destruct b as [b|]; [|done]. unfold brief_lines, text_or_empty. cbn [truthy_opt default from_option id].
  destruct (truthy b); [|done]. by destruct (endswith b ".").
Qed.

Lemma build_doc_lines_block reg refs name :
  build_doc_lines reg refs name
  = doc_block reg refs name <$> settled_signature reg refs name.
Proof.
  rewrite <- doc_signature_settled. unfold build_doc_lines. cbv zeta.
  rewrite brief_settled, descriptions_settled, registry_params_settled.
  destruct (doc_signature reg refs name) as [[ret ps]|]; [|done].
  cbn [fmap option_fmap option_map]. f_equal. unfold doc_block. cbn [fst snd].
  f_equal. rewrite brief_lines_eq. f_equal.
  rewrite param_lines_first.
  rewrite (filter_names_none ∅ (first_occurrences ps)) by done.
  f_equal. f_equal. f_equal.
  unfold note_lines.
  destruct (version_or_exts reg name) as [[v|] exts]; cbn [fst snd truthy_opt];
    [destruct (truthy v)|]; by destruct exts.
Qed.

(** C8: [build_doc] returns nothing exactly when the reference store has
    no C signature for the literal name nor for the canonical name and the
    registry has no signature for the canonical name. In every other case
    it returns the lines of the block for the signature settled on (the
    page of the name, else the page of the canonical name, else the
    registry), joined by line feeds: the opening line, the brief line if
    a brief is found for the name or the canonical name, one line for each
    distinct parameter with its description and registry metadata as far
    as there are any, the return line, the reference line, the note if a
    version or extensions are known, and the closing line. What is absent
    leaves its line out and nothing else. *)
Theorem build_doc_nothing_iff (reg : GLRegistry) (refs : RefPages) (name : string) :
  (build_doc reg refs name = None ↔
     c_signature refs name = None ∧
     c_signature refs (resolve_alias reg name) = None ∧
     signature reg (resolve_alias reg name) = None) ∧
  (build_doc reg refs name ≠ None →
     ∃ d, build_doc reg refs name = Some d ∧ truthy d = true) ∧
  build_doc reg refs name
  = (λ sig, join LF (doc_block reg refs name sig))
      <$> settled_signature reg refs name.
Proof.
  split_and!.
  - rewrite <- doc_signature_None. unfold build_doc.
    rewrite fmap_None, !eq_None_not_Some. by rewrite build_doc_lines_Some.
  - destruct (build_doc reg refs name) as [d|] eqn:E; [|done].
    intros _. exists d. split; [done|]. by eapply build_doc_truthy.
  - unfold build_doc. rewrite build_doc_lines_block.
    by destruct (settled_signature reg refs name).
Qed.

Lemma build_doc_nothing_iff_witness :
  build_doc registry0 no_refs "glUnknown" = None ∧
  (∃ d, build_doc registry0 no_refs "glFooEXT" = Some d ∧ truthy d = true) ∧
  build_doc registry0 blank_purpose_refs "glFooEXT"
  = Some (join LF ["/**"; " * \param x (GLint)";
                   " * \see https://registry.khronos.org/OpenGL-Refpages/gl4/html/glFooEXT.xhtml";
                   " * \note Introduced in OpenGL 3.3"; " */"]).
Proof.
  split_and!.
  - apply (proj2 (proj1 (build_doc_nothing_iff registry0 no_refs "glUnknown"))).
    by vm_compute.
  - apply (proj1 (proj2 (build_doc_nothing_iff registry0 no_refs "glFooEXT"))).
    by vm_compute.
  - rewrite (proj2 (proj2 (build_doc_nothing_iff registry0 blank_purpose_refs
                             "glFooEXT"))).
    by vm_compute.
Defined.

(** ** The brief line *)

Lemma brief_lines_period b l :
  l ∈ brief_lines b →
  endswith l "." = true ∧ startswith l " * \brief" = true ∧
  ∃ t, b = Some t ∧ t ≠ "" ∧
       l = if endswith t "." then " * \brief " +:+ t else " * \brief " +:+ t +:+ ".".
Proof.
  destruct b as [t|]; [|by intros ?%elem_of_nil]. unfold brief_lines.
  destruct (truthy t) eqn:Ht; [|by intros ?%elem_of_nil].
  assert (t ≠ "") as Hne.
  { intros ->. done. }
  destruct (endswith t ".") eqn:He; intros ->%list_elem_of_singleton.
  - split_and!; [by do 10 apply endswith_cons|done|].
    exists t. by rewrite He.
  - split_and!; [do 10 apply endswith_cons; by apply endswith_app_r|done|].
    exists t. by rewrite He.
Qed.

Lemma build_doc_lines_brief_split reg refs name ls :
  build_doc_lines reg refs name = Some ls →
  ∃ rest, ls = "/**" :: brief_lines (settled_brief reg refs name) ++ rest ∧
          Forall (λ l, startswith l " * \brief" = false) rest.
Proof.
  rewrite build_doc_lines_block.
  destruct (settled_signature reg refs name) as [sig|]; [|done].
  intros [= <-]. unfold doc_block. eexists. split; [reflexivity|].
  repeat apply Forall_app_2.
  - apply Forall_forall. intros l (p & -> & _)%list_elem_of_fmap.
    unfold param_line, make_param_line_with_desc. by destruct (truthy_opt _).
  - unfold return_lines. destruct (_ && _); by repeat constructor.
  - by repeat constructor.
  - unfold note_lines. destruct (_ ++ _); by repeat constructor.
  - by repeat constructor.
Qed.

(** X11: a block has at most one line that starts like a brief line: its
    second line, present exactly when the brief text that [build_doc]
    settles on is not empty. That line is the text itself when the text
    ends with a period, and the text with one period appended when it
    does not; so it always ends with a period, and none is added to a
    text that has one. *)
Theorem brief_line_ends_with_period (reg : GLRegistry) (refs : RefPages)
    (name : string) (ls : list string) :
  build_doc_lines reg refs name = Some ls →
  let brief_ :=
    match brief refs name with
    | Some b => Some b
    | None => if negb (String.eqb (resolve_alias reg name) name)
              then brief refs (resolve_alias reg name) else None
    end in
  (∀ i l, ls !! i = Some l → startswith l " * \brief" = true →
     i = 1 ∧ endswith l "." = true ∧
     ∃ t, brief_ = Some t ∧ t ≠ "" ∧
          l = if endswith t "." then " * \brief " +:+ t
              else " * \brief " +:+ t +:+ ".") ∧
  (∀ t, brief_ = Some t → t ≠ "" →
     ls !! 1 = Some (if endswith t "." then " * \brief " +:+ t
                     else " * \brief " +:+ t +:+ ".")) ∧
  (brief_ = None ∨ brief_ = Some "" →
     ∀ l, l ∈ ls → startswith l " * \brief" = false).
Proof.
  intros (rest & -> & Hrest)%build_doc_lines_brief_split brief_.
  assert (brief_ = settled_brief reg refs name) as ->.
  { unfold brief_. rewrite <- brief_settled. by destruct (brief refs name). }
  split_and!.
  - intros [|i] l Hi Hb; [by injection Hi as <-|]. cbn [lookup list_lookup] in Hi.
    destruct (brief_lines (settled_brief reg refs name)) as [|x xs] eqn:Hbl.
    { rewrite Forall_forall in Hrest.
      apply list_elem_of_lookup_2, Hrest in Hi. congruence. }
    assert (xs = []) as ->.
    { unfold brief_lines in Hbl. destruct (settled_brief reg refs name); [|done].
      destruct (truthy _); [|done]. destruct (endswith _ _); by injection Hbl. }
    destruct i as [|i].
    + injection Hi as <-.
      destruct (brief_lines_period (settled_brief reg refs name) x)
        as (H1 & _ & H3); [rewrite Hbl; by left|]. done.
    + rewrite Forall_forall in Hrest. cbn in Hi.
      apply list_elem_of_lookup_2, Hrest in Hi. congruence.
  - intros t -> Ht. unfold brief_lines.
    assert (truthy t = true) as ->.
    { unfold truthy. by apply negb_true_iff, String.eqb_neq. }
    by destruct (endswith t ".").
  - intros Hnone l Hl.
    assert (brief_lines (settled_brief reg refs name) = []) as Hbl.
    { by destruct Hnone as [->| ->]. }
    rewrite Hbl in Hl. apply elem_of_cons in Hl as [->|Hl]; [done|].
    rewrite Forall_forall in Hrest. by apply Hrest.
Qed.

Lemma brief_line_ends_with_period_witness :
  (1 = 1 ∧ endswith " * \brief render primitives." "." = true ∧
   ∃ t, brief draw_refs "glDraw" = Some t ∧ t ≠ "" ∧
        " * \brief render primitives."
        = if endswith t "." then " * \brief " +:+ t
          else " * \brief " +:+ t +:+ ".") ∧
  ∃ ls, build_doc_lines registry0 blank_purpose_refs "glFooEXT" = Some ls ∧
        ∀ l, l ∈ ls → startswith l " * \brief" = false.
Proof.
  split.
  - destruct (build_doc_lines registry0 draw_refs "glDraw") as [ls|] eqn:E;
      [|by vm_compute in E].
    apply (proj1 (brief_line_ends_with_period registry0 draw_refs "glDraw" ls E)
             1 " * \brief render primitives.").
    + vm_compute in E. by injection E as <-.
    + reflexivity.
  - destruct (build_doc_lines registry0 blank_purpose_refs "glFooEXT") as [ls|] eqn:E;
      [|by vm_compute in E].
    exists ls. split; [done|].
    apply (proj2 (proj2 (brief_line_ends_with_period registry0 blank_purpose_refs
                           "glFooEXT" ls E))).
    right. reflexivity.
Defined.

(** ** The second run on the output of the first *)

Section rerun.
Variables (reg : GLRegistry) (refs : RefPages).

Lemma block_lines_macro l :
  block_lines reg refs l ≠ [] → is_Some (DEFINE_RE_match l).
Proof.
  unfold block_lines. destruct (DEFINE_RE_match l) as [p|]; [eauto|done].
Qed.

Lemma chunk_fine_ok l :
  chunk_fine reg refs l → block_lines reg refs l ≠ [] → chunk_ok reg refs l.
Proof.
  intros [Hlb [Hnil|Hok]] Hne; [done|]. split; [done|]. right.
  split; [by apply block_lines_macro|done].
Qed.

Lemma chunk_fine_of_clean l :
  no_linebreak l = true →
  match DEFINE_RE_match l with
  | Some (gl_name, _) =>
      match build_doc_lines reg refs gl_name with
      | Some ls => clean_block ls
      | None => true
      end
  | None => true
  end = true →
  chunk_fine reg refs l.
Proof.
  intros Hlb Hgood. split; [done|]. unfold block_lines.
  destruct (DEFINE_RE_match l) as [[n1 n2]|]; [|by left].
  destruct (build_doc_lines reg refs n1) as [ds|] eqn:E; [|by left].
  right. simpl. by eapply block_ok_of_clean.
Qed.

Lemma fine_block_not_macro l :
  chunk_fine reg refs l → Forall (λ d, DEFINE_RE_match d = None) (block_lines reg refs l).
Proof.
  intros [_ [->|(mid & _ & _ & Hnm & _)]]; [constructor|done].
Qed.

Lemma fine_written_no_linebreak K :
  Forall (chunk_fine reg refs) K →
  Forall (λ l, no_linebreak l = true) (flat_map (expand reg refs) K).
Proof.
  induction 1 as [|l K [Hl Hb] _ IH]; simpl; [constructor|].
  unfold expand. rewrite <- app_assoc. apply Forall_app_2; [|by constructor].
  destruct Hb as [->|(mid & _ & _ & _ & Hlb)]; [constructor|done].
Qed.

Lemma expand_length l :
  length (expand reg refs l) = length (block_lines reg refs l) + 1.
Proof. unfold expand. rewrite length_app. simpl. lia. Qed.

Lemma written_split_length A l X :
  length (flat_map (expand reg refs) (A ++ l :: X))
  = length (flat_map (expand reg refs) A) + length (block_lines reg refs l) + 1 + length (flat_map (expand reg refs) X).
Proof.
  rewrite flat_map_app, length_app. simpl. rewrite length_app, expand_length. lia.
Qed.

(** Every position of the text written is the position of a surviving
    line or lies in the block of one. *)
Lemma position_split : ∀ K t x,
  flat_map (expand reg refs) K !! t = Some x →
  ∃ K1 l K2, K = K1 ++ l :: K2 ∧
    ((t = length (flat_map (expand reg refs) K1) + length (block_lines reg refs l) ∧ x = l) ∨
     (length (flat_map (expand reg refs) K1) ≤ t ∧
      t < length (flat_map (expand reg refs) K1) + length (block_lines reg refs l) ∧
      block_lines reg refs l !! (t - length (flat_map (expand reg refs) K1)) = Some x)).
Proof.
  induction K as [|l K IH]; intros t x Ht; [done|].
  simpl in Ht. unfold expand in Ht. rewrite <- app_assoc in Ht.
  destruct (decide (t < length (block_lines reg refs l))) as [Hlt|Hge].
  - rewrite lookup_app_l in Ht by done.
    exists [], l, K. split; [done|]. right. simpl.
    split_and!; [lia|lia|]. by rewrite Nat.sub_0_r.
  - rewrite lookup_app_r in Ht by lia.
    destruct (t - length (block_lines reg refs l)) as [|u] eqn:Eu.
    + injection Ht as <-. exists [], l, K. split; [done|]. left. simpl.
      split; [lia|done].
    + simpl in Ht. apply IH in Ht as (K1 & l' & K2 & -> & Hpos).
      exists (l :: K1), l', K2. split; [done|].
      change (flat_map (expand reg refs) (l :: K1)) with (expand reg refs l ++ flat_map (expand reg refs) K1).
      rewrite length_app, expand_length.
      destruct Hpos as [[-> ->]|(H1 & H2 & H3)]; [left|right].
      * split; [lia|done].
      * split_and!; [lia|lia|].
        replace (t - (length (block_lines reg refs l) + 1 + length (flat_map (expand reg refs) K1)))
          with (u - length (flat_map (expand reg refs) K1)) by lia. done.
Qed.

Lemma macro_position_fine K j line :
  Forall (chunk_fine reg refs) K →
  flat_map (expand reg refs) K !! j = Some line → is_Some (DEFINE_RE_match line) →
  ∃ K1 K2, K = K1 ++ line :: K2 ∧
           j = length (flat_map (expand reg refs) K1) + length (block_lines reg refs line).
Proof.
  intros HK Hj [p Hp].
  apply position_split in Hj as (K1 & l & K2 & -> & [[-> ->]|(_ & _ & Hb)]).
  - by exists K1, K2.
  - apply Forall_app in HK as [_ [Hl _]%Forall_cons].
    apply fine_block_not_macro in Hl. rewrite Forall_forall in Hl.
    apply list_elem_of_lookup_2, Hl in Hb. congruence.
Qed.

Lemma split_compare : ∀ (K1 K1' : list string) l l' K2 K2',
  K1 ++ l :: K2 = K1' ++ l' :: K2' →
  (K1 = K1' ∧ l = l' ∧ K2 = K2') ∨
  (∃ X, K1' = K1 ++ l :: X) ∨ (∃ X, K1 = K1' ++ l' :: X).
Proof.
  induction K1 as [|x K1 IH]; intros [|y K1'] l l' K2 K2' Heq; simpl in Heq.
  - injection Heq as -> ->. by left.
  - injection Heq as -> ->. right. left. by exists K1'.
  - injection Heq as -> <-. right. right. by exists K1.
  - injection Heq as Hxy Heq. subst y.
    apply IH in Heq as [(H1 & H2 & H3)|[[X HX]|[X HX]]]; subst.
    + by left.
    + right. left. by exists X.
    + right. right. by exists X.
Qed.

Lemma rekept_app skip : ∀ A B pos,
  rekept reg refs skip pos (A ++ B)
  = rekept reg refs skip pos A
    ++ rekept reg refs skip (pos + length (flat_map (expand reg refs) A)) B.
Proof.
  induction A as [|l A IH]; intros B pos.
  - simpl. by rewrite Nat.add_0_r.
  - cbn [app rekept flat_map]. cbv zeta. rewrite IH, <- app_assoc.
    rewrite length_app, expand_length. do 3 f_equal. lia.
Qed.

Lemma rekept_sublist skip : ∀ K pos,
  rekept reg refs skip pos K `sublist_of` K.
Proof.
  induction K as [|l K IH]; intros pos; [constructor|].
  cbn [rekept]. cbv zeta. case_bool_decide; simpl.
  - by apply sublist_cons.
  - by apply sublist_skip.
Qed.

Lemma rekept_id skip : ∀ K pos,
  (∀ K1 l K2, K = K1 ++ l :: K2 →
     pos + length (flat_map (expand reg refs) K1)
     + length (block_lines reg refs l) ∉ skip) →
  rekept reg refs skip pos K = K.
Proof.
  induction K as [|l K IH]; intros pos Hfree; [done|].
  cbn [rekept]. cbv zeta. rewrite bool_decide_false.
  - simpl. f_equal. apply IH. intros K1 l' K2 ->.
    specialize (Hfree (l :: K1) l' K2 eq_refl).
    cbn [flat_map] in Hfree. rewrite length_app, expand_length in Hfree.
    replace (S (pos + length (block_lines reg refs l))
             + length (flat_map (expand reg refs) K1)
             + length (block_lines reg refs l'))
      with (pos + (length (block_lines reg refs l) + 1
                   + length (flat_map (expand reg refs) K1))
            + length (block_lines reg refs l')) by lia.
    done.
  - specialize (Hfree [] l K eq_refl). simpl in Hfree.
    by rewrite Nat.add_0_r in Hfree.
Qed.

Lemma rekept_short skip K1 l K2 pos :
  pos + length (flat_map (expand reg refs) K1)
  + length (block_lines reg refs l) ∈ skip →
  length (rekept reg refs skip pos (K1 ++ l :: K2)) < length (K1 ++ l :: K2).
Proof.
  intros Hin. rewrite rekept_app, !length_app. cbn [rekept]. cbv zeta.
  rewrite bool_decide_true by done. cbn [app length].
  pose proof (sublist_length _ _ (rekept_sublist skip K1 pos)).
  pose proof (sublist_length _ _
    (rekept_sublist skip K2
       (S (pos + length (flat_map (expand reg refs) K1)
           + length (block_lines reg refs l))))).
  lia.
Qed.

Lemma written_sublist S K :
  S `sublist_of` K →
  length (flat_map (expand reg refs) S) ≤ length (flat_map (expand reg refs) K) ∧
  (length (flat_map (expand reg refs) S) = length (flat_map (expand reg refs) K) →
   S = K).
Proof.
  induction 1 as [|x S K _ [IH1 IH2]|x S K _ [IH1 IH2]];
    cbn [flat_map]; rewrite ?length_app, ?expand_length.
  - done.
  - split; [lia|]. intros Heq. f_equal. apply IH2. lia.
  - split; [lia|]. intros Heq. lia.
Qed.

(** The main pass of a second run over the text written: the blocks are
    marked, and what is emitted are the blocks and lines of the surviving
    lines that are not marked. *)
Lemma main_loop_rerun : ∀ K P,
  Forall (chunk_fine reg refs) K →
  main_loop reg refs (prescan (P ++ flat_map (expand reg refs) K))
    (length P) (flat_map (expand reg refs) K)
  = flat_map (emit reg refs)
      (rekept reg refs (prescan (P ++ flat_map (expand reg refs) K))
         (length P) K).
Proof.
  induction K as [|l K IH]; intros P HK; [done|].
  pose proof HK as [Hl HK']%Forall_cons.
  assert (P ++ flat_map (expand reg refs) (l :: K)
          = (P ++ expand reg refs l) ++ flat_map (expand reg refs) K) as HPK.
  { simpl. by rewrite app_assoc. }
  assert (∀ k, k < length (block_lines reg refs l) →
               length P + k ∈ prescan (P ++ flat_map (expand reg refs) (l :: K)))
    as Hblock.
  { intros k Hk. apply block_marked; [|done].
    apply chunk_fine_ok; [done|]. intros Hnil. rewrite Hnil in Hk.
    simpl in Hk. lia. }
  specialize (IH (P ++ expand reg refs l) HK').
  rewrite <- HPK in IH. rewrite length_app, expand_length in IH.
  remember (prescan (P ++ flat_map (expand reg refs) (l :: K))) as marks eqn:Hm.
  clear Hm HPK.
  change (flat_map (expand reg refs) (l :: K))
    with ((block_lines reg refs l ++ [l]) ++ flat_map (expand reg refs) K).
  rewrite <- app_assoc, main_loop_app.
  rewrite (main_loop_marked reg refs marks (block_lines reg refs l)) by done.
  cbn [app main_loop rekept]. cbv zeta.
  replace (S (length P + length (block_lines reg refs l)))
    with (length P + (length (block_lines reg refs l) + 1)) by lia.
  case_bool_decide as Hin.
  - by rewrite IH.
  - cbn [app flat_map]. by rewrite IH.
Qed.

Lemma bare_macros_clear_spec W :
  bare_macros_clear reg refs W = true ↔
  ∀ i line, W !! i = Some line → is_Some (DEFINE_RE_match line) →
            block_lines reg refs line = [] → find_docblock_above W i = None.
Proof.
  unfold bare_macros_clear. rewrite forallb_forall. split.
  - intros H i line Hi [[n1 n2] Hm] Hb.
    specialize (H (i, line)). cbn [fst snd] in H. rewrite Hm in H.
    unfold block_lines in Hb. rewrite Hm in Hb.
    destruct (build_doc_lines reg refs n1) as [ls|] eqn:E.
    { apply build_doc_lines_head in E as [rest ->]. done. }
    destruct (find_docblock_above W i); [|done].
    discriminate H. apply list_elem_of_In, elem_of_lookup_imap. eauto.
  - intros H [i line] (i' & y & [= -> ->] & Hy)%list_elem_of_In%elem_of_lookup_imap.
    cbn [fst snd]. destruct (DEFINE_RE_match y) as [[n1 n2]|] eqn:Hm; [|done].
    destruct (build_doc_lines reg refs n1) as [ls|] eqn:E; [done|].
    rewrite (H i' y Hy); [done|by eexists|].
    unfold block_lines. by rewrite Hm, E.
Qed.

Lemma written_lookup_line K1 l K2 :
  flat_map (expand reg refs) (K1 ++ l :: K2)
    !! (length (flat_map (expand reg refs) K1) + length (block_lines reg refs l))
  = Some l.
Proof.
  rewrite flat_map_app.
  change (flat_map (expand reg refs) (l :: K2))
    with ((block_lines reg refs l ++ [l]) ++ flat_map (expand reg refs) K2).
  rewrite <- app_assoc. cbn [app]. rewrite app_assoc.
  apply list_lookup_middle. by rewrite length_app.
Qed.

(** With no block found above a macro line without block, the second
    pre-scan marks no surviving line. *)
Lemma kept_positions_free K :
  Forall (chunk_fine reg refs) K →
  bare_macros_clear reg refs (flat_map (expand reg refs) K) = true →
  ∀ K1 l K2, K = K1 ++ l :: K2 →
    length (flat_map (expand reg refs) K1) + length (block_lines reg refs l)
    ∉ prescan (flat_map (expand reg refs) K).
Proof.
  intros HK Hbare K1 l K2 HKeq Hin.
  rewrite bare_macros_clear_spec in Hbare.
  apply elem_of_prescan in Hin
    as (i & line & q & a & b & Hi & Hm & Hblock & Ha & Hb).
  destruct (macro_position_fine _ _ _ HK Hi (mk_is_Some _ _ Hm))
    as (K1' & K2' & Heq & ->).
  apply find_docblock_above_Some in Hblock.
  destruct (decide (block_lines reg refs line = [])) as [Hnil|Hne].
  { rewrite (Hbare _ _ Hi (mk_is_Some _ _ Hm) Hnil) in Hblock. done. }
  assert (chunk_ok reg refs line) as Hok.
  { apply chunk_fine_ok; [|done]. rewrite Forall_forall in HK. apply HK.
    rewrite Heq. apply elem_of_app. right. by left. }
  pose proof (find_in_written reg refs [] K1' line K2' Hok (mk_is_Some _ _ Hm))
    as Hf.
  cbn [app length] in Hf. rewrite <- Heq in Hf. cbn [Nat.add] in Hf.
  rewrite Hf in Hblock. injection Hblock as <- <-.
  assert (0 < length (block_lines reg refs line)) as Hpos.
  { destruct (block_lines reg refs line); [done|simpl; lia]. }
  rewrite HKeq in Heq.
  destruct (split_compare _ _ _ _ _ _ Heq) as [(-> & -> & ->)|[[X ->]|[X ->]]].
  - lia.
  - rewrite written_split_length in Ha. lia.
  - rewrite written_split_length in Hb. lia.
Qed.

(** When the second pre-scan marks no surviving line, no block is found
    above a macro line without block. *)
Lemma free_positions_bare K :
  Forall (chunk_fine reg refs) K →
  (∀ K1 l K2, K = K1 ++ l :: K2 →
     length (flat_map (expand reg refs) K1) + length (block_lines reg refs l)
     ∉ prescan (flat_map (expand reg refs) K)) →
  bare_macros_clear reg refs (flat_map (expand reg refs) K) = true.
Proof.
  intros HK Hfree. apply bare_macros_clear_spec.
  intros i line Hi Hmac Hnil.
  destruct (find_docblock_above (flat_map (expand reg refs) K) i)
    as [[a b]|] eqn:Hf; [|done].
  exfalso. apply find_docblock_above_Some in Hf as Hblock.
  pose proof Hblock as (Hab & Hbi & Hblank & _).
  assert (b ∈ prescan (flat_map (expand reg refs) K)) as Hb.
  { destruct Hmac as [p Hp]. apply elem_of_prescan.
    exists i, line, p, a, b. split_and!; [done|done|done|done|lia]. }
  pose proof (lookup_lt_Some _ _ _ Hi) as Hlen.
  destruct (lookup_lt_is_Some_2 (flat_map (expand reg refs) K) b) as [x Hx]; [lia|].
  destruct (position_split _ _ _ Hx)
    as (K1 & l & K2 & HKeq & [[Hpos _]|(Hlo & Hhi & _)]).
  { apply (Hfree K1 l K2 HKeq). by rewrite <- Hpos. }
  destruct (macro_position_fine _ _ _ HK Hi Hmac) as (K1' & K2' & Heq & Hi').
  rewrite Hnil, Nat.add_0_r in Hi'.
  rewrite HKeq in Heq.
  destruct (split_compare _ _ _ _ _ _ Heq) as [(-> & -> & ->)|[[X ->]|[X ->]]].
  - rewrite Hnil in Hhi. simpl in Hhi. lia.
  - rewrite written_split_length in Hi'.
    assert (is_Some (DEFINE_RE_match l)) as [p Hp].
    { apply block_lines_macro. intros Hl. rewrite Hl in Hhi. simpl in Hhi. lia. }
    destruct (macro_line_breaks _ _ Hp) as (Hnb & _).
    specialize (Hblank (length (flat_map (expand reg refs) K1)
                        + length (block_lines reg refs l))).
    rewrite HKeq in Hblank. unfold line_at in Hblank.
    rewrite written_lookup_line in Hblank. simpl in Hblank.
    rewrite Hblank in Hnb by lia. done.
  - rewrite written_split_length in Hlo. lia.
Qed.

Lemma rekept_nonempty K :
  K ≠ [] →
  rekept reg refs (prescan (flat_map (expand reg refs) K)) 0 K ≠ [].
Proof.
  destruct K as [|l K _] using rev_ind; [done|]. intros _.
  rewrite rekept_app. cbn [rekept]. cbv zeta.
  rewrite bool_decide_false.
  - intros [_ ?]%app_nil. done.
  - intros (_ & i & l' & Hlt & Hi & _)%marked_line.
    apply lookup_lt_Some in Hi.
    rewrite written_split_length in Hi. simpl in Hi. lia.
Qed.

(** The second run on the text written by the first. *)
Lemma process_rerun K :
  K ≠ [] → Forall (chunk_fine reg refs) K →
  process reg refs (join LF (flat_map (emit reg refs) K) +:+ LF)
  = join LF (flat_map (emit reg refs) K) +:+ LF
  ↔ bare_macros_clear reg refs
      (splitlines (join LF (flat_map (emit reg refs) K) +:+ LF)) = true.
Proof.
  intros Hne HK.
  pose proof (flat_map_expand_nonempty reg refs K Hne) as Hwne.
  pose proof (fine_written_no_linebreak K HK) as Hwlb.
  unfold process. rewrite join_written, splitlines_join by done.
  unfold process_lines.
  pose proof (main_loop_rerun K [] HK) as Hrun. cbn [app length] in Hrun.
  rewrite Hrun, join_written. clear Hrun.
  set (R := rekept reg refs (prescan (flat_map (expand reg refs) K)) 0 K).
  split.
  - intros Heq.
    assert (flat_map (expand reg refs) R = flat_map (expand reg refs) K) as HRK.
    { rewrite <- (splitlines_join (flat_map (expand reg refs) R)).
      - rewrite Heq. by apply splitlines_join.
      - apply flat_map_expand_nonempty. by apply rekept_nonempty.
      - apply fine_written_no_linebreak. rewrite Forall_forall in HK.
        apply Forall_forall. intros l Hl. apply HK.
        eapply sublist_subseteq; [apply rekept_sublist|exact Hl]. }
    assert (R = K) as HR.
    { apply written_sublist; [apply rekept_sublist|by rewrite HRK]. }
    apply free_positions_bare; [done|].
    intros K1 l K2 HKeq Hin.
    pose proof (rekept_short (prescan (flat_map (expand reg refs) K)) K1 l K2 0)
      as Hshort.
    rewrite <- HKeq in Hshort. fold R in Hshort. rewrite HR in Hshort.
    cbn [Nat.add] in Hshort. specialize (Hshort Hin). lia.
  - intros Hbare. unfold R. rewrite rekept_id; [done|].
    intros K1 l K2 HKeq. cbn [Nat.add].
    exact (kept_positions_free K HK Hbare K1 l K2 HKeq).
Qed.

End rerun.

(** ** The search reads only the lines down to the nearest macro line *)

Lemma block_above_ext L L' idx a b :
  (∀ t, t < idx → line_at L t = line_at L' t) →
  block_above L idx a b → block_above L' idx a b.
Proof.
  intros Hext (Hab & Hb & Hblank & Hnb & Hend & Hopen & Hpass).
  split_and!; [done|done| | | | |].
  - intros t H1 H2. rewrite <- Hext by lia. by apply Hblank.
  - rewrite <- Hext by lia. done.
  - rewrite <- Hext by lia. done.
  - rewrite <- Hext by lia. done.
  - intros t H1 H2. rewrite <- Hext by lia. by apply Hpass.
Qed.

Lemma line_at_app_r P L t : line_at (P ++ L) (length P + t) = line_at L t.
Proof.
  unfold line_at. rewrite lookup_app_r by lia. do 2 f_equal. lia.
Qed.

Lemma block_above_shift P L idx a b :
  block_above (P ++ L) (length P + idx) (length P + a) (length P + b)
  ↔ block_above L idx a b.
Proof.
  unfold block_above. rewrite !line_at_app_r. split.
  - intros (Hab & Hb & Hblank & Hnb & Hend & Hopen & Hpass).
    split_and!; [lia|lia| |done|done|done|].
    + intros t H1 H2. rewrite <- (line_at_app_r P). apply Hblank; lia.
    + intros t H1 H2. rewrite <- (line_at_app_r P). apply Hpass; lia.
  - intros (Hab & Hb & Hblank & Hnb & Hend & Hopen & Hpass).
    split_and!; [lia|lia| |done|done|done|].
    + intros t H1 H2. replace t with (length P + (t - length P)) by lia.
      rewrite line_at_app_r. apply Hblank; lia.
    + intros t H1 H2. replace t with (length P + (t - length P)) by lia.
      rewrite line_at_app_r. apply Hpass; lia.
Qed.

(** Below a macro line, or at the top of the file, whether a block is
    found above a line depends only on the lines in between. *)
Lemma find_local Pre B l R :
  Pre = [] ∨ (∃ Pre' m, Pre = Pre' ++ [m] ∧ is_Some (DEFINE_RE_match m)) →
  is_Some (find_docblock_above (Pre ++ B ++ l :: R) (length Pre + length B))
  ↔ is_Some (find_docblock_above B (length B)).
Proof.
  intros HPre.
  assert (∀ t, t < length B → line_at (B ++ l :: R) t = line_at B t) as Hext.
  { intros t Ht. unfold line_at. by rewrite lookup_app_l. }
  split.
  - intros [[a b] Hf]. apply find_docblock_above_Some in Hf as Hblock.
    assert (length Pre ≤ a) as Ha.
    { destruct HPre as [->|(Pre' & m & -> & [p Hp])]; [simpl; lia|].
      destruct (macro_line_breaks _ _ Hp) as (Hnb & Hcb & Hopen & _).
      rewrite length_app. simpl.
      assert (line_at ((Pre' ++ [m]) ++ B ++ l :: R) (length Pre') = m) as Hm.
      { unfold line_at. rewrite <- app_assoc. cbn [app].
        by rewrite list_lookup_middle. }
      enough (length Pre' < a) by lia.
      eapply block_above_below_break; [exact Hblock| |by rewrite Hm..].
      rewrite length_app. simpl. lia. }
    pose proof Hblock as (Hab & Hb & _).
    replace a with (length Pre + (a - length Pre)) in Hblock by lia.
    replace b with (length Pre + (b - length Pre)) in Hblock by lia.
    apply block_above_shift in Hblock.
    apply (block_above_ext _ B) in Hblock; [|done].
    apply find_docblock_above_Some in Hblock. eauto.
  - intros [[a b] Hf]. apply find_docblock_above_Some in Hf as Hblock.
    apply (block_above_ext _ (B ++ l :: R)) in Hblock.
    2: { intros t Ht. symmetry. by apply Hext. }
    apply (block_above_shift Pre) in Hblock.
    apply find_docblock_above_Some in Hblock. eauto.
Qed.

Lemma last_macro_split : ∀ K1 : list string,
  ∃ A B, K1 = A ++ B ∧ Forall (λ d, DEFINE_RE_match d = None) B ∧
         (A = [] ∨ ∃ A' m, A = A' ++ [m] ∧ is_Some (DEFINE_RE_match m)).
Proof.
  induction K1 as [|x K1 (A & B & -> & HB & HA)].
  - exists [], []. split_and!; [done|constructor|by left].
  - destruct HA as [->|(A' & m & -> & Hm)].
    + destruct (DEFINE_RE_match x) as [p|] eqn:Hx.
      * exists [x], B. split_and!; [done|done|]. right. exists [], x.
        split; [done|by eexists].
      * exists [], (x :: B). split_and!; [done|by constructor|by left].
    + exists (x :: A' ++ [m]), B. split_and!; [done|done|].
      right. by exists (x :: A'), m.
Qed.

Section kept_lines.
Variables (reg : GLRegistry) (refs : RefPages).

Lemma written_plain B :
  Forall (λ d, DEFINE_RE_match d = None) B → flat_map (expand reg refs) B = B.
Proof.
  induction 1 as [|x B Hx _ IH]; [done|]. simpl. rewrite IH.
  unfold expand, block_lines. by rewrite Hx.
Qed.

(** Above a macro line without block, the search finds a block in the
    text written exactly when it finds one among the surviving lines. *)
Lemma find_written_kept K1 l K2 :
  block_lines reg refs l = [] →
  is_Some (find_docblock_above (flat_map (expand reg refs) (K1 ++ l :: K2))
             (length (flat_map (expand reg refs) K1)))
  ↔ is_Some (find_docblock_above (K1 ++ l :: K2) (length K1)).
Proof.
  intros Hnil. destruct (last_macro_split K1) as (A & B & -> & HB & HA).
  rewrite <- !app_assoc, !flat_map_app, (written_plain B HB).
  change (flat_map (expand reg refs) (l :: K2))
    with (expand reg refs l ++ flat_map (expand reg refs) K2).
  unfold expand at 2. rewrite Hnil. cbn [app].
  rewrite !length_app, !find_local; [done|done|].
  destruct HA as [->|(A' & m & -> & Hm)]; [by left|]. right.
  exists (flat_map (expand reg refs) A' ++ block_lines reg refs m), m.
  split; [|done]. rewrite flat_map_app. simpl. unfold expand.
  by rewrite app_nil_r, app_assoc.
Qed.

Lemma bare_clear_kept K :
  Forall (chunk_fine reg refs) K →
  bare_macros_clear reg refs (flat_map (expand reg refs) K) = true
  ↔ bare_macros_clear reg refs K = true.
Proof.
  intros HK. rewrite !bare_macros_clear_spec. split.
  - intros H k line Hk Hmac Hnil.
    apply take_drop_middle in Hk as HKeq.
    pose proof (lookup_lt_Some _ _ _ Hk) as Hlen.
    pose proof (written_lookup_line reg refs (take k K) line (drop (S k) K))
      as Hpos.
    rewrite HKeq, Hnil, Nat.add_0_r in Hpos.
    specialize (H _ _ Hpos Hmac Hnil).
    apply eq_None_not_Some. intros Hsome.
    pose proof (find_written_kept (take k K) line (drop (S k) K) Hnil) as Hloc.
    rewrite HKeq, length_take_le in Hloc by lia.
    apply Hloc in Hsome. rewrite H in Hsome. by destruct Hsome.
  - intros H i line Hi Hmac Hnil.
    destruct (macro_position_fine reg refs _ _ _ HK Hi Hmac)
      as (K1 & K2 & HKeq & ->).
    rewrite Hnil, Nat.add_0_r.
    apply eq_None_not_Some. intros Hsome.
    rewrite HKeq in Hsome. apply (find_written_kept K1 line K2 Hnil) in Hsome.
    rewrite <- HKeq in Hsome.
    rewrite (H (length K1) line) in Hsome; [by destruct Hsome| |done|done].
    rewrite HKeq. by apply list_lookup_middle.
Qed.

End kept_lines.

(** C1 (as the code has it): when each block that the first run
    synthesizes is clean (no line boundary inside a line, the opening
    marker only in its first line), the second run, on the output of the
    first with the same registry and reference pages, writes the same text
    again exactly when, among the lines that the first run leaves in
    place, no comment block is found above a macro line for which nothing
    is synthesized; this is the same as finding none above such a line in
    the output of the first run. A macro line without block is no
    obstacle by itself: the second run differs when a further comment
    block stood above the one that the first run removed there. In
    particular the text is reproduced when every macro line gets a clean
    block. *)
Theorem process_idempotent (reg : GLRegistry) (refs : RefPages) (input : string) :
  let kept := surviving (prescan (splitlines input)) (splitlines input) in
  (blocks_clean reg refs (splitlines input) = true →
   (process reg refs (process reg refs input) = process reg refs input ↔
    bare_macros_clear reg refs kept = true) ∧
   bare_macros_clear reg refs (splitlines (process reg refs input))
   = bare_macros_clear reg refs kept) ∧
  (docs_clean reg refs (splitlines input) = true →
   process reg refs (process reg refs input) = process reg refs input).
Proof.
  intros kept. split.
  - intros Hclean.
    assert (Forall (chunk_fine reg refs) kept) as HK.
    { apply Forall_forall. intros l [i [Hi _]]%elem_of_surviving.
      apply list_elem_of_lookup_2 in Hi.
      apply chunk_fine_of_clean.
      - pose proof (splitlines_no_linebreak input) as Hlb.
        rewrite Forall_forall in Hlb. by apply Hlb.
      - unfold blocks_clean in Hclean. rewrite forallb_forall in Hclean.
        apply Hclean. by apply list_elem_of_In. }
    assert (process reg refs input
            = join LF (flat_map (emit reg refs) kept) +:+ LF) as ->.
    { unfold process. by rewrite process_lines_surviving. }
    destruct (decide (kept = [])) as [Hnil|Hne].
    { rewrite Hnil. split; [split; intros _|]; reflexivity. }
    pose proof (process_rerun reg refs kept Hne HK) as Hrun.
    assert (splitlines (join LF (flat_map (emit reg refs) kept) +:+ LF)
            = flat_map (expand reg refs) kept) as Hsplit.
    { rewrite join_written. apply splitlines_join.
      - by apply flat_map_expand_nonempty.
      - by apply fine_written_no_linebreak. }
    rewrite Hsplit in *.
    pose proof (bare_clear_kept reg refs kept HK) as Hkept.
    split; [by rewrite Hrun|].
    destruct (bare_macros_clear reg refs (flat_map (expand reg refs) kept)),
      (bare_macros_clear reg refs kept); try done.
    + by destruct Hkept as [-> _].
    + by destruct Hkept as [_ ->].
  - intros Hclean. unfold process at 2 3.
    rewrite process_lines_surviving.
    apply process_written.
    apply Forall_forall. intros l [i [Hi _]]%elem_of_surviving.
    apply list_elem_of_lookup_2 in Hi.
    apply chunk_ok_of_clean.
    + pose proof (splitlines_no_linebreak input) as Hlb.
      rewrite Forall_forall in Hlb. by apply Hlb.
    + unfold docs_clean in Hclean. rewrite forallb_forall in Hclean.
      apply Hclean. by apply list_elem_of_In.
Qed.

Lemma process_idempotent_witness :
  process registry0 no_refs (process registry0 no_refs mixed_text)
  = process registry0 no_refs mixed_text ∧
  process registry0 no_refs (process registry0 no_refs stacked_text)
  ≠ process registry0 no_refs stacked_text ∧
  process registry0 no_refs (process registry0 no_refs header_text)
  = process registry0 no_refs header_text.
Proof.
  split_and!.
  - apply (proj1 (proj1 (process_idempotent registry0 no_refs mixed_text)
                    ltac:(by vm_compute))).
    by vm_compute.
  - intros Heq.
    apply (proj1 (proj1 (process_idempotent registry0 no_refs stacked_text)
                    ltac:(by vm_compute))) in Heq.
    by vm_compute in Heq.
  - apply (proj2 (process_idempotent registry0 no_refs header_text)).
    by vm_compute.
Defined.

(** The blocks must be clean: with the version text "/**" nothing stands
    above a macro line without block, yet the second run takes the note
    line for the start of the block and leaves the lines above it in
    place. *)
Example clean_blocks_needed :
  blocks_clean odd_registry no_refs (splitlines header_text) = false ∧
  bare_macros_clear odd_registry no_refs
    (surviving (prescan (splitlines header_text)) (splitlines header_text)) = true ∧
  process odd_registry no_refs (process odd_registry no_refs header_text)
    ≠ process odd_registry no_refs header_text.
Proof. by vm_compute. Qed.

(** Files with a macro line for which nothing is synthesized are
    reproduced when no comment block is left above it: the macro line
    alone, one comment block above it, and a file with a known and an
    unknown macro. *)
Example bare_macro_files :
  (let x := "#define glBar glad_glBar" +:+ LF in
   docs_clean registry0 no_refs (splitlines x) = false ∧
   process registry0 no_refs (process registry0 no_refs x)
   = process registry0 no_refs x) ∧
  (let x := "/** a */" +:+ LF +:+ "#define glBar glad_glBar" +:+ LF in
   docs_clean registry0 no_refs (splitlines x) = false ∧
   process registry0 no_refs (process registry0 no_refs x)
   = process registry0 no_refs x) ∧
  docs_clean registry0 no_refs (splitlines mixed_text) = false.
Proof. by vm_compute. Qed.
